(** * Aerith interpreter: a shallow embedding of [static/interpreter.py]

    The development follows the layout of the Python file: the host
    (Python) string and operator primitives the interpreter relies on, the
    environment class [Env], the AST node classes with their [eval]
    methods, the line parser, and the runner.

    Environments are mutable Python objects that refer to their parent, so
    they live in a store ([heap]) and are named by their address; a child
    and its parent are two cells of the same store.  Evaluation threads
    the store and the standard output through a small state-and-exception
    monad. *)

From Stdlib Require Import ZArith String Ascii List Lia.
From stdpp Require Import base option list gmap strings.

Import ListNotations.
Set Warnings "-register-all".
Local Open Scope string_scope.
Local Open Scope Z_scope.
Local Open Scope list_scope.

(** ** Host string primitives

    A Python [str] is modelled by a Rocq [string] whose characters are the
    code points 0..255.  Each function below is the Python method of the
    same name restricted to that range. *)
Module PyStr.

Definition chars (s : string) : list ascii := list_ascii_of_string s.
Definition str (l : list ascii) : string := string_of_list_ascii l.

(** [str.isspace] on one character: TAB..CR, FS..US and SPACE, NEL, NBSP. *)
Definition isspace (c : ascii) : bool :=
  let n := nat_of_ascii c in
  ((9 <=? n)%nat && (n <=? 13)%nat) || ((28 <=? n)%nat && (n <=? 32)%nat)
  || (n =? 133)%nat || (n =? 160)%nat.

Fixpoint lstrip_chars (l : list ascii) : list ascii :=
  match l with
  | c :: l' => if isspace c then lstrip_chars l' else l
  | [] => []
  end.

Definition rstrip_chars (l : list ascii) : list ascii :=
  rev (lstrip_chars (rev l)).

(** [s.strip()] *)
Definition strip (s : string) : string :=
  str (rstrip_chars (lstrip_chars (chars s))).

(** [s.startswith(p)] and [s.endswith(p)] *)
Definition startswith (s p : string) : bool := String.prefix p s.

Definition endswith (s p : string) : bool :=
  String.prefix (str (rev (chars p))) (str (rev (chars s))).

(** [s[n:]] *)
Definition drop_prefix (n : nat) (s : string) : string :=
  str (drop n (chars s)).

(** [s[1:-1]] *)
Definition inner (s : string) : string :=
  str (removelast (drop 1 (chars s))).

(** [s.split(sep)] for a one-character separator: every occurrence
    cuts, and the result is never empty. *)
Fixpoint split_chars (sep : ascii) (l : list ascii) : list (list ascii) :=
  match l with
  | [] => [[]]
  | c :: l' =>
      if Ascii.eqb c sep then [] :: split_chars sep l'
      else match split_chars sep l' with
           | p :: ps => (c :: p) :: ps
           | [] => [[c]]
           end
  end.

Definition split (sep : ascii) (s : string) : list string :=
  map str (split_chars sep (chars s)).

(** [s.split(sep, 1)]: cut at the first occurrence only. *)
Fixpoint split1_chars (sep : ascii) (l : list ascii) : list (list ascii) :=
  match l with
  | [] => [[]]
  | c :: l' =>
      if Ascii.eqb c sep then [[]; l']
      else match split1_chars sep l' with
           | p :: ps => (c :: p) :: ps
           | [] => [[c]]
           end
  end.

Definition split1 (sep : ascii) (s : string) : list string :=
  map str (split1_chars sep (chars s)).

(** [s.split()]: maximal runs of non-space characters.  [cur] is the
    run being read, in reverse. *)
Fixpoint fields_chars (cur : option (list ascii)) (l : list ascii)
  : list (list ascii) :=
  match l with
  | [] => match cur with Some w => [rev w] | None => [] end
  | c :: l' =>
      if isspace c then
        match cur with
        | Some w => rev w :: fields_chars None l'
        | None => fields_chars None l'
        end
      else fields_chars (Some (c :: default [] cur)) l'
  end.

Definition fields (s : string) : list string :=
  map str (fields_chars None (chars s)).

(** Line boundaries of [str.splitlines]: LF, VT, FF, CR, FS, GS, RS, NEL
    (and CR LF taken as one). *)
Definition islinebreak (c : ascii) : bool :=
  let n := nat_of_ascii c in
  ((10 <=? n)%nat && (n <=? 13)%nat) || ((28 <=? n)%nat && (n <=? 30)%nat)
  || (n =? 133)%nat.

Fixpoint splitlines_chars (cur : list ascii) (l : list ascii)
  : list (list ascii) :=
  match l with
  | [] => match cur with [] => [] | _ => [rev cur] end
  | c :: l' =>
      if islinebreak c then
        rev cur ::
          match l' with
          | c' :: l'' =>
              if ((nat_of_ascii c =? 13)%nat && (nat_of_ascii c' =? 10)%nat)%bool
              then splitlines_chars [] l''
              else splitlines_chars [] l'
          | [] => splitlines_chars [] l'
          end
      else splitlines_chars (c :: cur) l'
  end.

(** [s.splitlines()] *)
Definition splitlines (s : string) : list string :=
  map str (splitlines_chars [] (chars s)).

(** [str.upper] on one character.  Lower-case ASCII and Latin-1 letters
    move down by 32 and the sharp s becomes two letters.  The upper-case
    forms of the micro sign and of y-diaeresis are code points above 255:
    they are left in place here, which changes no comparison with a text
    of ASCII letters. *)
Definition upper_char (c : ascii) : list ascii :=
  let n := nat_of_ascii c in
  if ((97 <=? n)%nat && (n <=? 122)%nat)%bool then [ascii_of_nat (n - 32)]
  else if (n =? 223)%nat then ["S"%char; "S"%char]
  else if ((224 <=? n)%nat && (n <=? 254)%nat && negb (n =? 247)%nat)%bool
       then [ascii_of_nat (n - 32)]
  else [c].

(** [s.upper()] *)
Definition upper (s : string) : string :=
  str (flat_map upper_char (chars s)).

Definition isdigit (c : ascii) : bool :=
  let n := nat_of_ascii c in ((48 <=? n)%nat && (n <=? 57)%nat)%bool.

Definition digit_val (c : ascii) : Z := Z.of_nat (nat_of_ascii c) - 48.

(** Decimal digits with single underscores between digits, as [int]
    accepts them. [prev] tells whether the previous character was a
    digit. *)
Fixpoint digits (acc : Z) (prev : bool) (l : list ascii) : option Z :=
  match l with
  | [] => if prev then Some acc else None
  | c :: l' =>
      if isdigit c then digits (10 * acc + digit_val c) true l'
      else if Ascii.eqb c "_"%char then
             if prev then digits acc false l' else None
      else None
  end.

(** [int(s)]: [None] stands for the [ValueError] Python raises.  (The
    optional limit on the number of digits of recent Python versions is
    not modelled.) *)
Definition int (s : string) : option Z :=
  match chars (strip s) with
  | c :: l =>
      if Ascii.eqb c "-"%char then Z.opp <$> digits 0 false l
      else if Ascii.eqb c "+"%char then digits 0 false l
      else digits 0 false (c :: l)
  | [] => None
  end.

End PyStr.

(** ** Host values

    The Python objects a program of the language can compute: integers,
    floats (the result of [/]; kept as the 64 bits of the IEEE double),
    booleans, strings, [None], lists, dicts (insertion-ordered, keys unique
    up to Python equality) and modules (what the import fallback of a
    function call returns). *)
Inductive value : Type :=
| VInt (n : Z)
| VFloat (bits : Z)
| VBool (b : bool)
| VStr (s : string)
| VNone
| VList (xs : list value)
| VDict (items : list (value * value))
| VModule (name : string).

(** The exceptions evaluation can raise.  [NameError] and [Exception] carry
    the message the interpreter builds; the others are raised by the host
    (unpacking, [int], operators, [importlib], the recursion limit). *)
Inductive exn : Type :=
| NameError (msg : string)
| Exception (msg : string)
| ValueError
| TypeError
| ZeroDivisionError
| ImportError (name : string)
| RecursionError
| HostError (kind : string).

(** Python truth value of an object ([if v], [v and w], [v or w]). *)
Definition truthy (v : value) : bool :=
  match v with
  | VInt n => negb (n =? 0)%Z
  | VFloat bits => negb (Z.land bits (2 ^ 63 - 1) =? 0)%Z
  | VBool b => b
  | VStr s => negb (String.eqb s EmptyString)
  | VNone => false
  | VList xs => match xs with [] => false | _ => true end
  | VDict items => match items with [] => false | _ => true end
  | VModule _ => true
  end.

(** ** AST nodes (the classes deriving from [Node]) *)
Module Ast.

Inductive Node : Type :=
| Number (value : Z)
| String (value : string)
| Boolean (value : bool)
| NoneNode
| Array (elements : list Node)
| Dict (items : list (Node * Node))
| Var (name : string)
| BinOp (left : Node) (op : string) (right : Node)
| Let (name : string) (expr : Node)
| Assign (name : string) (expr : Node)
| Print (expr : Node)
| FuncDef (name : string) (args : list string) (body : list Node)
| FuncCall (name : string) (args : list Node)
| If (cond : Node) (true_body : list Node) (false_body : option (list Node))
| While (cond : Node) (body : list Node).

End Ast.
Import Ast.

(** ** Environments ([class Env]) *)

Abbreviation addr := nat (only parsing).

Record Env : Type := mkEnv {
  vars : gmap string value;
  funcs : gmap string (list string * list Node);
  classes : gmap string value;
  parent : option addr;
  superuser : bool
}.

(** [Env(parent)]: the object [__init__] builds. *)
Definition Env_init (parent : option addr) : Env :=
  mkEnv ∅ ∅ ∅ parent false.

Global Instance Env_inhabited : Inhabited Env := populate (Env_init None).

(** The store of environment objects; an address is an index in it.
    Addresses come from [m_new_env] and are those of live objects; the
    total lookup [h !!! a] reads an address that is not live as a root
    environment with no binding, and an update there changes nothing. *)
Abbreviation heap := (list Env) (only parsing).

Definition set_vars (e : Env) (vs : gmap string value) : Env :=
  mkEnv vs (funcs e) (classes e) (parent e) (superuser e).

Definition set_funcs (e : Env) (fs : gmap string (list string * list Node)) : Env :=
  mkEnv (vars e) fs (classes e) (parent e) (superuser e).

Definition set_classes (e : Env) (cs : gmap string value) : Env :=
  mkEnv (vars e) (funcs e) cs (parent e) (superuser e).

Definition set_superuser (e : Env) (b : bool) : Env :=
  mkEnv (vars e) (funcs e) (classes e) (parent e) b.

Definition not_defined (kind name : string) : exn :=
  NameError (kind +:+ " '" +:+ name +:+ "' not defined").

(** [Env.get]: the recursion through [self.parent] is bounded by the
    number of live environments; a chain that does not end within that
    bound is cyclic, where Python stops with a [RecursionError]. *)
Fixpoint get_from (depth : nat) (h : heap) (self : addr) (name : string)
  : value + exn :=
  match depth with
  | O => inr RecursionError
  | S d =>
      match vars (h !!! self) !! name with
      | Some v => inl v
      | None =>
          match parent (h !!! self) with
          | Some p => get_from d h p name
          | None => inr (not_defined "Variable" name)
          end
      end
  end.

Definition Env_get (h : heap) (self : addr) (name : string) : value + exn :=
  get_from (length h) h self name.

(** [Env.set] *)
Fixpoint set_from (depth : nat) (h : heap) (self : addr) (name : string)
  (v : value) : heap + exn :=
  match depth with
  | O => inr RecursionError
  | S d =>
      match vars (h !!! self) !! name with
      | Some _ =>
          inl (<[self := set_vars (h !!! self) (<[name := v]> (vars (h !!! self)))]> h)
      | None =>
          match parent (h !!! self) with
          | Some p => set_from d h p name v
          | None => inr (not_defined "Variable" name)
          end
      end
  end.

Definition Env_set (h : heap) (self : addr) (name : string) (v : value)
  : heap + exn :=
  set_from (length h) h self name v.

(** [Env.declare] *)
Definition Env_declare (h : heap) (self : addr) (name : string) (v : value)
  : heap :=
  <[self := set_vars (h !!! self) (<[name := v]> (vars (h !!! self)))]> h.

(** [Env.define_func] *)
Definition Env_define_func (h : heap) (self : addr) (name : string)
  (args : list string) (body : list Node) : heap :=
  <[self := set_funcs (h !!! self) (<[name := (args, body)]> (funcs (h !!! self)))]> h.

(** [Env.get_func] *)
Fixpoint get_func_from (depth : nat) (h : heap) (self : addr) (name : string)
  : (list string * list Node) + exn :=
  match depth with
  | O => inr RecursionError
  | S d =>
      match funcs (h !!! self) !! name with
      | Some f => inl f
      | None =>
          match parent (h !!! self) with
          | Some p => get_func_from d h p name
          | None => inr (not_defined "Function" name)
          end
      end
  end.

Definition Env_get_func (h : heap) (self : addr) (name : string)
  : (list string * list Node) + exn :=
  get_func_from (length h) h self name.

(** [Env.define_class] and [Env.get_class] *)
Definition Env_define_class (h : heap) (self : addr) (name : string)
  (cls : value) : heap :=
  <[self := set_classes (h !!! self) (<[name := cls]> (classes (h !!! self)))]> h.

Fixpoint get_class_from (depth : nat) (h : heap) (self : addr) (name : string)
  : value + exn :=
  match depth with
  | O => inr RecursionError
  | S d =>
      match classes (h !!! self) !! name with
      | Some c => inl c
      | None =>
          match parent (h !!! self) with
          | Some p => get_class_from d h p name
          | None => inr (not_defined "Class" name)
          end
      end
  end.

Definition Env_get_class (h : heap) (self : addr) (name : string)
  : value + exn :=
  get_class_from (length h) h self name.

(** ** Evaluation state and the evaluation monad *)

(** One argument of a [print] call; the text that reaches the terminal is
    the host's [str] of it. *)
Inductive printed : Type :=
| PText (s : string)
| PValue (v : value)
| PVars (vs : gmap string value).

(** The store, and the lines printed so far (one entry per [print] call). *)
Record State : Type := mkState {
  st_heap : heap;
  st_out : list (list printed)
}.

(** How a computation ends: with a value, with a raised exception, or
    without an answer within the fuel it was given. *)
Inductive res (A : Type) : Type :=
| Ret (a : A)
| Raise (e : exn)
| OutOfFuel.
Arguments Ret {A} a.
Arguments Raise {A} e.
Arguments OutOfFuel {A}.

Definition M (A : Type) : Type := State → State * res A.

Definition ret {A} (a : A) : M A := λ st, (st, Ret a).

Definition raise {A} (e : exn) : M A := λ st, (st, Raise e).

Definition out_of_fuel {A} : M A := λ st, (st, OutOfFuel).

Definition bind {A B} (m : M A) (k : A → M B) : M B :=
  λ st, match m st with
        | (st', Ret a) => k a st'
        | (st', Raise e) => (st', Raise e)
        | (st', OutOfFuel) => (st', OutOfFuel)
        end.

Notation "'let*' x ':=' m 'in' k" := (bind m (λ x, k))
  (at level 10, x name, m at level 100, k at level 200).
Notation "m ';;' k" := (bind m (λ _, k))
  (at level 100, k at level 200, right associativity).

Definition lift {A} (r : A + exn) : M A :=
  match r with inl a => ret a | inr e => raise e end.

Definition with_heap (st : State) (h : heap) : State := mkState h (st_out st).

(** The environment methods as computations on the store. *)
Definition m_get (env : addr) (name : string) : M value :=
  λ st, lift (Env_get (st_heap st) env name) st.

Definition m_set (env : addr) (name : string) (v : value) : M unit :=
  λ st, match Env_set (st_heap st) env name v with
        | inl h' => (with_heap st h', Ret tt)
        | inr e => (st, Raise e)
        end.

Definition m_declare (env : addr) (name : string) (v : value) : M unit :=
  λ st, (with_heap st (Env_declare (st_heap st) env name v), Ret tt).

Definition m_define_func (env : addr) (name : string) (args : list string)
  (body : list Node) : M unit :=
  λ st, (with_heap st (Env_define_func (st_heap st) env name args body), Ret tt).

(** [Env(parent)]: a new object, at the next free address. *)
Definition m_new_env (parent : option addr) : M addr :=
  λ st, (with_heap st (st_heap st ++ [Env_init parent]), Ret (length (st_heap st))).

(** [print(...)] *)
Definition m_print (items : list printed) : M unit :=
  λ st, (mkState (st_heap st) (st_out st ++ [items]), Ret tt).

(** ** Host operators

    What Python computes for operands the development does not spell out
    (floats, string formatting, sequence repetition and ordering, mixed
    types, ...) and for [importlib.import_module] is a parameter.  The
    import answers with a module or an exception; what the code of a
    module does when it is first imported (it may print) is outside the
    model, and no property below speaks of it. *)
Class Host : Type := {
  host_binop : string → value → value → value + exn;
  host_import : string → value + exn
}.

(** Integers and booleans are both Python [int]s. *)
Definition as_int (v : value) : option Z :=
  match v with
  | VInt n => Some n
  | VBool b => Some (Z.b2z b)
  | _ => None
  end.

Section Operators.
Context `{Host}.

Definition py_add (l r : value) : value + exn :=
  match as_int l, as_int r with
  | Some a, Some b => inl (VInt (a + b))
  | _, _ =>
      match l, r with
      | VStr a, VStr b => inl (VStr (a +:+ b))
      | VList a, VList b => inl (VList (a ++ b))
      | _, _ => host_binop "+" l r
      end
  end.

Definition py_arith (op : string) (f : Z → Z → Z) (l r : value) : value + exn :=
  match as_int l, as_int r with
  | Some a, Some b => inl (VInt (f a b))
  | _, _ => host_binop op l r
  end.

Definition py_truediv (l r : value) : value + exn :=
  match as_int l, as_int r with
  | Some a, Some b =>
      if (b =? 0)%Z then inr ZeroDivisionError else host_binop "/" l r
  | _, _ => host_binop "/" l r
  end.

Definition py_mod (l r : value) : value + exn :=
  match as_int l, as_int r with
  | Some a, Some b =>
      if (b =? 0)%Z then inr ZeroDivisionError else inl (VInt (a mod b))
  | _, _ => host_binop "%" l r
  end.

Definition py_eq (l r : value) : value + exn :=
  match as_int l, as_int r with
  | Some a, Some b => inl (VBool (a =? b)%Z)
  | _, _ =>
      match l, r with
      | VStr a, VStr b => inl (VBool (String.eqb a b))
      | VNone, VNone => inl (VBool true)
      | _, _ => host_binop "==" l r
      end
  end.

Definition py_ne (l r : value) : value + exn :=
  match as_int l, as_int r with
  | Some a, Some b => inl (VBool (negb (a =? b)%Z))
  | _, _ =>
      match l, r with
      | VStr a, VStr b => inl (VBool (negb (String.eqb a b)))
      | VNone, VNone => inl (VBool false)
      | _, _ => host_binop "!=" l r
      end
  end.

Definition py_compare (op : string) (f : Z → Z → bool) (l r : value) : value + exn :=
  match as_int l, as_int r with
  | Some a, Some b => inl (VBool (f a b))
  | _, _ => host_binop op l r
  end.

(** [l and r] and [l or r] on values already computed. *)
Definition py_and (l r : value) : value := if truthy l then r else l.
Definition py_or (l r : value) : value := if truthy l then l else r.

(** The chain of tests of [BinOp.eval] once both operands are known. *)
Definition binop (op : string) (l r : value) : value + exn :=
  if String.eqb op "+" then py_add l r
  else if String.eqb op "-" then py_arith "-" Z.sub l r
  else if String.eqb op "*" then py_arith "*" Z.mul l r
  else if String.eqb op "/" then py_truediv l r
  else if String.eqb op "%" then py_mod l r
  else if String.eqb op "==" then py_eq l r
  else if String.eqb op "!=" then py_ne l r
  else if String.eqb op ">" then py_compare ">" Z.gtb l r
  else if String.eqb op "<" then py_compare "<" Z.ltb l r
  else if String.eqb op ">=" then py_compare ">=" Z.geb l r
  else if String.eqb op "<=" then py_compare "<=" Z.leb l r
  else if String.eqb op "&&" then inl (py_and l r)
  else if String.eqb op "||" then inl (py_or l r)
  else inr (Exception ("Unknown operator " +:+ op)).

(** Keys of a dict must be hashable; lists and dicts are not. *)
Definition hashable (v : value) : bool :=
  match v with
  | VList _ | VDict _ => false
  | _ => true
  end.

Definition key_eqb (k1 k2 : value) : bool :=
  match py_eq k1 k2 with
  | inl v => truthy v
  | inr _ => false
  end.

(** [d[k] = v] on an insertion-ordered dict: an equal key keeps its
    place (and its first spelling), a new key goes last. *)
Fixpoint dict_store (d : list (value * value)) (k v : value)
  : list (value * value) :=
  match d with
  | [] => [(k, v)]
  | (k', v') :: d' =>
      if key_eqb k' k then (k', v) :: d' else (k', v') :: dict_store d' k v
  end.

Definition dict_setitem (d : list (value * value)) (k v : value)
  : list (value * value) + exn :=
  if hashable k then inl (dict_store d k v) else inr TypeError.

End Operators.

(** ** Evaluation ([Node.eval])

    [eval fuel node env] is [node.eval(env)]: [fuel] bounds the depth of
    nested [eval] calls and loop iterations, and a computation that needs
    more ends with [OutOfFuel].  The host's own recursion limit is not
    modelled. *)
Section Eval.
Context `{Host}.

Section Loops.
(** The loops and comprehensions of the [eval] methods, over the
    evaluator [ev] for the nodes inside. *)
Variable ev : Node → addr → M value.

(** [[el.eval(env) for el in self.elements]] *)
Fixpoint eval_elements (elements : list Node) (env : addr) : M (list value) :=
  match elements with
  | [] => ret []
  | el :: rest =>
      let* v := ev el env in
      let* vs := eval_elements rest env in
      ret (v :: vs)
  end.

(** [{k.eval(env): v.eval(env) for k,v in self.items}], [d] being the
    dict built so far. *)
Fixpoint eval_items (items : list (Node * Node)) (env : addr)
  (d : list (value * value)) : M (list (value * value)) :=
  match items with
  | [] => ret d
  | (k, v) :: rest =>
      let* kv := ev k env in
      let* vv := ev v env in
      let* d' := lift (dict_setitem d kv vv) in
      eval_items rest env d'
  end.

(** [for stmt in body: ret = stmt.eval(env)] *)
Fixpoint exec_body (body : list Node) (env : addr) (r : value) : M value :=
  match body with
  | [] => ret r
  | stmt :: rest =>
      let* v := ev stmt env in
      exec_body rest env v
  end.

(** [for n, a in zip(func_args, self.args): local_env.declare(n, a.eval(env))] *)
Fixpoint bind_args (pairs : list (string * Node)) (local_env env : addr)
  : M unit :=
  match pairs with
  | [] => ret tt
  | (n, a) :: rest =>
      let* v := ev a env in
      m_declare local_env n v ;;
      bind_args rest local_env env
  end.
End Loops.

(** Truth value of [self.false_body] in [If.eval]. *)
Definition has_body (b : option (list Node)) : bool :=
  match b with
  | Some (_ :: _) => true
  | _ => false
  end.

(** The [eval] method of each node class; [ev] stands for the [eval]
    calls on the nodes it holds (and, in [While], for the next turn of
    the loop). *)
Definition eval_node (ev : Node → addr → M value) (node : Node) (env : addr)
  : M value :=
  match node with
  | Number value => ret (VInt value)
  | String value => ret (VStr value)
  | Boolean value => ret (VBool value)
  | NoneNode => ret VNone
  | Array elements =>
      let* vs := eval_elements ev elements env in
      ret (VList vs)
  | Dict items =>
      let* d := eval_items ev items env [] in
      ret (VDict d)
  | Var name => m_get env name
  | BinOp left_ op right_ =>
      let* l := ev left_ env in
      let* r := ev right_ env in
      lift (binop op l r)
  | Let name expr =>
      let* v := ev expr env in
      m_declare env name v ;;
      ret VNone
  | Assign name expr =>
      let* v := ev expr env in
      m_set env name v ;;
      ret VNone
  | Print expr =>
      let* v := ev expr env in
      m_print [PValue v] ;;
      ret VNone
  | FuncDef name args body =>
      m_define_func env name args body ;;
      ret VNone
  | FuncCall name args =>
      λ st,
        match Env_get_func (st_heap st) env name with
        | inr (NameError _) => lift (host_import name) st
        | inr e => (st, Raise e)
        | inl (func_args, func_body) =>
            (let* local_env := m_new_env (Some env) in
             bind_args ev (zip func_args args) local_env env ;;
             exec_body ev func_body local_env VNone) st
        end
  | If cond true_body false_body =>
      let* c := ev cond env in
      if truthy c then exec_body ev true_body env VNone ;; ret VNone
      else if has_body false_body
           then exec_body ev (default [] false_body) env VNone ;; ret VNone
           else ret VNone
  | While cond body =>
      let* c := ev cond env in
      if truthy c
      then exec_body ev body env VNone ;; ev (While cond body) env
      else ret VNone
  end.

Fixpoint eval (fuel : nat) : Node → addr → M value :=
  match fuel with
  | O => λ _ _, out_of_fuel
  | S k => eval_node (eval k)
  end.

End Eval.

(** ** Parser helpers ([parse_expr], [parse_line]) *)

Definition quote : string := String.String (ascii_of_nat 34) EmptyString.

(** The condition [if x.strip()] of the list comprehension. *)
Definition nonblank (x : string) : bool :=
  negb (String.eqb (PyStr.strip x) EmptyString).

(** [parse_expr]. [depth] bounds the nesting of bracketed lists; a text
    of [depth] characters never needs more (lemma [parse_expr_depth]). *)
Fixpoint parse_expr_at (depth : nat) (expr : string) : Node :=
  let expr := PyStr.strip expr in
  if String.eqb expr "true" then Boolean true
  else if String.eqb expr "false" then Boolean false
  else if String.eqb expr "none" then NoneNode
  else if PyStr.startswith expr quote && PyStr.endswith expr quote
       then String (PyStr.inner expr)
  else if PyStr.startswith expr "[" && PyStr.endswith expr "]"
       then
         match depth with
         | S d =>
             Array (map (λ x, parse_expr_at d (PyStr.strip x))
                        (filter (λ x, nonblank x = true)
                                (PyStr.split "," (PyStr.inner expr))))
         | O => Array []
         end
  else match PyStr.int expr with
       | Some n => Number n
       | None => Var expr
       end.

Definition parse_expr (expr : string) : Node :=
  parse_expr_at (String.length expr) expr.

(** [parse_line]: a node, [None], or the [ValueError] of the tuple
    unpacking when the text after [let] has no equals sign. *)
Definition parse_line (line : string) : option Node + exn :=
  let line := PyStr.strip line in
  if PyStr.startswith line "let " then
    match PyStr.split1 "=" (PyStr.drop_prefix 4 line) with
    | [name; expr] =>
        inl (Some (Let (PyStr.strip name) (parse_expr (PyStr.strip expr))))
    | _ => inr ValueError
    end
  else if PyStr.startswith line "shout " then
    inl (Some (Print (parse_expr (PyStr.drop_prefix 6 line))))
  else inl None.

(** ** Runner ([run]) *)

Definition magic_token : string := "SUDO%20INIT%20SUPERUSERMODE".

(** [line.strip().upper() == 'SUDO%20INIT%20SUPERUSERMODE'] *)
Definition is_magic (line : string) : bool :=
  String.eqb (PyStr.upper (PyStr.strip line)) magic_token.

(** Nesting depth of a node: the nodes the parser builds contain no loop
    and no call, and [eval] needs no more fuel than this for them. *)
Fixpoint height (n : Node) : nat :=
  match n with
  | Number _ | String _ | Boolean _ | NoneNode | Var _ => 1
  | Array elements => S (list_max (map height elements))
  | Dict items =>
      S (list_max (map (λ kv, match kv with
                              | (k, v) => Nat.max (height k) (height v)
                              end) items))
  | BinOp l _ r => S (Nat.max (height l) (height r))
  | Let _ e | Assign _ e | Print e => S (height e)
  | FuncDef _ _ _ => 1
  | FuncCall _ args => S (list_max (map height args))
  | If c t f =>
      S (Nat.max (height c)
           (Nat.max (list_max (map height t))
                    (match f with
                     | Some fb => list_max (map height fb)
                     | None => O
                     end)))
  | While c b => S (Nat.max (height c) (list_max (map height b)))
  end.

Definition m_set_superuser (env : addr) : M unit :=
  λ st, (with_heap st (<[env := set_superuser (st_heap st !!! env) true]> (st_heap st)),
         Ret tt).

Section Runner.
Context `{Host}.

(** The superuser commands, tried after the line was parsed and run. *)
Definition superuser_command (line_strip : string) (env : addr) : M unit :=
  λ st,
    if superuser (st_heap st !!! env) then
      if PyStr.startswith line_strip "reveal_vars" then
        m_print [PText "[SUPERUSER] Variables:"; PVars (vars (st_heap st !!! env))] st
      else if PyStr.startswith line_strip "set_var" then
        match PyStr.fields line_strip with
        | [_; var; val] =>
            match PyStr.int val with
            | Some n =>
                (m_set env var (VInt n) ;;
                 m_print [PText ("[SUPERUSER] " +:+ var +:+ " set to " +:+ val)]) st
            | None => (st, Raise ValueError)
            end
        | _ => (st, Raise ValueError)
        end
      else (st, Ret tt)
    else (st, Ret tt).

(** The body of the [for line in source.splitlines()] loop.  The nodes
    [parse_line] builds hold no loop and no call: the fuel given to their
    evaluation is enough (lemma [parsed_node_answers]). *)
Definition run_line (line : string) (env : addr) : M unit :=
  let line_strip := PyStr.strip line in
  if is_magic line then
    m_set_superuser env ;;
    m_print [PText "[SUPERUSER MODE ACTIVATED]"]
  else
    let* node := lift (parse_line line) in
    match node with
    | Some n => eval (S (height n)) n env ;; ret tt
    | None => ret tt
    end ;;
    superuser_command line_strip env.

Fixpoint run_lines (lines : list string) (env : addr) : M unit :=
  match lines with
  | [] => ret tt
  | line :: rest => run_line line env ;; run_lines rest env
  end.

(** [run(source, env)]; [None] is the default argument. *)
Definition run (source : string) (env : option addr) : M addr :=
  let* env := match env with
              | Some a => ret a
              | None => m_new_env None
              end in
  run_lines (PyStr.splitlines source) env ;;
  ret env.

End Runner.

(** ** The host of the examples *)

Definition scaled_ltb (n d e : Z) : bool :=
  if (0 <=? e)%Z then (n <? d * 2 ^ e)%Z else (n * 2 ^ (- e) <? d)%Z.

(** [a / b] on Python integers, [b] not zero: the double nearest to the
    quotient, ties to even, as its 64 bits; [None] when the quotient is
    too large for a double ([OverflowError]).  The quotient lies in
    [2^e, 2^(e+1)), the last place of the double is [2^u], and [m] is the
    quotient in units of [2^u], rounded. *)
Definition int_truediv (a b : Z) : option Z :=
  let n := Z.abs a in
  let d := Z.abs b in
  let e0 := (Z.log2 n - Z.log2 d)%Z in
  let e := if scaled_ltb n d e0 then (e0 - 1)%Z else e0 in
  let u := (Z.max e (-1022) - 52)%Z in
  let num := if (0 <=? u)%Z then n else (n * 2 ^ (- u))%Z in
  let den := if (0 <=? u)%Z then (d * 2 ^ u)%Z else d in
  let q := (num / den)%Z in
  let r := (num mod den)%Z in
  let m := if (den <? 2 * r)%Z || ((den =? 2 * r)%Z && Z.odd q)
           then (q + 1)%Z else q in
  let bits := if (n =? 0)%Z then 0%Z else ((u + 1074) * 2 ^ 52 + m)%Z in
  if (2047 * 2 ^ 52 <=? bits)%Z then None
  else Some (bits + (if xorb (a <? 0)%Z (b <? 0)%Z then 2 ^ 63 else 0))%Z.

(** The modules the example host can import: a few of the standard
    library, none of which prints or fails when it is imported. *)
Definition bare_modules : list string :=
  ["math"; "sys"; "os"; "string"; "json"; "random"; "time"; "re"].

(** The instance the examples are run with.  Of the operators left to the
    host it computes the true division of integers; it refuses every
    other operand pair with [TypeError], which is what Python answers for
    operands of unrelated kinds ([none + 1], a string minus a number),
    not what it answers for floats, for the repetition and the ordering
    of strings and lists, or for [==] across kinds: no example goes
    there.  It imports the modules of [bare_modules] and no other. *)
Definition bare_host : Host :=
  {| host_binop := λ op l r,
       match as_int l, as_int r with
       | Some a, Some b =>
           if String.eqb op "/" then
             if (b =? 0)%Z then inr ZeroDivisionError
             else match int_truediv a b with
                  | Some bits => inl (VFloat bits)
                  | None => inr (HostError "OverflowError")
                  end
           else inr TypeError
       | _, _ => inr TypeError
       end;
     host_import := λ name,
       if existsb (String.eqb name) bare_modules then inl (VModule name)
       else inr (ImportError name) |}.

(** ** Scope chains *)

(** Environments are created after their parent and [parent] is never
    assigned again, so a parent has a smaller address than its child. *)
Definition wf_heap (h : heap) : Prop :=
  ∀ a p, parent (h !!! a) = Some p → (p < a)%nat.

(** The scope chain of an environment: the environment, its parent, and
    so on up to the root, which has no parent. *)
Inductive scope_chain (h : heap) : addr → list addr → Prop :=
| chain_root a :
    parent (h !!! a) = None → scope_chain h a [a]
| chain_parent a p l :
    parent (h !!! a) = Some p → scope_chain h p l → scope_chain h a (a :: l).

(** The value the first scope of a chain that binds [name] gives it. *)
Fixpoint nearest_binding (h : heap) (chain : list addr) (name : string)
  : option value :=
  match chain with
  | [] => None
  | a :: rest =>
      match vars (h !!! a) !! name with
      | Some v => Some v
      | None => nearest_binding h rest name
      end
  end.

(** ** Vocabulary of the properties *)

(** [m2] gives every answer [m1] gives (fuel apart). *)
Definition m_le {A} (m1 m2 : M A) : Prop :=
  ∀ st st' r, m1 st = (st', r) → r ≠ OutOfFuel → m2 st = (st', r).

Definition ev_le (ev1 ev2 : Node → addr → M value) : Prop :=
  ∀ node env, m_le (ev1 node env) (ev2 node env).

(** What every evaluation keeps of the state it starts from: environments
    are never removed, the parent and the superuser flag of an existing
    environment never change, parents keep preceding their children, and
    printed lines are only added. *)
Record evolves (st st' : State) : Prop := mk_evolves {
  ev_length : (length (st_heap st) ≤ length (st_heap st'))%nat;
  ev_parent : ∀ a, (a < length (st_heap st))%nat →
      parent (st_heap st' !!! a) = parent (st_heap st !!! a);
  ev_superuser : ∀ a, (a < length (st_heap st))%nat →
      superuser (st_heap st' !!! a) = superuser (st_heap st !!! a);
  ev_wf : wf_heap (st_heap st) → wf_heap (st_heap st');
  ev_out : st_out st `prefix_of` st_out st'
}.

(** [env] is the address of a live environment. *)
Definition valid (env : addr) (st : State) : Prop :=
  (env < length (st_heap st))%nat.

(** A computation run in scope [env] keeps the state in the sense above. *)
Definition keeps {A} (env : addr) (m : M A) : Prop :=
  ∀ st, valid env st → evolves st (m st).1.


(** A line the runner takes for a superuser command. *)
Definition is_superuser_command (line : string) : bool :=
  PyStr.startswith (PyStr.strip line) "reveal_vars"
  || PyStr.startswith (PyStr.strip line) "set_var".

(** The variable and the integer a [set_var] line gives, when its text
    splits into three fields of which the last reads as an integer. *)
Definition set_var_arguments (line : string) : option (string * Z) :=
  match PyStr.fields (PyStr.strip line) with
  | [_; var; val] => (λ n, (var, n)) <$> PyStr.int val
  | _ => None
  end.

(** The text is the command word [set_var], a name and an integer, and
    nothing else. *)
Definition is_set_var_form (line : string) : bool :=
  match PyStr.fields (PyStr.strip line) with
  | [word; var; val] =>
      String.eqb word "set_var" && bool_decide (is_Some (PyStr.int val))
  | _ => false
  end.

(** A session: successive calls of [run] on one environment.  A call that
    raises leaves the environment to the next call, as the REPL does. *)
Fixpoint session `{Host} (sources : list string) (env : addr) (st : State) : State :=
  match sources with
  | [] => st
  | source :: rest => session rest env (run source (Some env) st).1
  end.


(** Nodes that only read: literals, variables, and operators, lists and
    dicts of such nodes. *)
Fixpoint effect_free (node : Node) : bool :=
  match node with
  | Number _ | String _ | Boolean _ | NoneNode | Var _ => true
  | Array elements => forallb effect_free elements
  | Dict items =>
      forallb (λ kv, match kv with
                     | (k, v) => effect_free k && effect_free v
                     end) items
  | BinOp l _ r => effect_free l && effect_free r
  | _ => false
  end.

(** A computation that leaves the state as it found it. *)
Definition m_pure {A} (m : M A) : Prop := ∀ st, (m st).1 = st.

(** [while_runs cond body env n st st']: from [st], the condition is
    evaluated and found true and the body run to its end [n] times in a
    row, then the condition is evaluated once more, found false, and leaves
    [st']. *)
Inductive while_runs `{Host} (cond : Node) (body : list Node) (env : addr)
  : nat → State → State → Prop :=
| while_stop st st' c k :
    eval k cond env st = (st', Ret c) →
    truthy c = false →
    while_runs cond body env 0 st st'
| while_turn n st st1 st2 st3 c r k :
    eval k cond env st = (st1, Ret c) →
    truthy c = true →
    exec_body (eval k) body env VNone st1 = (st2, Ret r) →
    while_runs cond body env n st2 st3 →
    while_runs cond body env (S n) st st3.

(** The loop of the example: [while counter < 3: counter = counter + 1]. *)
Definition counter_loop : Node :=
  While (BinOp (Var "counter") "<" (Number 3))
        [Assign "counter" (BinOp (Var "counter") "+" (Number 1))].

(** A state with one environment, binding [counter] to [n]. *)
Definition counter_state (n : Z) : State :=
  mkState [set_vars (Env_init None) {[ "counter" := VInt n ]}] [].


(** [put c e st]: the state [st] with the environment object at address
    [c] replaced by [e]. *)
Definition put (c : addr) (e : Env) (st : State) : State :=
  with_heap st (<[c := e]> (st_heap st)).

(** No environment has [c] as its parent. *)
Definition childless (c : addr) (st : State) : Prop :=
  ∀ a, parent (st_heap st !!! a) ≠ Some c.

(** A computation that neither reads nor writes the environment at [c]:
    it commutes with any replacement of that object. *)
Definition ignores {A} (c : addr) (m : M A) : Prop :=
  ∀ st, (c < length (st_heap st))%nat → childless c st →
    (length (st_heap st) ≤ length (st_heap (m st).1))%nat ∧
    childless c (m st).1 ∧
    ∀ e, m (put c e st) = (put c e (m st).1, (m st).2).

(** The variable mapping after declaring the pairs of [l] in turn. *)
Definition bindings (base : gmap string value) (l : list (string * value))
  : gmap string value :=
  foldl (λ m nv, <[nv.1 := nv.2]> m) base l.


(** ** States of the examples *)

(** A root scope binding [x] and a child of it binding [y]. *)
Definition two_scopes : list Env :=
  [ set_vars (Env_init None) {[ "x" := VInt 1 ]};
    set_vars (Env_init (Some 0%nat)) {[ "y" := VInt 2 ]} ].

(** One root scope binding [x] to [n], in or out of superuser mode. *)
Definition root_state (n : Z) (su : bool) : State :=
  mkState [mkEnv {[ "x" := VInt n ]} ∅ ∅ None su] [].

(** A root scope binding [g] and defining [f(a, b)] with the body
    [shout a; a + b]. *)
Definition adder_body : list Node :=
  [Print (Var "a"); BinOp (Var "a") "+" (Var "b")].

Definition adder_state : State :=
  mkState [mkEnv {[ "g" := VInt 0 ]} {[ "f" := (["a"; "b"], adder_body) ]} ∅ None false] [].

(** A root scope binding [g] and defining [f()] whose body assigns [g]
    and then reads a name nobody binds. *)
Definition failing_body : list Node :=
  [Assign "g" (Number 1); Var "nope"].

Definition failing_state (g : Z) : State :=
  mkState [mkEnv {[ "g" := VInt g ]} {[ "f" := ([], failing_body) ]} ∅ None false] [].

Definition LF : string := String.String (ascii_of_nat 10) EmptyString.

(** Two superuser commands, and no token. *)
Definition commands_source : string :=
  "reveal_vars" +:+ LF +:+ "set_var x 5".

(** Four lines, two of them superuser commands, and no token. *)
Definition ignored_commands_source : string :=
  "let x = 1" +:+ LF +:+ "reveal_vars" +:+ LF +:+ "set_var x 5" +:+ LF +:+ "shout x".


(** ** Vocabulary of the further properties *)

(** The first scope of a chain that binds [name] as a variable. *)
Fixpoint nearest_scope (h : list Env) (chain : list nat) (name : string)
  : option nat :=
  match chain with
  | [] => None
  | a :: rest =>
      match vars (h !!! a) !! name with
      | Some _ => Some a
      | None => nearest_scope h rest name
      end
  end.

(** The definition the first scope of a chain that defines the function
    [name] gives it. *)
Fixpoint nearest_function (h : list Env) (chain : list nat) (name : string)
  : option (list string * list Node) :=
  match chain with
  | [] => None
  | a :: rest =>
      match funcs (h !!! a) !! name with
      | Some f => Some f
      | None => nearest_function h rest name
      end
  end.

(** The class the first scope of a chain that defines [name] gives it. *)
Fixpoint nearest_class (h : list Env) (chain : list nat) (name : string)
  : option value :=
  match chain with
  | [] => None
  | a :: rest =>
      match classes (h !!! a) !! name with
      | Some c => Some c
      | None => nearest_class h rest name
      end
  end.

(** The store after [self.vars[name] = v] in the environment at [a]. *)
Definition write_var (h : list Env) (a : nat) (name : string) (v : value)
  : list Env :=
  <[a := set_vars (h !!! a) (<[name := v]> (vars (h !!! a)))]> h.


(** What no step of the interpreter undoes: a name bound as a variable or
    as a function in an environment stays bound there, and the classes of
    every environment stay what they are. *)
Definition nothing_lost (st st' : State) : Prop :=
  ∀ a,
    (∀ x, is_Some (vars (st_heap st !!! a) !! x) →
          is_Some (vars (st_heap st' !!! a) !! x)) ∧
    (∀ f, is_Some (funcs (st_heap st !!! a) !! f) →
          is_Some (funcs (st_heap st' !!! a) !! f)) ∧
    classes (st_heap st' !!! a) = classes (st_heap st !!! a).


(** The nodes that are statements: their [eval] has no [return]. *)
Definition is_statement (node : Node) : bool :=
  match node with
  | Let _ _ | Assign _ _ | Print _ | FuncDef _ _ _ | If _ _ _ | While _ _ => true
  | _ => false
  end.

(** The Python value a literal node stands for: numbers, strings,
    booleans, [none], and lists of literals. *)
Fixpoint literal_value (node : Node) : option value :=
  match node with
  | Number n => Some (VInt n)
  | String s => Some (VStr s)
  | Boolean b => Some (VBool b)
  | NoneNode => Some VNone
  | Array elements =>
      VList <$>
        (fix go (l : list Node) : option (list value) :=
           match l with
           | [] => Some []
           | x :: l' =>
               match literal_value x, go l' with
               | Some v, Some vs => Some (v :: vs)
               | _, _ => None
               end
           end) elements
  | _ => None
  end.

(** The operators [BinOp.eval] tests for. *)
Definition known_operators : list string :=
  ["+"; "-"; "*"; "/"; "%"; "=="; "!="; ">"; "<"; ">="; "<="; "&&"; "||"].


(** The nodes [parse_expr] can build: literals, variables, and lists of
    such nodes. *)
Fixpoint is_parsed_expr (node : Node) : bool :=
  match node with
  | Number _ | String _ | Boolean _ | NoneNode | Var _ => true
  | Array elements => forallb is_parsed_expr elements
  | _ => false
  end.


(** ** The interactive loop (the [__main__] block) *)

(** [str.lower] on one character: upper-case ASCII and Latin-1 letters
    move up by 32. *)
Definition lower_char (c : ascii) : ascii :=
  let n := nat_of_ascii c in
  if ((65 <=? n)%nat && (n <=? 90)%nat)%bool then ascii_of_nat (n + 32)
  else if ((192 <=? n)%nat && (n <=? 222)%nat && negb (n =? 215)%nat)%bool
       then ascii_of_nat (n + 32)
  else c.

(** [s.lower()] *)
Definition py_lower (s : string) : string :=
  PyStr.str (map lower_char (PyStr.chars s)).

(** [code.strip().lower() == 'exit'] *)
Definition is_exit (code : string) : bool :=
  String.eqb (py_lower (PyStr.strip code)) "exit".

(** [input('>> ')] writes its prompt to the standard output; it is kept
    as an entry of the output, though no line break follows it. *)
Definition m_prompt : M unit := m_print [PText ">> "].

Section Repl.
Context `{Host}.
(** The host's [str] of an exception, what [print('Error:', e)] shows. *)
Variable exn_text : exn → string.

Definition print_error (e : exn) : M unit :=
  m_print [PText "Error:"; PText (exn_text e)].

(** The [while True] loop over the lines the user types.  [inputs] is
    what the standard input still holds; at its end [input] raises
    [EOFError], which the handler catches like any other exception.
    [turns] bounds the number of turns of the loop. *)
Fixpoint repl_loop (turns : nat) (inputs : list string) (env : nat) : M unit :=
  match turns with
  | O => out_of_fuel
  | S k =>
      m_prompt ;;
      match inputs with
      | [] =>
          print_error (HostError "EOFError") ;;
          repl_loop k [] env
      | code :: rest =>
          if is_exit code then ret tt
          else
            λ st, match run code (Some env) st with
                  | (st', Ret env') => repl_loop k rest env' st'
                  | (st', Raise e) => (print_error e ;; repl_loop k rest env) st'
                  | (st', OutOfFuel) => (st', OutOfFuel)
                  end
      end
  end.

(** The [__main__] block. *)
Definition repl (turns : nat) (inputs : list string) : M unit :=
  let* env := m_new_env None in
  m_print [PText "Aerith REPL version 1.0. Type exit to quit."] ;;
  repl_loop turns inputs env.

End Repl.


(** ** States of the further examples *)

(** The root scope of [adder_state] and an empty child of it. *)
Definition adder_scopes : list Env :=
  st_heap adder_state ++ [Env_init (Some 0%nat)].

(** The child of [two_scopes] after it has defined [f]. *)
Definition scopes_with_f : list Env :=
  Env_define_func two_scopes 1%nat "f" ["a"] [Var "a"].

(** The root scope of [root_state] after [let y = x + 1]. *)
Definition root_with_y : State :=
  mkState [mkEnv {[ "x" := VInt 1; "y" := VInt 2 ]} ∅ ∅ None false] [].

(** The texts of the exceptions the examples meet. *)
Definition bare_exn_text (e : exn) : string :=
  match e with
  | NameError msg | Exception msg => msg
  | ImportError name => "No module named '" +:+ name +:+ "'"
  | HostError "EOFError" => "EOF when reading a line"
  | _ => "error"
  end.

(** * Properties *)

(** ** Environments *)

Lemma lookup_total_dangling (h : heap) (a : addr) :
  (length h ≤ a)%nat → h !!! a = Env_init None.
Proof.
  intros Hge. rewrite list_lookup_total_alt.
  by rewrite (lookup_ge_None_2 h a Hge).
Qed.

Lemma wf_heap_valid (h : heap) (a p : addr) :
  wf_heap h → parent (h !!! a) = Some p → (p < a < length h)%nat.
Proof.
  intros Hwf Hp. split; [by apply Hwf|].
  destruct (decide (a < length h)%nat) as [|Hge]; [done|].
  rewrite lookup_total_dangling in Hp by lia. discriminate.
Qed.

Lemma scope_chain_functional (h : heap) (a : addr) (l1 l2 : list addr) :
  scope_chain h a l1 → scope_chain h a l2 → l1 = l2.
Proof.
  intros H1. revert l2.
  induction H1 as [a Ha|a p l Ha H1 IH]; intros l2 H2; inversion H2; subst;
    try congruence.
  f_equal. apply IH. congruence.
Qed.

Lemma scope_chain_exists (h : heap) :
  wf_heap h → ∀ a, ∃ l, scope_chain h a l.
Proof.
  intros Hwf a. induction (lt_wf a) as [a _ IH].
  destruct (parent (h !!! a)) as [p|] eqn:Hp.
  - destruct (IH p (Hwf _ _ Hp)) as [l Hl]. exists (a :: l).
    by eapply chain_parent.
  - exists [a]. by constructor.
Qed.

Lemma nearest_binding_None (h : heap) (chain : list addr) (name : string) :
  nearest_binding h chain name = None ↔
  ∀ a, a ∈ chain → vars (h !!! a) !! name = None.
Proof.
  induction chain as [|a rest IH]; simpl.
  - split; [intros _ a Ha; by apply elem_of_nil in Ha | done].
  - destruct (vars (h !!! a) !! name) as [v|] eqn:Hv.
    + split; [done|]. intros Hall.
      specialize (Hall a (list_elem_of_here _ _)). congruence.
    + rewrite IH. split.
      * intros Hall b Hb. apply elem_of_cons in Hb as [->|Hb]; auto.
      * intros Hall b Hb. apply Hall. by apply list_elem_of_further.
Qed.

(** With enough depth for the address it starts from, [get_from] follows
    the scope chain. *)
Lemma get_from_chain (h : heap) (name : string) :
  wf_heap h →
  ∀ depth self chain, (self < depth)%nat → scope_chain h self chain →
    get_from depth h self name =
      match nearest_binding h chain name with
      | Some v => inl v
      | None => inr (not_defined "Variable" name)
      end.
Proof.
  intros Hwf depth. induction depth as [|d IH]; intros self chain Hlt Hc; [lia|].
  simpl. inversion Hc as [a Ha|a p l Ha Hl]; subst; simpl;
    destruct (vars (h !!! self) !! name) as [v|]; try done; rewrite Ha; [done|].
  apply IH; [|done]. specialize (Hwf _ _ Ha). lia.
Qed.

Lemma Env_get_chain (h : heap) (self : addr) (chain : list addr) (name : string) :
  wf_heap h → (self < length h)%nat → scope_chain h self chain →
  Env_get h self name =
    match nearest_binding h chain name with
    | Some v => inl v
    | None => inr (not_defined "Variable" name)
    end.
Proof. intros. by apply get_from_chain. Qed.

(** C1. In a chain of environments, [get(name)] returns the value bound
    in the nearest scope that binds the name (the local scope first, then
    each parent in turn), and raises the "not defined" [NameError] exactly
    when no scope of the chain, the root included, binds it. *)
Theorem Env_get_nearest_scope (h : heap) (self : addr) (name : string) :
  wf_heap h → (self < length h)%nat →
  ∃ chain,
    scope_chain h self chain ∧
    (∀ v, Env_get h self name = inl v ↔ nearest_binding h chain name = Some v) ∧
    (∀ e, Env_get h self name = inr e ↔
          e = not_defined "Variable" name ∧
          ∀ a, a ∈ chain → vars (h !!! a) !! name = None).
Proof.
  intros Hwf Hlt. destruct (scope_chain_exists h Hwf self) as [chain Hc].
  exists chain. split; [done|].
  rewrite (Env_get_chain h self chain name Hwf Hlt Hc).
  pose proof (nearest_binding_None h chain name) as HN.
  destruct (nearest_binding h chain name) as [v|]; split.
  - intros w. split; congruence.
  - intros e. split; [done|]. intros [_ Hall]. apply HN in Hall. done.
  - intros w. split; done.
  - intros e. split.
    + intros [= <-]. split; [done|]. by apply HN.
    + by intros [-> _].
Qed.

(** Looking a name up from [self] reads only [self] and its ancestors,
    which all have addresses up to [self]. *)
Lemma get_from_below (h h' : heap) (c : addr) (name : string) :
  wf_heap h → (∀ a, (a < c)%nat → h' !!! a = h !!! a) →
  ∀ depth self, (self < c)%nat →
    get_from depth h' self name = get_from depth h self name.
Proof.
  intros Hwf Hsame depth. induction depth as [|d IH]; intros self Hlt; [done|].
  simpl. rewrite (Hsame self Hlt).
  destruct (vars (h !!! self) !! name); [done|].
  destruct (parent (h !!! self)) as [p|] eqn:Hp; [|done].
  apply IH. specialize (Hwf _ _ Hp). lia.
Qed.

Lemma Env_declare_length (h : heap) (self : addr) (name : string) (v : value) :
  length (Env_declare h self name v) = length h.
Proof. unfold Env_declare. by rewrite length_insert. Qed.

Lemma Env_declare_other (h : heap) (self a : addr) (name : string) (v : value) :
  a ≠ self → Env_declare h self name v !!! a = h !!! a.
Proof. intros Hne. unfold Env_declare. by rewrite list_lookup_total_insert_ne. Qed.

Lemma Env_declare_self (h : heap) (self : addr) (name : string) (v : value) :
  (self < length h)%nat →
  Env_declare h self name v !!! self =
    set_vars (h !!! self) (<[name := v]> (vars (h !!! self))).
Proof. intros Hlt. unfold Env_declare. by rewrite list_lookup_total_insert_eq. Qed.

(** C6. When a parent environment binds [x], [declare(x, v)] on a child
    writes the child's own variable mapping only: reading [x] in the child
    then gives [v], the parent object is unchanged (its binding of [x] and
    every other binding), and so is every environment but the child. *)
Theorem declare_writes_local_scope_only
  (h : heap) (child p : addr) (x : string) (v w : value) :
  wf_heap h →
  parent (h !!! child) = Some p →
  vars (h !!! p) !! x = Some w →
  Env_get (Env_declare h child x v) child x = inl v ∧
  vars (Env_declare h child x v !!! child) = <[x := v]> (vars (h !!! child)) ∧
  Env_declare h child x v !!! p = h !!! p ∧
  Env_get (Env_declare h child x v) p x = inl w ∧
  (∀ y, Env_get (Env_declare h child x v) p y = Env_get h p y) ∧
  (∀ a, a ≠ child → Env_declare h child x v !!! a = h !!! a).
Proof.
  intros Hwf Hp Hw.
  destruct (wf_heap_valid h child p Hwf Hp) as [Hlt Hvalid].
  assert (Hframe : ∀ y, Env_get (Env_declare h child x v) p y = Env_get h p y).
  { intros y. unfold Env_get. rewrite Env_declare_length.
    apply (get_from_below h _ child); [done| |done].
    intros a Ha. apply Env_declare_other. lia. }
  repeat split.
  - unfold Env_get. rewrite Env_declare_length.
    destruct (length h) as [|n] eqn:Hn; [lia|]. simpl.
    rewrite Env_declare_self by lia. simpl. by rewrite lookup_insert_eq.
  - by rewrite Env_declare_self.
  - apply Env_declare_other. lia.
  - rewrite Hframe. unfold Env_get.
    destruct (length h) as [|n] eqn:Hn; [lia|]. simpl. by rewrite Hw.
  - done.
  - intros a Ha. by apply Env_declare_other.
Qed.

(** ** Fuel

    More fuel never changes an answer: a computation that ends with a
    value or an exception within some fuel ends the same way, in the same
    state, with any larger fuel. *)

Lemma m_le_refl {A} (m : M A) : m_le m m.
Proof. by intros st st' r. Qed.

Lemma m_le_trans {A} (m1 m2 m3 : M A) : m_le m1 m2 → m_le m2 m3 → m_le m1 m3.
Proof. intros H12 H23 st st' r Hm Hr. apply H23; [|done]. by apply H12. Qed.

Lemma m_le_out_of_fuel {A} (m : M A) : m_le out_of_fuel m.
Proof. intros st st' r [= <- <-] Hr. done. Qed.

Lemma m_le_bind {A B} (m1 m2 : M A) (k1 k2 : A → M B) :
  m_le m1 m2 → (∀ a, m_le (k1 a) (k2 a)) → m_le (bind m1 k1) (bind m2 k2).
Proof.
  intros Hm Hk st st' r. unfold bind.
  destruct (m1 st) as [st1 [a|e|]] eqn:E1; intros Hr Hne.
  - rewrite (Hm _ _ _ E1) by done. by apply Hk.
  - rewrite (Hm _ _ _ E1) by done. done.
  - injection Hr as <- <-. done.
Qed.

Ltac m_le_step :=
  first
    [ apply m_le_refl
    | apply m_le_bind; [|intros ?]
    | match goal with
      | |- m_le (if ?b then _ else _) _ => destruct b
      | |- m_le (match ?x with _ => _ end) _ => destruct x
      end ].

Section Fuel.
Context `{Host}.

Section Loops.
Variables ev1 ev2 : Node → addr → M value.
Hypothesis Hev : ev_le ev1 ev2.

Lemma eval_elements_le elements env :
  m_le (eval_elements ev1 elements env) (eval_elements ev2 elements env).
Proof.
  induction elements as [|el rest IH]; simpl; [apply m_le_refl|].
  apply m_le_bind; [apply Hev|]. intros v.
  apply m_le_bind; [apply IH|]. intros vs. apply m_le_refl.
Qed.

Lemma eval_items_le items env d :
  m_le (eval_items ev1 items env d) (eval_items ev2 items env d).
Proof.
  revert d. induction items as [|[k v] rest IH]; intros d; simpl;
    [apply m_le_refl|].
  apply m_le_bind; [apply Hev|]. intros kv.
  apply m_le_bind; [apply Hev|]. intros vv.
  apply m_le_bind; [apply m_le_refl|]. intros d'. apply IH.
Qed.

Lemma exec_body_le body env r :
  m_le (exec_body ev1 body env r) (exec_body ev2 body env r).
Proof.
  revert r. induction body as [|stmt rest IH]; intros r; simpl;
    [apply m_le_refl|].
  apply m_le_bind; [apply Hev|]. intros v. apply IH.
Qed.

Lemma bind_args_le pairs local_env env :
  m_le (bind_args ev1 pairs local_env env) (bind_args ev2 pairs local_env env).
Proof.
  induction pairs as [|[n a] rest IH]; simpl; [apply m_le_refl|].
  apply m_le_bind; [apply Hev|]. intros v.
  apply m_le_bind; [apply m_le_refl|]. intros _. apply IH.
Qed.

Lemma eval_node_le : ev_le (eval_node ev1) (eval_node ev2).
Proof.
  intros node env. destruct node; simpl;
    try (repeat m_le_step;
         auto using eval_elements_le, eval_items_le, exec_body_le,
           bind_args_le; fail).
  (* FuncCall *)
  intros st st' r. simpl.
  destruct (Env_get_func (st_heap st) env name) as [[func_args func_body]|e];
    [|done].
  apply m_le_bind; [apply m_le_refl|]. intros local_env.
  apply m_le_bind; [apply bind_args_le|]. intros _. apply exec_body_le.
Qed.
End Loops.

Lemma eval_le_S (k : nat) : ev_le (eval k) (eval (S k)).
Proof.
  induction k as [|k IH].
  - intros node env. apply m_le_out_of_fuel.
  - change (ev_le (eval_node (eval k)) (eval_node (eval (S k)))).
    by apply eval_node_le.
Qed.

Lemma eval_le (k k' : nat) : (k ≤ k')%nat → ev_le (eval k) (eval k').
Proof.
  induction 1 as [|k' _ IH]; [intros node env; apply m_le_refl|].
  intros node env. eapply m_le_trans; [apply IH|apply eval_le_S].
Qed.

(** Any answer other than [OutOfFuel] is kept when fuel is added. *)
Lemma eval_fuel_mono k k' node env st st' r :
  eval k node env st = (st', r) → r ≠ OutOfFuel → (k ≤ k')%nat →
  eval k' node env st = (st', r).
Proof. intros Hk Hr Hle. by apply (eval_le k k' Hle). Qed.

(** Two answers for the same computation, each within its own fuel,
    are the same. *)
Lemma eval_deterministic k1 k2 node env st st1 r1 st2 r2 :
  eval k1 node env st = (st1, r1) → r1 ≠ OutOfFuel →
  eval k2 node env st = (st2, r2) → r2 ≠ OutOfFuel →
  st1 = st2 ∧ r1 = r2.
Proof.
  intros H1 Hr1 H2 Hr2.
  pose proof (eval_fuel_mono _ (Nat.max k1 k2) _ _ _ _ _ H1 Hr1 (Nat.le_max_l _ _)) as E1.
  pose proof (eval_fuel_mono _ (Nat.max k1 k2) _ _ _ _ _ H2 Hr2 (Nat.le_max_r _ _)) as E2.
  rewrite E1 in E2. by injection E2.
Qed.

End Fuel.

(** ** What evaluation keeps of the state *)

Lemma evolves_refl (st : State) : evolves st st.
Proof. by split. Qed.

Lemma evolves_trans (st1 st2 st3 : State) :
  evolves st1 st2 → evolves st2 st3 → evolves st1 st3.
Proof.
  intros [L1 P1 S1 W1 O1] [L2 P2 S2 W2 O2]. split.
  - lia.
  - intros a Ha. rewrite P2 by lia. by apply P1.
  - intros a Ha. rewrite S2 by lia. by apply S1.
  - auto.
  - by etrans.
Qed.

(** Replacing an environment by one with the same parent and flag. *)
Lemma evolves_update (st : State) (a : addr) (e : Env) :
  parent e = parent (st_heap st !!! a) →
  superuser e = superuser (st_heap st !!! a) →
  evolves st (with_heap st (<[a := e]> (st_heap st))).
Proof.
  intros Hp Hs.
  assert (Hpar : ∀ b, parent (<[a := e]> (st_heap st) !!! b) = parent (st_heap st !!! b)).
  { intros b. destruct (decide (a = b)) as [<-|Hne].
    - destruct (decide (a < length (st_heap st))%nat).
      + by rewrite list_lookup_total_insert_eq.
      + by rewrite list_insert_ge by lia.
    - by rewrite list_lookup_total_insert_ne. }
  split; simpl.
  - by rewrite length_insert.
  - intros b _. apply Hpar.
  - intros b _. destruct (decide (a = b)) as [<-|Hne].
    + destruct (decide (a < length (st_heap st))%nat).
      * by rewrite list_lookup_total_insert_eq.
      * by rewrite list_insert_ge by lia.
    + by rewrite list_lookup_total_insert_ne.
  - intros Hwf b p. rewrite Hpar. apply Hwf.
  - done.
Qed.

Lemma set_from_updates (depth : nat) (h h' : heap) (self : addr) (name : string) (v : value) :
  set_from depth h self name v = inl h' →
  ∃ a, vars (h !!! a) !! name ≠ None ∧
       h' = <[a := set_vars (h !!! a) (<[name := v]> (vars (h !!! a)))]> h.
Proof.
  revert self. induction depth as [|d IH]; intros self; simpl; [done|].
  destruct (vars (h !!! self) !! name) eqn:Hv.
  - intros [= <-]. exists self. split; [congruence|done].
  - destruct (parent (h !!! self)); [apply IH|done].
Qed.

Lemma set_from_error (depth : nat) (h : heap) (self : addr) (name : string)
  (v : value) (e : exn) :
  set_from depth h self name v = inr e →
  e = RecursionError ∨ e = not_defined "Variable" name.
Proof.
  revert self. induction depth as [|d IH]; intros self; simpl.
  - intros [= <-]. by left.
  - destruct (vars (h !!! self) !! name); [done|].
    destruct (parent (h !!! self)); [apply IH|].
    intros [= <-]. by right.
Qed.

Lemma keeps_ret {A} env (a : A) : keeps env (ret a).
Proof. intros st _. apply evolves_refl. Qed.

Lemma keeps_raise {A} env (e : exn) : keeps env (@raise A e).
Proof. intros st _. apply evolves_refl. Qed.

Lemma keeps_out_of_fuel {A} env : keeps env (@out_of_fuel A).
Proof. intros st _. apply evolves_refl. Qed.

Lemma keeps_lift {A} env (r : A + exn) : keeps env (lift r).
Proof. destruct r; [apply keeps_ret|apply keeps_raise]. Qed.

Lemma keeps_bind {A B} env (m : M A) (k : A → M B) :
  keeps env m → (∀ a, keeps env (k a)) → keeps env (bind m k).
Proof.
  intros Hm Hk st Hv. specialize (Hm st Hv). unfold bind.
  destruct (m st) as [st1 [a|e|]]; simpl in *; [|done..].
  eapply evolves_trans; [done|]. apply Hk.
  unfold valid in *. destruct Hm. lia.
Qed.

Lemma keeps_get env env' name : keeps env (m_get env' name).
Proof. intros st _. unfold m_get. destruct (Env_get _ _ _); apply evolves_refl. Qed.

Lemma keeps_declare env env' name v : keeps env (m_declare env' name v).
Proof. intros st _. by apply evolves_update. Qed.

Lemma keeps_define_func env env' name args body :
  keeps env (m_define_func env' name args body).
Proof. intros st _. by apply evolves_update. Qed.

Lemma keeps_set env env' name v : keeps env (m_set env' name v).
Proof.
  intros st _. unfold m_set, Env_set.
  destruct (set_from _ _ _ _ _) as [h'|e] eqn:Hset; simpl; [|apply evolves_refl].
  apply set_from_updates in Hset as (a & _ & ->). by apply evolves_update.
Qed.

Lemma keeps_print env items : keeps env (m_print items).
Proof.
  intros st _. split; simpl; try done. by apply prefix_app_r.
Qed.

Lemma evolves_new_env (st : State) (env : addr) :
  valid env st →
  evolves st (with_heap st (st_heap st ++ [Env_init (Some env)])).
Proof.
  intros Hv. split; simpl.
  - rewrite length_app. lia.
  - intros a Ha. by rewrite lookup_total_app_l.
  - intros a Ha. by rewrite lookup_total_app_l.
  - intros Hwf a p Hp.
    destruct (decide (a < length (st_heap st))%nat) as [Hlt|Hge].
    + rewrite lookup_total_app_l in Hp by done. by apply Hwf.
    + destruct (decide (a = length (st_heap st))) as [->|Hne].
      * rewrite lookup_total_app_r in Hp by done.
        rewrite Nat.sub_diag in Hp. simpl in Hp. injection Hp as <-. exact Hv.
      * rewrite lookup_total_dangling in Hp; [done|].
        rewrite length_app. simpl. lia.
  - done.
Qed.

Lemma keeps_new_env env : keeps env (m_new_env (Some env)).
Proof. intros st Hv. by apply evolves_new_env. Qed.

Lemma valid_evolves env st st' : valid env st → evolves st st' → valid env st'.
Proof. unfold valid. intros Hv [L _ _ _ _]. lia. Qed.

Ltac keeps_step :=
  first
    [ apply keeps_ret | apply keeps_raise | apply keeps_lift
    | apply keeps_get | apply keeps_declare | apply keeps_set
    | apply keeps_define_func | apply keeps_print
    | apply keeps_bind; [|intros ?]
    | match goal with
      | |- keeps _ (if ?b then _ else _) => destruct b
      end ].

Section Keeps.
Context `{Host}.

Section Loops.
Variable ev : Node → addr → M value.
Hypothesis Hev : ∀ node env, keeps env (ev node env).

Lemma keeps_eval_elements elements env : keeps env (eval_elements ev elements env).
Proof.
  induction elements as [|el rest IH]; simpl; repeat keeps_step; auto.
Qed.

Lemma keeps_eval_items items env d : keeps env (eval_items ev items env d).
Proof.
  revert d. induction items as [|[k v] rest IH]; intros d; simpl;
    repeat keeps_step; auto.
Qed.

Lemma keeps_exec_body body env r : keeps env (exec_body ev body env r).
Proof.
  revert r. induction body as [|stmt rest IH]; intros r; simpl;
    repeat keeps_step; auto.
Qed.

Lemma keeps_bind_args pairs local_env env :
  keeps env (bind_args ev pairs local_env env).
Proof.
  induction pairs as [|[n a] rest IH]; simpl; repeat keeps_step; auto.
Qed.

Lemma keeps_eval_node node env : keeps env (eval_node ev node env).
Proof.
  destruct node; simpl;
    try (repeat keeps_step;
         auto using keeps_eval_elements, keeps_eval_items, keeps_exec_body; fail).
  (* FuncCall *)
  intros st Hv. simpl.
  destruct (Env_get_func (st_heap st) env name) as [[func_args func_body]|e].
  - unfold bind at 1. simpl.
    pose proof (evolves_new_env st env Hv) as Hnew.
    set (st1 := with_heap st (st_heap st ++ [Env_init (Some env)])) in *.
    set (c := length (st_heap st)).
    assert (Hc : valid c st1).
    { unfold valid, st1, c. simpl. rewrite length_app. simpl. lia. }
    pose proof (keeps_bind_args (zip func_args args) c env st1
                  (valid_evolves _ _ _ Hv Hnew)) as Hargs.
    unfold bind.
    destruct (bind_args ev (zip func_args args) c env st1) as [st2 [[]|e|]];
      simpl in *; try (eapply evolves_trans; done).
    pose proof (keeps_exec_body func_body c VNone st2
                  (valid_evolves _ _ _ Hc Hargs)) as Hbody.
    eapply evolves_trans; [exact Hnew|]. eapply evolves_trans; done.
  - destruct e; try apply evolves_refl. by apply (keeps_lift env).
Qed.
End Loops.

(** Evaluation keeps the state, whatever the fuel and however it ends. *)
Lemma keeps_eval fuel : ∀ node env, keeps env (eval fuel node env).
Proof.
  induction fuel as [|k IH]; intros node env; simpl.
  - apply keeps_out_of_fuel.
  - by apply keeps_eval_node.
Qed.

Lemma eval_evolves fuel node env st :
  valid env st → evolves st (eval fuel node env st).1.
Proof. apply keeps_eval. Qed.

End Keeps.

(** ** The runner *)

Lemma startswith_cons (s p : string) (c : ascii) :
  PyStr.startswith s (String.String c p) = true →
  ∃ s', s = String.String c s' ∧ PyStr.startswith s' p = true.
Proof.
  unfold PyStr.startswith. destruct s as [|c' s']; simpl; [done|].
  destruct (ascii_dec c c') as [<-|]; [|done]. eauto.
Qed.

Ltac startswith_inv H :=
  repeat (apply startswith_cons in H as (? & -> & H)).

(** A superuser command is neither the magic token nor a statement. *)
Lemma superuser_command_not_magic (line : string) :
  is_superuser_command line = true → is_magic line = false.
Proof.
  unfold is_superuser_command, is_magic. intros Hc.
  apply orb_true_iff in Hc as [Hc|Hc]; startswith_inv Hc; reflexivity.
Qed.

Lemma superuser_command_not_parsed (line : string) :
  is_superuser_command line = true → parse_line line = inl None.
Proof.
  unfold is_superuser_command, parse_line. intros Hc.
  apply orb_true_iff in Hc as [Hc|Hc]; startswith_inv Hc; reflexivity.
Qed.

Section RunnerFacts.
Context `{Host}.

Lemma keeps_superuser_command line_strip env :
  keeps env (superuser_command line_strip env).
Proof.
  intros st Hv. unfold superuser_command.
  destruct (superuser (st_heap st !!! env)); [|apply evolves_refl].
  destruct (PyStr.startswith line_strip "reveal_vars");
    [by apply (keeps_print env)|].
  destruct (PyStr.startswith line_strip "set_var"); [|apply evolves_refl].
  destruct (PyStr.fields line_strip) as [|w [|var [|val [|]]]];
    try apply evolves_refl.
  destruct (PyStr.int val) as [n|]; [|apply evolves_refl].
  revert st Hv. change (keeps env (m_set env var (VInt n) ;;
    m_print [PText ("[SUPERUSER] " +:+ var +:+ " set to " +:+ val)])).
  repeat keeps_step.
Qed.

(** A line other than the magic token leaves every superuser flag as
    it is. *)
Lemma keeps_run_line line env :
  is_magic line = false → keeps env (run_line line env).
Proof.
  intros Hm. unfold run_line. rewrite Hm.
  apply keeps_bind; [apply keeps_lift|]. intros node.
  apply keeps_bind; [|intros; apply keeps_superuser_command].
  destruct node as [n|]; [|apply keeps_ret].
  apply keeps_bind; [apply keeps_eval | intros; apply keeps_ret].
Qed.

Lemma run_line_magic line env st :
  is_magic line = true →
  run_line line env st =
    (mkState (<[env := set_superuser (st_heap st !!! env) true]> (st_heap st))
             (st_out st ++ [[PText "[SUPERUSER MODE ACTIVATED]"]]),
     Ret tt).
Proof. intros Hm. unfold run_line. by rewrite Hm. Qed.

(** Superuser mode of a live environment survives any line. *)
Lemma run_line_superuser_stays line env st :
  valid env st → superuser (st_heap st !!! env) = true →
  valid env (run_line line env st).1 ∧
  superuser (st_heap (run_line line env st).1 !!! env) = true.
Proof.
  intros Hv Hs. destruct (is_magic line) eqn:Hm.
  - rewrite run_line_magic by done. unfold valid in *. simpl.
    rewrite length_insert. split; [done|].
    by rewrite list_lookup_total_insert_eq.
  - pose proof (keeps_run_line line env Hm st Hv) as He.
    split; [by eapply valid_evolves|].
    by rewrite (ev_superuser _ _ He env Hv).
Qed.

Lemma run_lines_superuser_stays lines env st :
  valid env st → superuser (st_heap st !!! env) = true →
  valid env (run_lines lines env st).1 ∧
  superuser (st_heap (run_lines lines env st).1 !!! env) = true.
Proof.
  revert st. induction lines as [|line rest IH]; intros st Hv Hs; [done|].
  simpl. unfold bind.
  destruct (run_line_superuser_stays line env st Hv Hs) as [Hv1 Hs1].
  destruct (run_line line env st) as [st1 [[]|e|]]; simpl in *; auto.
Qed.

Lemma run_superuser_stays source env st :
  valid env st → superuser (st_heap st !!! env) = true →
  valid env (run source (Some env) st).1 ∧
  superuser (st_heap (run source (Some env) st).1 !!! env) = true.
Proof.
  intros Hv Hs. unfold run, bind. simpl.
  destruct (run_lines_superuser_stays (PyStr.splitlines source) env st Hv Hs)
    as [Hv1 Hs1].
  by destruct (run_lines (PyStr.splitlines source) env st) as [st1 [[]|e|]].
Qed.

Lemma session_superuser_stays sources env st :
  valid env st → superuser (st_heap st !!! env) = true →
  valid env (session sources env st) ∧
  superuser (st_heap (session sources env st) !!! env) = true.
Proof.
  revert st. induction sources as [|source rest IH]; intros st Hv Hs; [done|].
  simpl. destruct (run_superuser_stays source env st Hv Hs). by apply IH.
Qed.

(** C7. Once a line that is the magic token (stripped, whatever its
    case) has been processed, the superuser flag of the environment is
    set; it is still set after every further line of that run, however
    the run ends, and after every later run of the session on that
    environment.  Nothing resets it: evaluating a node, in any scope and
    however it ends, leaves the flag of every environment as it was. *)
Theorem superuser_mode_persists
  (line : string) (rest sources : list string) (env : addr) (st : State) :
  valid env st →
  is_magic line = true →
  superuser (st_heap (run_line line env st).1 !!! env) = true ∧
  superuser (st_heap (run_lines (line :: rest) env st).1 !!! env) = true ∧
  superuser
    (st_heap (session sources env (run_lines (line :: rest) env st).1) !!! env)
    = true ∧
  (∀ fuel node scope a st',
     valid scope st' → valid a st' →
     superuser (st_heap (eval fuel node scope st').1 !!! a) =
       superuser (st_heap st' !!! a)).
Proof.
  intros Hv Hm.
  assert (Hline : valid env (run_line line env st).1 ∧
                  superuser (st_heap (run_line line env st).1 !!! env) = true).
  { rewrite run_line_magic by done. unfold valid in *. simpl.
    rewrite length_insert. split; [done|].
    by rewrite list_lookup_total_insert_eq. }
  destruct Hline as [Hv1 Hs1].
  assert (Hrest : valid env (run_lines (line :: rest) env st).1 ∧
            superuser (st_heap (run_lines (line :: rest) env st).1 !!! env) = true).
  { simpl. unfold bind. rewrite run_line_magic in * by done. simpl in *.
    by apply run_lines_superuser_stays. }
  destruct Hrest as [Hv2 Hs2].
  split; [done|]. split; [done|]. split; [by apply session_superuser_stays|].
  intros fuel node scope a st' Hscope Ha.
  by apply (ev_superuser _ _ (eval_evolves fuel node scope st' Hscope)).
Qed.

(** Without superuser mode a superuser command does nothing at all. *)
Lemma run_line_command_ignored line env st :
  is_superuser_command line = true →
  superuser (st_heap st !!! env) = false →
  run_line line env st = (st, Ret tt).
Proof.
  intros Hc Hs. unfold run_line.
  rewrite (superuser_command_not_magic line Hc).
  rewrite (superuser_command_not_parsed line Hc).
  simpl. unfold bind, superuser_command. simpl. by rewrite Hs.
Qed.

Lemma run_lines_commands_ignored lines env st :
  valid env st → superuser (st_heap st !!! env) = false →
  (∀ line, line ∈ lines → is_magic line = false) →
  run_lines lines env st =
    run_lines (filter (λ l, is_superuser_command l = false) lines) env st.
Proof.
  revert st. induction lines as [|line rest IH]; intros st Hv Hs Hm; [done|].
  assert (Hrest : ∀ l, l ∈ rest → is_magic l = false).
  { intros l Hl. apply Hm. by apply list_elem_of_further. }
  destruct (is_superuser_command line) eqn:Hc.
  - rewrite filter_cons_False by (rewrite Hc; done).
    simpl. unfold bind. rewrite run_line_command_ignored by done. by apply IH.
  - rewrite filter_cons_True by done. simpl. unfold bind.
    pose proof (keeps_run_line line env (Hm line (list_elem_of_here _ _)) st Hv)
      as He.
    destruct (run_line line env st) as [st1 [[]|e|]]; simpl in *; try done.
    apply IH; [by eapply valid_evolves| |done].
    by rewrite (ev_superuser _ _ He env Hv).
Qed.

Lemma keeps_run_lines lines env :
  (∀ line, line ∈ lines → is_magic line = false) →
  keeps env (run_lines lines env).
Proof.
  induction lines as [|line rest IH]; intros Hm; simpl; [apply keeps_ret|].
  apply keeps_bind.
  - apply keeps_run_line, Hm, list_elem_of_here.
  - intros _. apply IH. intros l Hl. apply Hm. by apply list_elem_of_further.
Qed.

(** C8 (as the code has it). In a run over a source text with no
    magic-token line, started without an environment or on one that is
    not in superuser mode (the session has not seen the token), the
    lines that begin with
    [reveal_vars] or [set_var] take no effect: the run is the run of the
    text without them, and each of them is parsed to no node and leaves
    the state (every scope, and the output) as it was, like any line the
    parser does not recognise.  The environment is still out of superuser
    mode when the run ends, so the same holds of the next run of the
    session. *)
Theorem superuser_commands_ignored_without_token
  (source : string) (env : option addr) (st : State) :
  (∀ line, line ∈ PyStr.splitlines source → is_magic line = false) →
  (∀ a, env = Some a → valid a st ∧ superuser (st_heap st !!! a) = false) →
  run source env st =
    (let* e := match env with
               | Some a => ret a
               | None => m_new_env None
               end in
     run_lines
       (filter (λ l, is_superuser_command l = false) (PyStr.splitlines source)) e ;;
     ret e) st
  ∧ (∀ line, line ∈ PyStr.splitlines source → is_superuser_command line = true →
      parse_line line = inl None ∧
      ∀ e st', superuser (st_heap st' !!! e) = false →
               run_line line e st' = (st', Ret tt))
  ∧ (∀ e, e = default (length (st_heap st)) env →
      valid e (run source env st).1 ∧
      superuser (st_heap (run source env st).1 !!! e) = false).
Proof.
  intros Hm Henv. split; [|split].
  - unfold run, bind. destruct env as [a|]; simpl.
    + destruct (Henv a eq_refl) as [Hv Hs].
      by rewrite (run_lines_commands_ignored _ a st Hv Hs Hm).
    + rewrite (run_lines_commands_ignored (PyStr.splitlines source));
        [done| | |done].
      * unfold valid. simpl. rewrite length_app. simpl. lia.
      * simpl. rewrite lookup_total_app_r by done.
        by rewrite Nat.sub_diag.
  - intros line _ Hc. split; [by apply superuser_command_not_parsed|].
    intros e st' Hs. by apply run_line_command_ignored.
  - intros e ->.
    assert (Hstart : ∃ st1, valid (default (length (st_heap st)) env) st1 ∧
              superuser (st_heap st1 !!! default (length (st_heap st)) env) = false ∧
              (run source env st).1 =
                (run_lines (PyStr.splitlines source)
                   (default (length (st_heap st)) env) st1).1).
    { destruct env as [a|]; simpl.
      - destruct (Henv a eq_refl) as [Hv Hs]. exists st. split; [done|].
        split; [done|]. unfold run, bind. simpl.
        by destruct (run_lines _ a st) as [sa [[]|x|]].
      - exists (with_heap st (st_heap st ++ [Env_init None])).
        split; [unfold valid; simpl; rewrite length_app; simpl; lia|].
        split.
        + simpl. rewrite lookup_total_app_r by done. by rewrite Nat.sub_diag.
        + unfold run, bind. simpl.
          by destruct (run_lines _ _ _) as [sa [[]|x|]]. }
    destruct Hstart as (st1 & Hv & Hs & ->).
    pose proof (keeps_run_lines _ _ Hm st1 Hv) as He.
    split; [by eapply valid_evolves|].
    by rewrite (ev_superuser _ _ He _ Hv).
Qed.

Lemma set_var_line_not_magic line :
  PyStr.startswith (PyStr.strip line) "set_var" = true →
  is_superuser_command line = true.
Proof. intros Hc. unfold is_superuser_command. rewrite Hc. apply orb_true_r. Qed.

Lemma set_var_line_not_reveal line :
  PyStr.startswith (PyStr.strip line) "set_var" = true →
  PyStr.startswith (PyStr.strip line) "reveal_vars" = false.
Proof. intros Hc. startswith_inv Hc. reflexivity. Qed.

(** What a [set_var] line does in superuser mode. *)
Lemma run_line_set_var line env st :
  superuser (st_heap st !!! env) = true →
  PyStr.startswith (PyStr.strip line) "set_var" = true →
  run_line line env st =
    match PyStr.fields (PyStr.strip line) with
    | [_; var; val] =>
        match PyStr.int val with
        | Some n =>
            (m_set env var (VInt n) ;;
             m_print [PText ("[SUPERUSER] " +:+ var +:+ " set to " +:+ val)]) st
        | None => (st, Raise ValueError)
        end
    | _ => (st, Raise ValueError)
    end.
Proof.
  intros Hs Hc. unfold run_line.
  pose proof (set_var_line_not_magic line Hc) as Hcmd.
  rewrite (superuser_command_not_magic line Hcmd).
  rewrite (superuser_command_not_parsed line Hcmd).
  simpl. unfold bind at 1. simpl. unfold bind at 1, ret. simpl.
  unfold superuser_command.
  by rewrite Hs, (set_var_line_not_reveal line Hc), Hc.
Qed.

(** C9 (as the code has it). In superuser mode, a line whose stripped
    text begins with [set_var] raises the host's [ValueError] (the
    malformed-command condition) exactly when the text does not split on
    white space into three fields of which the last reads as an integer;
    the first field is not compared with the command word.  The error is
    raised before anything is changed or printed, and it ends the run:
    the lines after it are not processed. *)
Theorem malformed_set_var_raises
  (line : string) (rest : list string) (env : addr) (st : State) :
  superuser (st_heap st !!! env) = true →
  PyStr.startswith (PyStr.strip line) "set_var" = true →
  ((run_line line env st).2 = Raise ValueError ↔ set_var_arguments line = None) ∧
  (set_var_arguments line = None →
     run_line line env st = (st, Raise ValueError) ∧
     run_lines (line :: rest) env st = (st, Raise ValueError)).
Proof.
  intros Hs Hc. pose proof (run_line_set_var line env st Hs Hc) as Hrun.
  unfold set_var_arguments.
  assert (Hmal : match PyStr.fields (PyStr.strip line) with
                 | [_; var; val] => (λ n, (var, n)) <$> PyStr.int val
                 | _ => None
                 end = None → run_line line env st = (st, Raise ValueError)).
  { destruct (PyStr.fields (PyStr.strip line)) as [|w [|var [|val [|]]]]; try done.
    by destruct (PyStr.int val). }
  split; [split|].
  - intros Hr.
    destruct (PyStr.fields (PyStr.strip line)) as [|w [|var [|val [|]]]]; try done.
    destruct (PyStr.int val) as [n|]; [|done]. exfalso.
    rewrite Hrun in Hr. unfold bind, m_set, Env_set, m_print in Hr.
    destruct (set_from _ _ _ _ _) as [h'|e] eqn:Hset; simpl in Hr; [done|].
    injection Hr as ->.
    by destruct (set_from_error _ _ _ _ _ _ Hset) as [?|?].
  - intros Hn. by rewrite (Hmal Hn).
  - intros Hn. split; [by apply Hmal|].
    simpl. unfold bind. by rewrite (Hmal Hn).
Qed.

End RunnerFacts.

(** ** Operators, bindings and loops *)

Lemma m_pure_ret {A} (a : A) : m_pure (ret a).
Proof. done. Qed.

Lemma m_pure_lift {A} (r : A + exn) : m_pure (lift r).
Proof. by destruct r. Qed.

Lemma m_pure_get env name : m_pure (m_get env name).
Proof. intros st. unfold m_get. by destruct (Env_get _ _ _). Qed.

Lemma m_pure_bind {A B} (m : M A) (k : A → M B) :
  m_pure m → (∀ a, m_pure (k a)) → m_pure (bind m k).
Proof.
  intros Hm Hk st. unfold bind. specialize (Hm st).
  destruct (m st) as [st1 [a|e|]]; simpl in *; subst; [apply Hk|done..].
Qed.

Section NodeFacts.
Context `{Host}.

(** C4. For the operators [&&] and [||] there is no short circuit:
    whatever value the left operand gives, the right operand is then
    evaluated in the state the left one left, and its effects, its
    error or its value are those of the operation; the result is the
    operand the truth test of the left value selects ([l and r],
    [l or r]), which need not be a boolean. *)
Theorem logical_operators_evaluate_both_operands
  (fuel : nat) (left_ right_ : Node) (op : string) (env : addr)
  (st st1 st2 : State) (l : value) (r : res value) :
  op = "&&" ∨ op = "||" →
  eval fuel left_ env st = (st1, Ret l) →
  eval fuel right_ env st1 = (st2, r) →
  eval (S fuel) (BinOp left_ op right_) env st =
    (st2,
     match r with
     | Ret rv =>
         Ret (if String.eqb op "&&"
              then (if truthy l then rv else l)
              else (if truthy l then l else rv))
     | Raise e => Raise e
     | OutOfFuel => OutOfFuel
     end).
Proof.
  intros Hop Hl Hr. simpl. unfold bind. rewrite Hl, Hr.
  destruct r as [rv|e|]; [|done..].
  by destruct Hop as [-> | ->].
Qed.

Section Loops.
Variable ev : Node → addr → M value.

Lemma m_pure_eval_elements elements env :
  (∀ el, In el elements → m_pure (ev el env)) →
  m_pure (eval_elements ev elements env).
Proof.
  induction elements as [|el rest IH]; intros Hev; simpl; [done|].
  apply m_pure_bind; [apply Hev; by left|]. intros v.
  apply m_pure_bind; [|done]. apply IH. intros el' Hin. apply Hev. by right.
Qed.

Lemma m_pure_eval_items items env d :
  (∀ k v, In (k, v) items → m_pure (ev k env) ∧ m_pure (ev v env)) →
  m_pure (eval_items ev items env d).
Proof.
  revert d. induction items as [|[k v] rest IH]; intros d Hev; simpl; [done|].
  destruct (Hev k v (or_introl eq_refl)) as [Hk Hv].
  apply m_pure_bind; [done|]. intros kv.
  apply m_pure_bind; [done|]. intros vv.
  apply m_pure_bind; [apply m_pure_lift|]. intros d'.
  apply IH. intros k' v' Hin. apply Hev. by right.
Qed.
End Loops.

(** Evaluating an effect-free node changes nothing, however it ends. *)
Lemma effect_free_pure fuel :
  ∀ node env, effect_free node = true → m_pure (eval fuel node env).
Proof.
  induction fuel as [|k IH]; intros node env Hfree; [done|].
  destruct node; simpl in *; try done.
  - apply m_pure_bind; [|done]. apply m_pure_eval_elements.
    intros el Hin. apply IH. by apply (proj1 (forallb_forall _ _) Hfree).
  - apply m_pure_bind; [|done]. apply m_pure_eval_items.
    intros k' v' Hin.
    pose proof (proj1 (forallb_forall _ _) Hfree _ Hin) as Hkv. simpl in Hkv.
    apply andb_true_iff in Hkv as [? ?]. split; by apply IH.
  - apply m_pure_get.
  - apply andb_true_iff in Hfree as [? ?].
    apply m_pure_bind; [by apply IH|]. intros l.
    apply m_pure_bind; [by apply IH|]. intros r. apply m_pure_lift.
Qed.

(** C10 (as the code has it). [Let] and [Assign] evaluate their
    expression before they touch the environment: when that evaluation
    raises, the node raises the same error and the state is the one the
    failed evaluation left, with no binding made by the node itself; and
    when the expression has no effect of its own, the state is the one
    evaluation started from. *)
Theorem binding_waits_for_expression
  (fuel : nat) (name : string) (expr : Node) (env : addr)
  (st st1 : State) (e : exn) :
  eval fuel expr env st = (st1, Raise e) →
  eval (S fuel) (Let name expr) env st = (st1, Raise e) ∧
  eval (S fuel) (Assign name expr) env st = (st1, Raise e) ∧
  (effect_free expr = true → st1 = st).
Proof.
  intros He. simpl. unfold bind. rewrite He. repeat split.
  intros Hfree. pose proof (effect_free_pure fuel expr env Hfree st) as Hp.
  by rewrite He in Hp.
Qed.

Lemma exec_body_fuel_mono k k' body env r0 st st' r :
  exec_body (eval k) body env r0 st = (st', r) → r ≠ OutOfFuel → (k ≤ k')%nat →
  exec_body (eval k') body env r0 st = (st', r).
Proof.
  intros Hb Hr Hle.
  by apply (exec_body_le (eval k) (eval k') (eval_le k k' Hle) body env r0).
Qed.

(** A loop that ends normally has run some number of turns. *)
Lemma while_runs_complete cond body env k :
  ∀ st st' v,
    eval k (While cond body) env st = (st', Ret v) →
    v = VNone ∧ ∃ n, while_runs cond body env n st st'.
Proof.
  induction k as [|k IH]; intros st st' v; [done|].
  simpl. unfold bind.
  destruct (eval k cond env st) as [st1 [c|e|]] eqn:Hc; try done.
  destruct (truthy c) eqn:Ht.
  - destruct (exec_body (eval k) body env VNone st1) as [st2 [r|e|]] eqn:Hb;
      try done.
    intros Hloop. destruct (IH _ _ _ Hloop) as [-> [n Hn]].
    split; [done|]. exists (S n). by eapply while_turn.
  - intros [= <- <-]. split; [done|]. exists O. by eapply while_stop.
Qed.

(** A number of turns followed by a false condition is a run of the
    loop that ends normally, given enough fuel. *)
Lemma while_runs_sound cond body env n st st' :
  while_runs cond body env n st st' →
  ∃ k, eval k (While cond body) env st = (st', Ret VNone).
Proof.
  induction 1 as [st st' c k Hc Ht|n st st1 st2 st3 c r k Hc Ht Hb _ [k' IH]].
  - exists (S k). simpl. unfold bind. by rewrite Hc, Ht.
  - exists (S (Nat.max k k')). simpl. unfold bind.
    rewrite (eval_fuel_mono k (Nat.max k k') _ _ _ _ _ Hc) by (done || lia).
    rewrite Ht.
    rewrite (exec_body_fuel_mono k (Nat.max k k') _ _ _ _ _ _ Hb) by (done || lia).
    by rewrite (eval_fuel_mono k' (Nat.max k k') _ _ _ _ _ IH) by (done || lia).
Qed.

(** The number of turns and the final state are determined. *)
Lemma while_runs_deterministic cond body env n st st1 :
  while_runs cond body env n st st1 →
  ∀ m st2, while_runs cond body env m st st2 → n = m ∧ st1 = st2.
Proof.
  induction 1 as [st st' c k Hc Ht|n st sa sb sc c r k Hc Ht Hb _ IH];
    intros m st2 Hm;
    inversion Hm as [? ? c' k' Hc' Ht'|? ? sa' sb' ? c' r' k' Hc' Ht' Hb' Hrest];
    subst.
  - destruct (eval_deterministic _ _ _ _ _ _ _ _ _ Hc ltac:(done) Hc' ltac:(done))
      as [-> _]. done.
  - destruct (eval_deterministic _ _ _ _ _ _ _ _ _ Hc ltac:(done) Hc' ltac:(done))
      as [_ [= ->]]. congruence.
  - destruct (eval_deterministic _ _ _ _ _ _ _ _ _ Hc ltac:(done) Hc' ltac:(done))
      as [_ [= ->]]. congruence.
  - destruct (eval_deterministic _ _ _ _ _ _ _ _ _ Hc ltac:(done) Hc' ltac:(done))
      as [-> _].
    pose proof (exec_body_fuel_mono k (Nat.max k k') _ _ _ _ _ _ Hb
                  ltac:(done) (Nat.le_max_l _ _)) as E1.
    pose proof (exec_body_fuel_mono k' (Nat.max k k') _ _ _ _ _ _ Hb'
                  ltac:(done) (Nat.le_max_r _ _)) as E2.
    rewrite E1 in E2. injection E2 as -> _.
    destruct (IH _ _ Hrest) as [-> ->]. done.
Qed.

(** C5. A [While] node evaluates its condition before each turn of the
    body and ends, with no value, exactly when the condition comes out
    false: its evaluation ends normally in [st'] if and only if some
    number of turns, each after a true condition, is followed by a false
    condition that leaves [st'], and that number is determined.  For the
    loop [counter < 3] with body [counter = counter + 1] started with
    [counter] at 0 the number of turns is 3 and [counter] ends at 3. *)
Theorem while_iterates_until_condition_false :
  (∀ cond body env st st' v,
     (∃ k, eval k (While cond body) env st = (st', Ret v)) ↔
     (v = VNone ∧ ∃ n, while_runs cond body env n st st')) ∧
  (∀ cond body env n m st st1 st2,
     while_runs cond body env n st st1 →
     while_runs cond body env m st st2 → n = m ∧ st1 = st2) ∧
  (eval 6 counter_loop 0%nat (counter_state 0) = (counter_state 3, Ret VNone) ∧
   ∀ n st',
     while_runs (BinOp (Var "counter") "<" (Number 3))
       [Assign "counter" (BinOp (Var "counter") "+" (Number 1))] 0%nat
       n (counter_state 0) st' ↔
     n = 3%nat ∧ st' = counter_state 3).
Proof.
  split; [|split; [|split]].
  - intros cond body env st st' v. split.
    + intros [k Hk]. by eapply while_runs_complete.
    + intros [-> [n Hn]]. by eapply while_runs_sound.
  - intros cond body env n m st st1 st2 Hn Hm.
    by eapply while_runs_deterministic.
  - vm_compute. reflexivity.
  - assert (Hruns : while_runs (BinOp (Var "counter") "<" (Number 3))
              [Assign "counter" (BinOp (Var "counter") "+" (Number 1))] 0%nat
              3 (counter_state 0) (counter_state 3)).
    { eapply (while_turn _ _ _ _ _ _ (counter_state 1) _ _ _ 3);
        [vm_compute; reflexivity|reflexivity|vm_compute; reflexivity|].
      eapply (while_turn _ _ _ _ _ _ (counter_state 2) _ _ _ 3);
        [vm_compute; reflexivity|reflexivity|vm_compute; reflexivity|].
      eapply (while_turn _ _ _ _ _ _ (counter_state 3) _ _ _ 3);
        [vm_compute; reflexivity|reflexivity|vm_compute; reflexivity|].
      eapply (while_stop _ _ _ _ _ _ 3);
        [vm_compute; reflexivity|reflexivity]. }
    intros n st'. split.
    + intros Hn. destruct (while_runs_deterministic _ _ _ _ _ _ Hn _ _ Hruns).
      by subst.
    + by intros [-> ->].
Qed.

End NodeFacts.

(** ** Function calls

    Evaluation in a scope never touches an environment outside the chain
    of that scope; in particular, evaluating the arguments of a call in the
    caller's scope leaves the new child environment alone. *)

Lemma parent_update (h : heap) (a : addr) (e : Env) :
  parent e = parent (h !!! a) →
  ∀ b, parent (<[a := e]> h !!! b) = parent (h !!! b).
Proof.
  intros Hp b. destruct (decide (a = b)) as [<-|Hne].
  - destruct (decide (a < length h)%nat).
    + by rewrite list_lookup_total_insert_eq.
    + by rewrite list_insert_ge by lia.
  - by rewrite list_lookup_total_insert_ne.
Qed.

Lemma put_length c e st : length (st_heap (put c e st)) = length (st_heap st).
Proof. simpl. by rewrite length_insert. Qed.

Lemma put_lookup_ne c e st a :
  a ≠ c → st_heap (put c e st) !!! a = st_heap st !!! a.
Proof. intros Hne. simpl. by rewrite list_lookup_total_insert_ne. Qed.

Lemma put_same c st : put c (st_heap st !!! c) st = st.
Proof.
  destruct st as [h o]. unfold put, with_heap. simpl. f_equal.
  apply list_insert_id'. intros Hlt. by apply list_lookup_lookup_total_lt.
Qed.

Lemma put_put c e e' st : put c e (put c e' st) = put c e st.
Proof. unfold put, with_heap. simpl. by rewrite list_insert_insert_eq. Qed.

Lemma put_lookup c e st :
  (c < length (st_heap st))%nat → st_heap (put c e st) !!! c = e.
Proof. intros Hlt. simpl. by rewrite list_lookup_total_insert_eq. Qed.

Section Frame.
Variable c : addr.

Lemma get_from_put depth h e self name :
  (∀ a, parent (h !!! a) ≠ Some c) → self ≠ c →
  get_from depth (<[c := e]> h) self name = get_from depth h self name.
Proof.
  intros Hch. revert self. induction depth as [|d IH]; intros self Hne; [done|].
  simpl. rewrite list_lookup_total_insert_ne by done.
  destruct (vars (h !!! self) !! name); [done|].
  destruct (parent (h !!! self)) as [p|] eqn:Hp; [|done].
  apply IH. intros ->. by apply (Hch self).
Qed.

Lemma get_func_from_put depth h e self name :
  (∀ a, parent (h !!! a) ≠ Some c) → self ≠ c →
  get_func_from depth (<[c := e]> h) self name = get_func_from depth h self name.
Proof.
  intros Hch. revert self. induction depth as [|d IH]; intros self Hne; [done|].
  simpl. rewrite list_lookup_total_insert_ne by done.
  destruct (funcs (h !!! self) !! name); [done|].
  destruct (parent (h !!! self)) as [p|] eqn:Hp; [|done].
  apply IH. intros ->. by apply (Hch self).
Qed.

Lemma set_from_put depth h e self name v :
  (∀ a, parent (h !!! a) ≠ Some c) → self ≠ c →
  set_from depth (<[c := e]> h) self name v =
    match set_from depth h self name v with
    | inl h' => inl (<[c := e]> h')
    | inr x => inr x
    end.
Proof.
  intros Hch. revert self. induction depth as [|d IH]; intros self Hne; [done|].
  simpl. rewrite list_lookup_total_insert_ne by done.
  destruct (vars (h !!! self) !! name).
  - f_equal. by apply list_insert_insert_ne.
  - destruct (parent (h !!! self)) as [p|] eqn:Hp; [|done].
    apply IH. intros ->. by apply (Hch self).
Qed.

Lemma ignores_ret {A} (a : A) : ignores c (ret a).
Proof. by intros st Hlt Hch. Qed.

Lemma ignores_raise {A} (x : exn) : ignores c (@raise A x).
Proof. by intros st Hlt Hch. Qed.

Lemma ignores_out_of_fuel {A} : ignores c (@out_of_fuel A).
Proof. by intros st Hlt Hch. Qed.

Lemma ignores_lift {A} (r : A + exn) : ignores c (lift r).
Proof. destruct r; [apply ignores_ret|apply ignores_raise]. Qed.

Lemma ignores_bind {A B} (m : M A) (k : A → M B) :
  ignores c m → (∀ a, ignores c (k a)) → ignores c (bind m k).
Proof.
  intros Hm Hk st Hlt Hch. destruct (Hm st Hlt Hch) as (Hlen & Hch1 & Hput).
  unfold bind at 1 2 3. setoid_rewrite Hput. unfold bind.
  destruct (m st) as [st1 [a|x|]]; simpl in *; [|done..].
  destruct (Hk a st1 ltac:(lia) Hch1) as (Hlen2 & Hch2 & Hput2).
  split; [lia|]. split; [done|]. intros e. apply Hput2.
Qed.

Lemma ignores_get env name : env ≠ c → ignores c (m_get env name).
Proof.
  intros Hne st Hlt Hch. unfold m_get, Env_get.
  split; [by destruct (get_from _ _ _ _)|].
  split; [by destruct (get_from _ _ _ _)|]. intros e.
  rewrite put_length. simpl. rewrite get_from_put by done.
  by destruct (get_from _ _ _ _).
Qed.

Lemma childless_update st a e :
  childless c st → parent e = parent (st_heap st !!! a) →
  childless c (with_heap st (<[a := e]> (st_heap st))).
Proof. intros Hch Hp b. simpl. rewrite parent_update by done. apply Hch. Qed.

Lemma ignores_update env (f : Env → Env) :
  env ≠ c → (∀ e, parent (f e) = parent e) →
  ignores c (λ st, (with_heap st (<[env := f (st_heap st !!! env)]> (st_heap st)),
                    Ret tt)).
Proof.
  intros Hne Hf st Hlt Hch. simpl. rewrite length_insert.
  split; [done|]. split; [by apply childless_update|].
  intros e. unfold put, with_heap. simpl.
  rewrite list_lookup_total_insert_ne by done.
  by rewrite list_insert_insert_ne.
Qed.

Lemma ignores_declare env name v : env ≠ c → ignores c (m_declare env name v).
Proof.
  intros Hne.
  apply (ignores_update env (λ e, set_vars e (<[name := v]> (vars e)))); done.
Qed.

Lemma ignores_define_func env name args body :
  env ≠ c → ignores c (m_define_func env name args body).
Proof.
  intros Hne.
  apply (ignores_update env
           (λ e, set_funcs e (<[name := (args, body)]> (funcs e)))); done.
Qed.

Lemma ignores_set env name v : env ≠ c → ignores c (m_set env name v).
Proof.
  intros Hne st Hlt Hch.
  assert (Hput : ∀ e, m_set env name v (put c e st) =
            (put c e (m_set env name v st).1, (m_set env name v st).2)).
  { intros e. unfold m_set, Env_set. rewrite put_length. simpl.
    rewrite set_from_put by done. by destruct (set_from _ _ _ _ _). }
  split; [|split; [|done]]; unfold m_set, Env_set;
    destruct (set_from _ _ _ _ _) as [h'|x] eqn:Hset; simpl; try done;
    apply set_from_updates in Hset as (a & _ & ->).
  - by rewrite length_insert.
  - by apply childless_update.
Qed.

Lemma ignores_print items : ignores c (m_print items).
Proof. by intros st Hlt Hch. Qed.

Lemma ignores_new_env env :
  env ≠ c → ignores c (m_new_env (Some env)).
Proof.
  intros Hne st Hlt Hch. simpl. rewrite length_app. split; [lia|]. split.
  - intros a. simpl.
    destruct (decide (a < length (st_heap st))%nat) as [Ha|Ha].
    + rewrite lookup_total_app_l by done. apply Hch.
    + destruct (decide (a = length (st_heap st))) as [->|Hna].
      * rewrite lookup_total_app_r by done. rewrite Nat.sub_diag. simpl.
        congruence.
      * rewrite lookup_total_dangling; [done|]. rewrite length_app. simpl. lia.
  - intros e. unfold m_new_env, put, with_heap. simpl.
    rewrite length_insert. by rewrite insert_app_l.
Qed.

End Frame.

Ltac ignores_step :=
  first
    [ apply ignores_ret | apply ignores_raise | apply ignores_lift
    | apply ignores_print
    | apply ignores_get; [done]
    | apply ignores_declare; [done]
    | apply ignores_set; [done]
    | apply ignores_define_func; [done]
    | apply ignores_bind; [|intros ?]
    | match goal with
      | |- ignores _ (if ?b then _ else _) => destruct b
      end ].

Section FrameEval.
Context `{Host}.
Variable c : addr.

Lemma ignores_bind_new_env {B} env (k : addr → M B) :
  env ≠ c → (∀ a, a ≠ c → ignores c (k a)) →
  ignores c (bind (m_new_env (Some env)) k).
Proof.
  intros Hne Hk st Hlt Hch.
  destruct (ignores_new_env c env Hne st Hlt Hch) as (Hlen & Hch1 & Hput).
  unfold bind at 1 2 3. setoid_rewrite Hput. simpl in *.
  destruct (Hk (length (st_heap st)) ltac:(lia)
              (with_heap st (st_heap st ++ [Env_init (Some env)]))
              ltac:(simpl; lia) Hch1) as (Hlen2 & Hch2 & Hput2).
  split; [simpl in *; lia|]. split; [done|]. intros e. apply Hput2.
Qed.

Section Loops.
Variable ev : Node → addr → M value.
Hypothesis Hev : ∀ node env, env ≠ c → ignores c (ev node env).

Lemma ignores_eval_elements elements env :
  env ≠ c → ignores c (eval_elements ev elements env).
Proof.
  intros Hne. induction elements as [|el rest IH]; simpl;
    repeat ignores_step; auto.
Qed.

Lemma ignores_eval_items items env d :
  env ≠ c → ignores c (eval_items ev items env d).
Proof.
  intros Hne. revert d. induction items as [|[k v] rest IH]; intros d; simpl;
    repeat ignores_step; auto.
Qed.

Lemma ignores_exec_body body env r :
  env ≠ c → ignores c (exec_body ev body env r).
Proof.
  intros Hne. revert r. induction body as [|stmt rest IH]; intros r; simpl;
    repeat ignores_step; auto.
Qed.

Lemma ignores_bind_args pairs local_env env :
  env ≠ c → local_env ≠ c → ignores c (bind_args ev pairs local_env env).
Proof.
  intros Hne Hnl. induction pairs as [|[n a] rest IH]; simpl;
    repeat ignores_step; auto.
Qed.

Lemma ignores_eval_node node env :
  env ≠ c → ignores c (eval_node ev node env).
Proof.
  intros Hne. destruct node; simpl;
    try (repeat ignores_step;
         auto using ignores_eval_elements, ignores_eval_items,
           ignores_exec_body; fail).
  (* FuncCall *)
  intros st Hlt Hch.
  assert (Hf : ∀ e, Env_get_func (st_heap (put c e st)) env name =
                    Env_get_func (st_heap st) env name).
  { intros e. unfold Env_get_func. rewrite put_length. simpl.
    by apply get_func_from_put. }
  cbv beta. setoid_rewrite Hf.
  destruct (Env_get_func (st_heap st) env name) as [[func_args func_body]|x].
  - apply (ignores_bind_new_env env
             (λ local_env,
                bind_args ev (zip func_args args) local_env env ;;
                exec_body ev func_body local_env VNone)); [done| |done..].
    intros a Ha. apply ignores_bind; [by apply ignores_bind_args|].
    intros _. by apply ignores_exec_body.
  - destruct x; try exact (ignores_raise c _ st Hlt Hch).
    exact (ignores_lift c _ st Hlt Hch).
Qed.
End Loops.

(** Evaluation in a scope other than [c], in a state where [c] is
    nobody's parent, ignores the environment at [c]. *)
Lemma ignores_eval fuel :
  ∀ node env, env ≠ c → ignores c (eval fuel node env).
Proof.
  induction fuel as [|k IH]; intros node env Hne; simpl.
  - apply ignores_out_of_fuel.
  - by apply ignores_eval_node.
Qed.

End FrameEval.

Lemma ignores_unchanged {A} (c : addr) (m : M A) (st : State) :
  ignores c m → (c < length (st_heap st))%nat → childless c st →
  st_heap (m st).1 !!! c = st_heap st !!! c.
Proof.
  intros Hm Hlt Hch. destruct (Hm st Hlt Hch) as (Hlen & _ & Hput).
  specialize (Hput (st_heap st !!! c)). rewrite put_same in Hput.
  rewrite Hput at 1. simpl. apply list_lookup_total_insert_eq. lia.
Qed.

Lemma set_vars_same (e : Env) : set_vars e (vars e) = e.
Proof. by destruct e. Qed.

Lemma snd_zip_take {A B} (l1 : list A) (l2 : list B) :
  (zip l1 l2).*2 = take (length l1) l2.
Proof.
  revert l2. induction l1 as [|x l1 IH]; intros [|y l2]; simpl; try done.
  by rewrite IH.
Qed.

Lemma zip_fst_zip {A B C} (l1 : list A) (l2 : list B) (l3 : list C) :
  length l3 = length (zip l1 l2) → zip (zip l1 l2).*1 l3 = zip l1 l3.
Proof.
  revert l2 l3. induction l1 as [|x l1 IH]; intros [|y l2] [|z l3]; simpl;
    try done.
  intros [= Hlen]. by rewrite IH.
Qed.

Lemma bind_ret_r {A} (m : M A) (st : State) : bind m ret st = m st.
Proof. unfold bind. by destruct (m st) as [st1 [a|e|]]. Qed.

Section Calls.
Context `{Host}.

Section Loops.
Variable ev : Node → addr → M value.

Lemma eval_elements_length elements env st st1 vs :
  eval_elements ev elements env st = (st1, Ret vs) →
  length vs = length elements.
Proof.
  revert st vs. induction elements as [|el rest IH]; intros st vs; simpl.
  - by intros [= <- <-].
  - unfold bind. destruct (ev el env st) as [sa [v|e|]]; try done.
    destruct (eval_elements ev rest env sa) as [sb [vs'|e|]] eqn:Hrest;
      try done.
    intros [= <- <-]. simpl. by rewrite (IH _ _ Hrest).
Qed.

Lemma exec_body_app body1 body2 env r st :
  exec_body ev (body1 ++ body2) env r st =
    (let* r' := exec_body ev body1 env r in exec_body ev body2 env r') st.
Proof.
  revert r st. induction body1 as [|stmt rest IH]; intros r st; simpl; [done|].
  unfold bind in *. destruct (ev stmt env st) as [sa [v|e|]]; done.
Qed.

(** The statements of a body run in order, and the value is that of
    the last one. *)
Lemma exec_body_last stmts last env r st :
  exec_body ev (stmts ++ [last]) env r st =
    (exec_body ev stmts env r ;; ev last env) st.
Proof.
  rewrite exec_body_app. unfold bind.
  destruct (exec_body ev stmts env r st) as [sa [v|e|]]; try done.
  simpl. apply (bind_ret_r (ev last env)).
Qed.

(** The loop that binds the parameters, one argument at a time, gives
    the child the bindings of the parameters to the values the
    arguments have when evaluated one after the other in the caller's
    scope. *)
Lemma bind_args_bindings c env :
  (∀ node env, env ≠ c → ignores c (ev node env)) → env ≠ c →
  ∀ pairs st st1 vs,
    (c < length (st_heap st))%nat → childless c st →
    eval_elements ev pairs.*2 env st = (st1, Ret vs) →
    bind_args ev pairs c env st =
      (put c (set_vars (st_heap st !!! c)
                (bindings (vars (st_heap st !!! c)) (zip pairs.*1 vs))) st1,
       Ret tt).
Proof.
  intros Hev Hne pairs.
  induction pairs as [|[n a] rest IH]; intros st st1 vs Hlt Hch; simpl.
  - intros [= <- <-]. simpl. unfold ret. f_equal.
    by rewrite set_vars_same, put_same.
  - unfold bind at 1 3.
    pose proof (ignores_unchanged c (ev a env) st (Hev a env Hne) Hlt Hch) as Hsame.
    destruct (Hev a env Hne st Hlt Hch) as (Hlen & Hch1 & _).
    destruct (ev a env st) as [sa [v|e|]]; simpl in *; try done.
    unfold bind at 1.
    destruct (eval_elements ev _ env sa) as [sb [vs'|e|]] eqn:Hrest;
      try done.
    intros [= <- <-]. unfold bind at 1. simpl.
    set (E := set_vars (st_heap sa !!! c) (<[n:=v]> (vars (st_heap sa !!! c)))).
    change (with_heap sa (Env_declare (st_heap sa) c n v)) with (put c E sa).
    assert (Hlta : (c < length (st_heap sa))%nat) by lia.
    destruct (ignores_eval_elements c ev Hev rest.*2 env Hne sa Hlta Hch1)
      as (_ & _ & Hput).
    rewrite (IH (put c E sa) (put c E sb) vs').
    + rewrite put_lookup by done. rewrite put_put. subst E. simpl.
      by rewrite Hsame.
    + by rewrite put_length.
    + by apply childless_update.
    + rewrite Hput.
      change (eval_elements ev rest.*2 env sa) with
        (eval_elements ev (list_fmap _ _ snd rest) env sa).
      by rewrite Hrest.
Qed.
End Loops.

(** C2. A call of a defined function creates one new environment, at a
    fresh address, whose parent is the calling scope; the arguments,
    as many as there are parameters for (and no more than there are),
    are evaluated in order in the caller's scope, which leaves the new
    environment untouched; the new environment then binds each
    parameter to the value of the argument at the same position; the
    body statements are evaluated in order in the new environment, and
    the value of the call is that of the last statement, or [None] for
    an empty body. *)
Theorem function_call_binds_and_runs_body
  (fuel : nat) (name : string) (args : list Node) (env : addr)
  (func_args : list string) (func_body : list Node)
  (st st1 : State) (vs : list value) :
  wf_heap (st_heap st) → valid env st →
  Env_get_func (st_heap st) env name = inl (func_args, func_body) →
  eval_elements (eval fuel) (take (length func_args) args) env
    (with_heap st (st_heap st ++ [Env_init (Some env)])) = (st1, Ret vs) →
  let child := length (st_heap st) in
  let callee :=
    put child (mkEnv (bindings ∅ (zip func_args vs)) ∅ ∅ (Some env) false) st1 in
  st_heap st1 !!! child = Env_init (Some env) ∧
  length vs = Nat.min (length func_args) (length args) ∧
  eval (S fuel) (FuncCall name args) env st =
    exec_body (eval fuel) func_body child VNone callee ∧
  (func_body = [] →
     eval (S fuel) (FuncCall name args) env st = (callee, Ret VNone)) ∧
  (∀ stmts last, func_body = stmts ++ [last] →
     eval (S fuel) (FuncCall name args) env st =
       (exec_body (eval fuel) stmts child VNone ;; eval fuel last child) callee).
Proof.
  intros Hwf Hv Hf Hargs child callee.
  set (st0 := with_heap st (st_heap st ++ [Env_init (Some env)])) in *.
  assert (Hne : env ≠ child) by (unfold valid, child in *; lia).
  assert (Hlt0 : (child < length (st_heap st0))%nat).
  { unfold st0, child. simpl. rewrite length_app. simpl. lia. }
  assert (Hch0 : childless child st0).
  { intros a Hp. pose proof (ev_wf _ _ (evolves_new_env st env Hv) Hwf) as Hwf0.
    destruct (wf_heap_valid _ _ _ Hwf0 Hp) as [Hlt Hlen].
    unfold st0 in Hlen. simpl in Hlen. rewrite length_app in Hlen. simpl in Hlen.
    unfold child in Hlt. lia. }
  assert (Hchild0 : st_heap st0 !!! child = Env_init (Some env)).
  { unfold st0, child. simpl. rewrite lookup_total_app_r by done.
    by rewrite Nat.sub_diag. }
  assert (Hev : ∀ node env', env' ≠ child → ignores child (eval fuel node env'))
    by (intros; by apply ignores_eval).
  pose proof (ignores_unchanged child _ st0
                (ignores_eval_elements child _ Hev
                   (take (length func_args) args) env Hne) Hlt0 Hch0) as Hsame.
  rewrite Hargs in Hsame. simpl in Hsame.
  pose proof (eval_elements_length _ _ _ _ _ _ Hargs) as Hlen.
  rewrite length_take in Hlen.
  assert (Hcall : eval (S fuel) (FuncCall name args) env st =
                  exec_body (eval fuel) func_body child VNone callee).
  { simpl. rewrite Hf. unfold bind at 1. simpl. fold st0. fold child.
    unfold bind at 1.
    rewrite (bind_args_bindings (eval fuel) child env Hev Hne
               (zip func_args args) st0 st1 vs Hlt0 Hch0)
      by (by rewrite snd_zip_take).
    unfold callee. do 2 f_equal.
    transitivity (set_vars (Env_init (Some env))
                    (bindings (vars (Env_init (Some env)))
                       (zip (zip func_args args).*1 vs)));
      [by rewrite <- Hchild0|].
    simpl. rewrite zip_fst_zip; [done|]. rewrite length_zip. lia. }
  split; [by etrans; [exact Hsame|exact Hchild0]|].
  split; [lia|]. split; [done|]. split.
  - intros ->. by rewrite Hcall.
  - intros stmts last ->. rewrite Hcall. apply exec_body_last.
Qed.

End Calls.

(** ** The parser *)

Lemma split1_chars_length (sep : ascii) (l : list ascii) :
  length (PyStr.split1_chars sep l) = if bool_decide (sep ∈ l) then 2%nat else 1%nat.
Proof.
  induction l as [|c l IH].
  - case_bool_decide as Hin; [|done]. by apply not_elem_of_nil in Hin.
  - cbn [PyStr.split1_chars]. destruct (Ascii.eqb c sep) eqn:Hc.
    + apply Ascii.eqb_eq in Hc as ->.
      clear IH. case_bool_decide as Hin; [done|].
      exfalso. apply Hin, list_elem_of_here.
    + apply Ascii.eqb_neq in Hc.
      assert (Hiff : sep ∈ c :: l ↔ sep ∈ l).
      { rewrite elem_of_cons. split; [intros [Heq|?]; [by subst|done]|by right]. }
      rewrite (bool_decide_ext _ _ Hiff).
      destruct (PyStr.split1_chars sep l) as [|p ps]; [|done].
      simpl in *. by case_bool_decide.
Qed.

(** C3 (what the code does). [parse_line] is not total: for the line
    [let x] the tuple unpacking raises the host's [ValueError].  It raises
    exactly on the lines that, once stripped, begin with [let ] and have
    no equals sign after it; on every other line it returns one node or
    none, and none unless the line begins with [let ] or [shout ]. *)
Theorem parse_line_let_without_equals_raises :
  parse_line "let x" = inr ValueError ∧
  (∀ line,
     (∃ e, parse_line line = inr e) ↔
     PyStr.startswith (PyStr.strip line) "let " = true ∧
     "="%char ∉ PyStr.chars (PyStr.drop_prefix 4 (PyStr.strip line))) ∧
  (∀ line,
     PyStr.startswith (PyStr.strip line) "let " = false →
     PyStr.startswith (PyStr.strip line) "shout " = false →
     parse_line line = inl None).
Proof.
  split; [reflexivity|]. split.
  - intros line. unfold parse_line.
    destruct (PyStr.startswith (PyStr.strip line) "let ") eqn:Hlet.
    + unfold PyStr.split1.
      pose proof (split1_chars_length "="
                    (PyStr.chars (PyStr.drop_prefix 4 (PyStr.strip line)))) as Hlen.
      destruct (PyStr.split1_chars "=" _) as [|n [|e [|]]]; simpl in *;
        case_bool_decide; try discriminate; split;
        try (intros [? ?]; done); try (intros [_ ?]; done);
        try (intros _; split; done); eauto.
    + split; [|intros [? _]; done].
      intros [e He]. by destruct (PyStr.startswith (PyStr.strip line) "shout ").
  - intros line Hlet Hshout. unfold parse_line. by rewrite Hlet, Hshout.
Qed.

(** ** The parser and the runner always answer *)

Lemma length_chars (s : string) : length (PyStr.chars s) = String.length s.
Proof. induction s as [|c s IH]; simpl; [done|]. by rewrite <- IH. Qed.

Lemma length_str (l : list ascii) : String.length (PyStr.str l) = length l.
Proof. induction l as [|c l IH]; simpl; [done|]. by rewrite IH. Qed.

Lemma lstrip_chars_length (l : list ascii) :
  (length (PyStr.lstrip_chars l) ≤ length l)%nat.
Proof.
  induction l as [|c l IH]; simpl; [done|].
  destruct (PyStr.isspace c); simpl; lia.
Qed.

Lemma strip_length (s : string) :
  (String.length (PyStr.strip s) ≤ String.length s)%nat.
Proof.
  unfold PyStr.strip, PyStr.rstrip_chars.
  rewrite length_str, length_rev.
  etrans; [apply lstrip_chars_length|]. rewrite length_rev.
  etrans; [apply lstrip_chars_length|]. by rewrite length_chars.
Qed.

Lemma removelast_length {A} (l : list A) :
  (length (removelast l) ≤ length l)%nat.
Proof.
  induction l as [|x [|y l] IH]; simpl in *; lia.
Qed.

Lemma inner_length (s : string) :
  s ≠ EmptyString → (String.length (PyStr.inner s) < String.length s)%nat.
Proof.
  intros Hs. unfold PyStr.inner. rewrite length_str.
  destruct s as [|c s]; [done|]. simpl.
  pose proof (removelast_length (drop 0 (PyStr.chars s))) as Hl.
  rewrite drop_0, length_chars in Hl. rewrite drop_0. lia.
Qed.

Lemma split_chars_length (sep : ascii) (l p : list ascii) :
  In p (PyStr.split_chars sep l) → (length p ≤ length l)%nat.
Proof.
  revert p. induction l as [|c l IH]; intros p; simpl.
  - intros [<-|[]]. done.
  - destruct (Ascii.eqb c sep).
    + intros [<-|Hin]; simpl; [lia|]. specialize (IH p Hin). lia.
    + destruct (PyStr.split_chars sep l) as [|q qs].
      * intros [<-|[]]. simpl. lia.
      * intros [<-|Hin]; simpl.
        -- specialize (IH q (or_introl eq_refl)). lia.
        -- specialize (IH p (or_intror Hin)). lia.
Qed.

Lemma split_length (sep : ascii) (s x : string) :
  In x (PyStr.split sep s) → (String.length x ≤ String.length s)%nat.
Proof.
  unfold PyStr.split. rewrite in_map_iff. intros (p & <- & Hin).
  rewrite length_str, <- length_chars. by eapply split_chars_length.
Qed.

Lemma string_length_0 (s : string) : String.length s = 0%nat → s = EmptyString.
Proof. by destruct s. Qed.

Lemma parse_expr_at_unfold (depth : nat) (expr : string) :
  parse_expr_at depth expr =
    if String.eqb (PyStr.strip expr) "true" then Boolean true
    else if String.eqb (PyStr.strip expr) "false" then Boolean false
    else if String.eqb (PyStr.strip expr) "none" then NoneNode
    else if PyStr.startswith (PyStr.strip expr) quote
            && PyStr.endswith (PyStr.strip expr) quote
         then String (PyStr.inner (PyStr.strip expr))
    else if PyStr.startswith (PyStr.strip expr) "["
            && PyStr.endswith (PyStr.strip expr) "]"
         then
           match depth with
           | S d =>
               Array (map (λ x, parse_expr_at d (PyStr.strip x))
                          (filter (λ x, nonblank x = true)
                                  (PyStr.split "," (PyStr.inner (PyStr.strip expr)))))
           | O => Array []
           end
    else match PyStr.int (PyStr.strip expr) with
         | Some n => Number n
         | None => Var (PyStr.strip expr)
         end.
Proof. by destruct depth. Qed.

(** The bound on the nesting of lists is never reached: any depth that
    is at least the length of the text gives the same node. *)
Lemma parse_expr_depth (d1 d2 : nat) (expr : string) :
  (String.length expr ≤ d1)%nat → (String.length expr ≤ d2)%nat →
  parse_expr_at d1 expr = parse_expr_at d2 expr.
Proof.
  revert d2 expr. induction d1 as [|d1 IH]; intros d2 expr H1 H2.
  - rewrite (string_length_0 expr) by lia. by destruct d2.
  - destruct d2 as [|d2].
    { rewrite (string_length_0 expr) by lia. done. }
    rewrite !parse_expr_at_unfold.
    repeat (destruct (String.eqb _ _); [done|]).
    destruct (_ && _); [done|].
    destruct (PyStr.startswith (PyStr.strip expr) "[") eqn:Hb; [|done].
    destruct (PyStr.endswith (PyStr.strip expr) "]"); [|done]. simpl.
    f_equal. apply map_ext_in. intros x Hx.
    apply list_elem_of_In, list_elem_of_filter in Hx as [_ Hx].
    apply list_elem_of_In, split_length in Hx.
    assert (Hne : PyStr.strip expr ≠ EmptyString).
    { intros Heq. rewrite Heq in Hb. done. }
    pose proof (inner_length _ Hne). pose proof (strip_length expr).
    pose proof (strip_length x). apply IH; lia.
Qed.

Lemma parse_expr_effect_free (depth : nat) (expr : string) :
  effect_free (parse_expr_at depth expr) = true.
Proof.
  revert expr. induction depth as [|d IH]; intros expr;
    rewrite parse_expr_at_unfold;
    repeat (destruct (String.eqb _ _); [done|]);
    (destruct (_ && _); [done|]);
    (destruct (_ && _); [|by destruct (PyStr.int _)]); [done|].
  simpl. apply forallb_forall. intros n Hn.
  apply in_map_iff in Hn as (x & <- & _). apply IH.
Qed.

Lemma list_max_In (l : list nat) (n : nat) : In n l → (n ≤ list_max l)%nat.
Proof.
  induction l as [|m l IH]; simpl; [done|]. intros [->|Hin]; [lia|].
  specialize (IH Hin). lia.
Qed.

Section Answers.
Context `{Host}.

Section Loops.
Variable ev : Node → addr → M value.

Lemma eval_elements_answers elements env :
  (∀ el st, In el elements → (ev el env st).2 ≠ OutOfFuel) →
  ∀ st, (eval_elements ev elements env st).2 ≠ OutOfFuel.
Proof.
  induction elements as [|el rest IH]; intros Hev st; simpl; [done|].
  unfold bind. pose proof (Hev el st (or_introl eq_refl)) as Hel.
  destruct (ev el env st) as [sa [v|e|]]; simpl in *; try done.
  specialize (IH (λ el' st' Hin, Hev el' st' (or_intror Hin)) sa).
  by destruct (eval_elements ev rest env sa) as [sb [vs|e|]].
Qed.

Lemma eval_items_answers items env :
  (∀ k v st, In (k, v) items →
     (ev k env st).2 ≠ OutOfFuel ∧ (ev v env st).2 ≠ OutOfFuel) →
  ∀ d st, (eval_items ev items env d st).2 ≠ OutOfFuel.
Proof.
  induction items as [|[k v] rest IH]; intros Hev d st; simpl; [done|].
  unfold bind. pose proof (proj1 (Hev k v st (or_introl eq_refl))) as Hk.
  destruct (ev k env st) as [sa [kv|e|]]; simpl in *; try done.
  pose proof (proj2 (Hev k v sa (or_introl eq_refl))) as Hv.
  destruct (ev v env sa) as [sb [vv|e|]]; simpl in *; try done.
  destruct (dict_setitem d kv vv) as [d'|e]; simpl; [|done].
  apply IH. intros k' v' st' Hin. apply Hev. by right.
Qed.
End Loops.

(** An effect-free node is evaluated within a fuel of its height. *)
Lemma effect_free_answers fuel :
  ∀ node env st, effect_free node = true → (height node ≤ fuel)%nat →
    (eval fuel node env st).2 ≠ OutOfFuel.
Proof.
  induction fuel as [|k IH]; intros node env st Hfree Hh.
  { destruct node; simpl in Hh; lia. }
  destruct node; simpl in *; try done.
  - unfold bind.
    pose proof (eval_elements_answers (eval k) elements env) as He.
    destruct (eval_elements (eval k) elements env st) as [sa [vs|e|]] eqn:Hel;
      try done.
    specialize (He (λ el st' Hin, IH el env st'
      (proj1 (forallb_forall _ _) Hfree el Hin)
      ltac:(pose proof (list_max_In _ _ (in_map height _ _ Hin)); lia)) st).
    by rewrite Hel in He.
  - unfold bind.
    pose proof (eval_items_answers (eval k) items env) as He.
    destruct (eval_items (eval k) items env [] st) as [sa [vs|e|]] eqn:Hel;
      try done.
    assert (Hkv : ∀ k' v' st', In (k', v') items →
              (eval k k' env st').2 ≠ OutOfFuel ∧ (eval k v' env st').2 ≠ OutOfFuel).
    { intros k' v' st' Hin.
      pose proof (proj1 (forallb_forall _ _) Hfree _ Hin) as Hf. simpl in Hf.
      apply andb_true_iff in Hf as [Hfk Hfv].
      pose proof (list_max_In _ _
        (in_map (λ kv, match kv with (a, b) => Nat.max (height a) (height b) end)
                _ _ Hin)) as Hm. simpl in Hm.
      split; apply IH; try done; lia. }
    specialize (He Hkv [] st). by rewrite Hel in He.
  - unfold m_get. by destruct (Env_get _ _ _).
  - apply andb_true_iff in Hfree as [Hl Hr]. unfold bind.
    pose proof (IH node1 env st Hl ltac:(lia)) as H1.
    destruct (eval k node1 env st) as [sa [l|e|]]; simpl in *; try done.
    pose proof (IH node2 env sa Hr ltac:(lia)) as H2.
    destruct (eval k node2 env sa) as [sb [r|e|]]; simpl in *; try done.
    by destruct (binop op l r).
Qed.

Lemma let_answers k name expr env st :
  (eval k expr env st).2 ≠ OutOfFuel →
  (eval (S k) (Let name expr) env st).2 ≠ OutOfFuel.
Proof.
  intros He. simpl. unfold bind.
  by destruct (eval k expr env st) as [sa [v|e|]].
Qed.

Lemma print_answers k expr env st :
  (eval k expr env st).2 ≠ OutOfFuel →
  (eval (S k) (Print expr) env st).2 ≠ OutOfFuel.
Proof.
  intros He. simpl. unfold bind.
  by destruct (eval k expr env st) as [sa [v|e|]].
Qed.

(** The nodes [parse_line] builds are evaluated within the fuel [run_line]
    gives them. *)
Lemma parsed_node_answers line node env st :
  parse_line line = inl (Some node) →
  (eval (S (height node)) node env st).2 ≠ OutOfFuel.
Proof.
  unfold parse_line.
  destruct (PyStr.startswith (PyStr.strip line) "let ").
  - destruct (PyStr.split1 "=" _) as [|name [|expr [|]]]; try done.
    intros [= <-].
    apply (let_answers (S (height (parse_expr (PyStr.strip expr))))).
    apply effect_free_answers; [apply parse_expr_effect_free|lia].
  - destruct (PyStr.startswith (PyStr.strip line) "shout "); [|done].
    intros [= <-].
    apply (print_answers
             (S (height (parse_expr (PyStr.drop_prefix 6 (PyStr.strip line)))))).
    apply effect_free_answers; [apply parse_expr_effect_free|lia].
Qed.

Lemma bind_answers {A B} (m : M A) (k : A → M B) (st : State) :
  (m st).2 ≠ OutOfFuel →
  (∀ a st', m st = (st', Ret a) → (k a st').2 ≠ OutOfFuel) →
  (bind m k st).2 ≠ OutOfFuel.
Proof.
  intros Hm Hk. unfold bind.
  destruct (m st) as [st' [a|e|]]; simpl in *; [by apply Hk|done..].
Qed.

Lemma superuser_command_answers line_strip env st :
  (superuser_command line_strip env st).2 ≠ OutOfFuel.
Proof.
  unfold superuser_command.
  destruct (superuser _); [|done].
  destruct (PyStr.startswith line_strip "reveal_vars"); [done|].
  destruct (PyStr.startswith line_strip "set_var"); [|done].
  destruct (PyStr.fields line_strip) as [|w [|var [|val [|]]]]; try done.
  destruct (PyStr.int val); [|done].
  unfold bind, m_set. by destruct (Env_set _ _ _ _).
Qed.

Lemma run_line_answers line env st : (run_line line env st).2 ≠ OutOfFuel.
Proof.
  unfold run_line. destruct (is_magic line); [done|].
  apply bind_answers; [by destruct (parse_line line)|].
  intros node st' Hp.
  assert (Hparse : parse_line line = inl node ∧ st' = st).
  { destruct (parse_line line); [|done]. by injection Hp as -> ->. }
  destruct Hparse as [Hparse ->].
  apply bind_answers; [|intros; apply superuser_command_answers].
  destruct node as [n|]; [|done].
  apply bind_answers; [|done]. by apply (parsed_node_answers line).
Qed.

(** [run] is total: it returns the environment or raises. *)
Lemma run_answers source env st : (run source env st).2 ≠ OutOfFuel.
Proof.
  assert (Hlines : ∀ lines e st', (run_lines lines e st').2 ≠ OutOfFuel).
  { induction lines as [|line rest IH]; intros e st'; simpl; [done|].
    unfold bind. pose proof (run_line_answers line e st') as Hl.
    destruct (run_line line e st') as [sa [[]|x|]]; simpl in *; done. }
  unfold run, bind. destruct env as [a|]; simpl.
  - specialize (Hlines (PyStr.splitlines source) a st).
    by destruct (run_lines _ a st) as [sa [[]|x|]].
  - specialize (Hlines (PyStr.splitlines source) (length (st_heap st))
                  (with_heap st (st_heap st ++ [Env_init None]))).
    by destruct (run_lines _ _ _) as [sa [[]|x|]].
Qed.

(** Every state a run reaches from a well-formed store is well formed. *)
Lemma run_wf source env st :
  wf_heap (st_heap st) → valid env st →
  wf_heap (st_heap (run source (Some env) st).1).
Proof.
  intros Hwf Hv.
  assert (Hline : ∀ line st', wf_heap (st_heap st') → valid env st' →
            wf_heap (st_heap (run_line line env st').1) ∧
            valid env (run_line line env st').1).
  { intros line st' Hwf' Hv'. destruct (is_magic line) eqn:Hm.
    - rewrite run_line_magic by done. simpl. split.
      + intros a p. rewrite parent_update by done. apply Hwf'.
      + unfold valid in *. simpl. by rewrite length_insert.
    - pose proof (keeps_run_line line env Hm st' Hv') as He.
      split; [by apply (ev_wf _ _ He)|by eapply valid_evolves]. }
  assert (Hlines : ∀ lines st', wf_heap (st_heap st') → valid env st' →
            wf_heap (st_heap (run_lines lines env st').1)).
  { induction lines as [|line rest IH]; intros st' Hwf' Hv'; simpl; [done|].
    unfold bind. destruct (Hline line st' Hwf' Hv') as [Hw1 Hv1].
    destruct (run_line line env st') as [sa [[]|x|]]; simpl in *; auto. }
  unfold run, bind. simpl.
  specialize (Hlines (PyStr.splitlines source) st Hwf Hv).
  by destruct (run_lines _ env st) as [sa [[]|x|]].
Qed.

End Answers.

(** ** The theorems at work on concrete programs *)

Lemma two_scopes_wf : wf_heap two_scopes.
Proof. intros [|[|a]] p; simpl; intros [= <-]. lia. Qed.

Lemma singleton_heap_wf (e : Env) : parent e = None → wf_heap [e].
Proof. intros He [|a] p; simpl; [by rewrite He|done]. Qed.

(** Reading [x] in the child of [two_scopes] finds the parent's binding;
    the chain is the child, then the root. *)
Lemma Env_get_nearest_scope_example :
  ∃ chain,
    scope_chain two_scopes 1%nat chain ∧
    (∀ v, Env_get two_scopes 1%nat "x" = inl v ↔
          nearest_binding two_scopes chain "x" = Some v) ∧
    (∀ e, Env_get two_scopes 1%nat "x" = inr e ↔
          e = not_defined "Variable" "x" ∧
          ∀ a, a ∈ chain → vars (two_scopes !!! a) !! "x" = None).
Proof.
  apply (Env_get_nearest_scope two_scopes 1%nat "x").
  - exact two_scopes_wf.
  - simpl. lia.
Defined.

(** Declaring [x] in the child of [two_scopes] shadows the parent's [x]
    there and leaves the parent as it was. *)
Lemma declare_writes_local_scope_only_example :
  Env_get (Env_declare two_scopes 1%nat "x" (VInt 7)) 1%nat "x" = inl (VInt 7) ∧
  vars (Env_declare two_scopes 1%nat "x" (VInt 7) !!! 1%nat) =
    <["x" := VInt 7]> (vars (two_scopes !!! 1%nat)) ∧
  Env_declare two_scopes 1%nat "x" (VInt 7) !!! 0%nat = two_scopes !!! 0%nat ∧
  Env_get (Env_declare two_scopes 1%nat "x" (VInt 7)) 0%nat "x" = inl (VInt 1) ∧
  (∀ y, Env_get (Env_declare two_scopes 1%nat "x" (VInt 7)) 0%nat y =
        Env_get two_scopes 0%nat y) ∧
  (∀ a, a ≠ 1%nat →
        Env_declare two_scopes 1%nat "x" (VInt 7) !!! a = two_scopes !!! a).
Proof.
  apply (declare_writes_local_scope_only two_scopes 1%nat 0%nat "x" (VInt 7) (VInt 1)).
  - exact two_scopes_wf.
  - reflexivity.
  - reflexivity.
Defined.

(** [0 && (let seen = "yes")]: the left operand is false, the right one
    is evaluated all the same (the binding is made), and the value is the
    left operand, an integer. *)
Lemma logical_operators_example :
  eval (H:=bare_host) 3
    (BinOp (Number 0) "&&" (Let "seen" (String "yes"))) 0%nat (root_state 1 false) =
  (mkState [mkEnv {[ "x" := VInt 1; "seen" := VStr "yes" ]} ∅ ∅ None false] [],
   Ret (VInt 0)).
Proof.
  apply (logical_operators_evaluate_both_operands (H:=bare_host) 2
           (Number 0) (Let "seen" (String "yes")) "&&" 0%nat
           (root_state 1 false) (root_state 1 false)
           (mkState [mkEnv {[ "x" := VInt 1; "seen" := VStr "yes" ]} ∅ ∅ None false] [])
           (VInt 0) (Ret VNone)).
  - by left.
  - reflexivity.
  - vm_compute. reflexivity.
Defined.

(** [f(2, 3, 4)] with [f(a, b)]: the third argument is dropped, the
    child at address 1 binds [a] and [b], and the body runs there. *)
Lemma function_call_example :
  eval (H:=bare_host) 4
    (FuncCall "f" [Number 2; Number 3; Number 4]) 0%nat adder_state =
  exec_body (eval (H:=bare_host) 3) adder_body 1%nat VNone
    (put 1%nat (mkEnv (bindings ∅ [("a", VInt 2); ("b", VInt 3)]) ∅ ∅ (Some 0%nat) false)
       (with_heap adder_state (st_heap adder_state ++ [Env_init (Some 0%nat)]))).
Proof.
  destruct (function_call_binds_and_runs_body (H:=bare_host) 3 "f"
              [Number 2; Number 3; Number 4] 0%nat ["a"; "b"] adder_body
              adder_state
              (with_heap adder_state (st_heap adder_state ++ [Env_init (Some 0%nat)]))
              [VInt 2; VInt 3]) as (_ & _ & Hcall & _).
  - apply singleton_heap_wf. reflexivity.
  - unfold valid. simpl. lia.
  - reflexivity.
  - reflexivity.
  - exact Hcall.
Defined.

Example function_call_result :
  eval (H:=bare_host) 4
    (FuncCall "f" [Number 2; Number 3; Number 4]) 0%nat adder_state =
  (mkState
     [mkEnv {[ "g" := VInt 0 ]} {[ "f" := (["a"; "b"], adder_body) ]} ∅ None false;
      mkEnv {[ "a" := VInt 2; "b" := VInt 3 ]} ∅ ∅ (Some 0%nat) false]
     [[PValue (VInt 2)]],
   Ret (VInt 5)).
Proof. vm_compute. reflexivity. Qed.

(** The token in lower case, then a command, then another run. *)
Lemma superuser_mode_persists_example :
  superuser (st_heap (run_line (H:=bare_host) "sudo%20init%20superusermode" 0%nat
                        (root_state 1 false)).1 !!! 0%nat) = true ∧
  superuser (st_heap (run_lines (H:=bare_host)
                        ["sudo%20init%20superusermode"; "set_var x"] 0%nat
                        (root_state 1 false)).1 !!! 0%nat) = true ∧
  superuser
    (st_heap (session (H:=bare_host) ["let y = 2"; "reveal_vars"] 0%nat
                (run_lines (H:=bare_host)
                   ["sudo%20init%20superusermode"; "set_var x"] 0%nat
                   (root_state 1 false)).1) !!! 0%nat) = true ∧
  (∀ fuel node scope a st',
     valid scope st' → valid a st' →
     superuser (st_heap (eval (H:=bare_host) fuel node scope st').1 !!! a) =
       superuser (st_heap st' !!! a)).
Proof.
  apply (superuser_mode_persists (H:=bare_host) "sudo%20init%20superusermode"
           ["set_var x"] ["let y = 2"; "reveal_vars"] 0%nat (root_state 1 false)).
  - unfold valid. simpl. lia.
  - reflexivity.
Defined.

(** A run with no token: the two command lines change nothing. *)
Lemma superuser_commands_ignored_example :
  run (H:=bare_host) ignored_commands_source None (mkState [] []) =
    (let* e := m_new_env None in
     run_lines (H:=bare_host)
       (filter (λ l, is_superuser_command l = false)
               (PyStr.splitlines ignored_commands_source)) e ;;
     ret e) (mkState [] [])
  ∧ (∀ line, line ∈ PyStr.splitlines ignored_commands_source →
      is_superuser_command line = true →
      parse_line line = inl None ∧
      ∀ e st', superuser (st_heap st' !!! e) = false →
               run_line (H:=bare_host) line e st' = (st', Ret tt))
  ∧ (∀ e, e = 0%nat →
      valid e (run (H:=bare_host) ignored_commands_source None (mkState [] [])).1 ∧
      superuser
        (st_heap (run (H:=bare_host) ignored_commands_source None (mkState [] [])).1
           !!! e) = false).
Proof.
  apply (superuser_commands_ignored_without_token (H:=bare_host)
           ignored_commands_source None (mkState [] [])).
  - intros line Hin. vm_compute (PyStr.splitlines _) in Hin.
    repeat (apply elem_of_cons in Hin as [->|Hin]; [reflexivity|]).
    by apply elem_of_nil in Hin.
  - intros a Ha. discriminate.
Defined.

Example superuser_commands_ignored_result :
  run (H:=bare_host) ignored_commands_source None (mkState [] []) =
  (mkState [mkEnv {[ "x" := VInt 1 ]} ∅ ∅ None false] [[PValue (VInt 1)]], Ret 0%nat).
Proof. vm_compute. reflexivity. Qed.

(** C8, as stated, fails: the text of a run may hold no token line and
    its commands take effect all the same, when an earlier run on the
    environment has processed the token.  Here the first run sees the
    token; the second, over [commands_source], prints the variables and
    rewrites [x]. *)
Lemma commands_take_effect_after_an_earlier_token :
  (∀ line, line ∈ PyStr.splitlines commands_source → is_magic line = false) ∧
  run (H:=bare_host) "SUDO%20INIT%20SUPERUSERMODE" (Some 0%nat) (root_state 1 false) =
    (mkState [mkEnv {[ "x" := VInt 1 ]} ∅ ∅ None true]
             [[PText "[SUPERUSER MODE ACTIVATED]"]],
     Ret 0%nat) ∧
  run (H:=bare_host) commands_source (Some 0%nat)
    (mkState [mkEnv {[ "x" := VInt 1 ]} ∅ ∅ None true]
             [[PText "[SUPERUSER MODE ACTIVATED]"]]) =
    (mkState [mkEnv {[ "x" := VInt 5 ]} ∅ ∅ None true]
             [[PText "[SUPERUSER MODE ACTIVATED]"];
              [PText "[SUPERUSER] Variables:"; PVars {[ "x" := VInt 1 ]}];
              [PText "[SUPERUSER] x set to 5"]],
     Ret 0%nat).
Proof.
  split; [|split; vm_compute; reflexivity].
  intros line Hin. vm_compute (PyStr.splitlines _) in Hin.
  repeat (apply elem_of_cons in Hin as [->|Hin]; [reflexivity|]).
  by apply elem_of_nil in Hin.
Qed.

(** In superuser mode, [set_var x] lacks its value: the run stops there
    with [ValueError] and the line after it is not reached. *)
Lemma malformed_set_var_example :
  ((run_line (H:=bare_host) "set_var x" 0%nat (root_state 1 true)).2 = Raise ValueError ↔
   set_var_arguments "set_var x" = None) ∧
  (set_var_arguments "set_var x" = None →
   run_line (H:=bare_host) "set_var x" 0%nat (root_state 1 true) =
     (root_state 1 true, Raise ValueError) ∧
   run_lines (H:=bare_host) ["set_var x"; "let x = 2"] 0%nat (root_state 1 true) =
     (root_state 1 true, Raise ValueError)).
Proof.
  apply (malformed_set_var_raises (H:=bare_host) "set_var x" ["let x = 2"] 0%nat
           (root_state 1 true)).
  - reflexivity.
  - reflexivity.
Defined.

(** C9, as stated, fails: in superuser mode the line [set_variable x 5]
    begins with [set_var] and is not the command word, a name and an
    integer, yet it raises nothing and sets [x]; and the error of the
    malformed line [set_var x] does not abort that statement only: the
    [let] on the next line of the same text is never run. *)
Lemma set_var_command_word_is_not_checked :
  (PyStr.startswith (PyStr.strip "set_variable x 5") "set_var" = true ∧
   is_set_var_form "set_variable x 5" = false ∧
   run_line (H:=bare_host) "set_variable x 5" 0%nat (root_state 1 true) =
     (mkState [mkEnv {[ "x" := VInt 5 ]} ∅ ∅ None true]
              [[PText "[SUPERUSER] x set to 5"]],
      Ret tt)) ∧
  (run (H:=bare_host) ("set_var x" +:+ LF +:+ "let y = 2") (Some 0%nat)
     (root_state 1 true) = (root_state 1 true, Raise ValueError) ∧
   run (H:=bare_host) "let y = 2" (Some 0%nat) (root_state 1 true) =
     (mkState [mkEnv {[ "x" := VInt 1; "y" := VInt 2 ]} ∅ ∅ None true] [],
      Ret 0%nat)).
Proof. vm_compute. repeat split. Qed.

(** Reading an unbound name on the right of a [let] changes nothing. *)
Lemma binding_waits_for_expression_example :
  eval (H:=bare_host) 2 (Let "y" (Var "nope")) 0%nat (root_state 1 false) =
    (root_state 1 false, Raise (not_defined "Variable" "nope")) ∧
  eval (H:=bare_host) 2 (Assign "y" (Var "nope")) 0%nat (root_state 1 false) =
    (root_state 1 false, Raise (not_defined "Variable" "nope")) ∧
  (effect_free (Var "nope") = true → root_state 1 false = root_state 1 false).
Proof.
  apply (binding_waits_for_expression (H:=bare_host) 1 "y" (Var "nope") 0%nat
           (root_state 1 false) (root_state 1 false)
           (not_defined "Variable" "nope")).
  reflexivity.
Defined.

(** C10, as stated, fails: the expression of [let r = f()] raises
    ([f] reads an unbound name), but [f] has assigned [g] before: the
    binding of [g] is overwritten. *)
Lemma failed_expression_leaves_its_changes :
  ∃ st' e,
    eval (H:=bare_host) 3 (FuncCall "f" []) 0%nat (failing_state 0) = (st', Raise e) ∧
    eval (H:=bare_host) 4 (Let "r" (FuncCall "f" [])) 0%nat (failing_state 0) =
      (st', Raise e) ∧
    vars (st_heap (failing_state 0) !!! 0%nat) !! "g" = Some (VInt 0) ∧
    vars (st_heap st' !!! 0%nat) !! "g" = Some (VInt 1).
Proof.
  eexists _, _. split; [vm_compute; reflexivity|].
  split; [vm_compute; reflexivity|]. split; reflexivity.
Qed.

(** * Further properties *)

(** ** The environment methods *)

Lemma field_update {A} (f : Env → A) (h : list Env) (a : nat) (e : Env) :
  f e = f (h !!! a) → ∀ b, f (<[a := e]> h !!! b) = f (h !!! b).
Proof.
  intros Hf b. destruct (decide (a = b)) as [<-|Hne].
  - destruct (decide (a < length h)%nat).
    + by rewrite list_lookup_total_insert_eq.
    + by rewrite list_insert_ge by lia.
  - by rewrite list_lookup_total_insert_ne.
Qed.

Lemma bound_is_live (h : list Env) (a : nat) (name : string) :
  vars (h !!! a) !! name ≠ None → (a < length h)%nat.
Proof.
  intros Hb. destruct (decide (a < length h)%nat) as [|Hge]; [done|].
  rewrite lookup_total_dangling in Hb by lia. done.
Qed.

Lemma nearest_scope_None (h : list Env) (chain : list nat) (name : string) :
  nearest_scope h chain name = None ↔
  ∀ a, a ∈ chain → vars (h !!! a) !! name = None.
Proof.
  induction chain as [|a rest IH]; simpl.
  - split; [intros _ a Ha; by apply elem_of_nil in Ha | done].
  - destruct (vars (h !!! a) !! name) as [v|] eqn:Hv.
    + split; [done|]. intros Hall.
      specialize (Hall a (list_elem_of_here _ _)). congruence.
    + rewrite IH. split.
      * intros Hall b Hb. apply elem_of_cons in Hb as [->|Hb]; auto.
      * intros Hall b Hb. apply Hall. by apply list_elem_of_further.
Qed.

Lemma set_from_chain (h : list Env) (name : string) (v : value) :
  wf_heap h →
  ∀ depth self chain, (self < depth)%nat → scope_chain h self chain →
    set_from depth h self name v =
      match nearest_scope h chain name with
      | Some a => inl (write_var h a name v)
      | None => inr (not_defined "Variable" name)
      end.
Proof.
  intros Hwf depth. induction depth as [|d IH]; intros self chain Hlt Hc; [lia|].
  simpl. inversion Hc as [a Ha|a p l Ha Hl]; subst; simpl;
    destruct (vars (h !!! self) !! name) as [w|]; try done; rewrite Ha; [done|].
  apply IH; [|done]. specialize (Hwf _ _ Ha). lia.
Qed.

(** X1. [set(name, value)] rewrites the binding of the nearest scope of
    the chain that already has the name, and nothing else in the store;
    when no scope of the chain has it, it raises the "not defined"
    [NameError] and the store is not touched: it never creates a
    binding. *)
Theorem Env_set_nearest_scope (h : list Env) (self : nat) (name : string) (v : value) :
  wf_heap h → (self < length h)%nat →
  ∃ chain,
    scope_chain h self chain ∧
    (∀ h', Env_set h self name v = inl h' ↔
           ∃ a, nearest_scope h chain name = Some a ∧ h' = write_var h a name v) ∧
    (∀ e, Env_set h self name v = inr e ↔
          e = not_defined "Variable" name ∧
          ∀ a, a ∈ chain → vars (h !!! a) !! name = None) ∧
    (∀ h' b y, Env_set h self name v = inl h' →
               is_Some (vars (h' !!! b) !! y) ↔ is_Some (vars (h !!! b) !! y)).
Proof.
  intros Hwf Hlt. destruct (scope_chain_exists h Hwf self) as [chain Hc].
  exists chain. split; [done|].
  unfold Env_set. rewrite (set_from_chain h name v Hwf _ _ chain Hlt Hc).
  pose proof (nearest_scope_None h chain name) as HN.
  assert (Hfound : ∀ a, nearest_scope h chain name = Some a →
            vars (h !!! a) !! name ≠ None).
  { clear. induction chain as [|c rest IH]; intros a; simpl; [done|].
    destruct (vars (h !!! c) !! name) eqn:Hv; [|apply IH].
    intros [= <-]. congruence. }
  destruct (nearest_scope h chain name) as [a|] eqn:Hn.
  - split; [|split].
    + intros h'. split; [intros [= <-]; eauto|]. by intros (? & [= <-] & ->).
    + intros e. split; [done|]. intros [_ Hall]. apply HN in Hall. done.
    + intros h' b y [= <-]. unfold write_var.
      destruct (decide (a = b)) as [<-|Hne];
        [|by rewrite list_lookup_total_insert_ne].
      rewrite list_lookup_total_insert_eq by (by eapply bound_is_live, Hfound).
      simpl. destruct (decide (name = y)) as [<-|Hy].
      * rewrite lookup_insert_eq. split; [|by eauto].
        intros _. specialize (Hfound a eq_refl).
        by destruct (vars (h !!! a) !! name); [eauto|].
      * by rewrite lookup_insert_ne.
  - split; [|split]; [by intros h'; split; [|intros (? & ? & ?)]| |done].
    intros e. split.
    + intros [= <-]. split; [done|]. by apply HN.
    + by intros [-> _].
Qed.

(** Lookups read the mappings and the parents only. *)
Lemma get_from_ext (h h' : list Env) (name : string) :
  (∀ c, vars (h' !!! c) !! name = vars (h !!! c) !! name) →
  (∀ c, parent (h' !!! c) = parent (h !!! c)) →
  ∀ depth self, get_from depth h' self name = get_from depth h self name.
Proof.
  intros Hv Hp depth. induction depth as [|d IH]; intros self; [done|].
  simpl. rewrite Hv, Hp. destruct (vars (h !!! self) !! name); [done|].
  destruct (parent (h !!! self)); [apply IH|done].
Qed.

Lemma get_func_from_ext (h h' : list Env) (name : string) :
  (∀ c, funcs (h' !!! c) !! name = funcs (h !!! c) !! name) →
  (∀ c, parent (h' !!! c) = parent (h !!! c)) →
  ∀ depth self, get_func_from depth h' self name = get_func_from depth h self name.
Proof.
  intros Hv Hp depth. induction depth as [|d IH]; intros self; [done|].
  simpl. rewrite Hv, Hp. destruct (funcs (h !!! self) !! name); [done|].
  destruct (parent (h !!! self)); [apply IH|done].
Qed.

Lemma get_class_from_ext (h h' : list Env) (name : string) :
  (∀ c, classes (h' !!! c) !! name = classes (h !!! c) !! name) →
  (∀ c, parent (h' !!! c) = parent (h !!! c)) →
  ∀ depth self, get_class_from depth h' self name = get_class_from depth h self name.
Proof.
  intros Hv Hp depth. induction depth as [|d IH]; intros self; [done|].
  simpl. rewrite Hv, Hp. destruct (classes (h !!! self) !! name); [done|].
  destruct (parent (h !!! self)); [apply IH|done].
Qed.

Lemma write_var_length h a name v : length (write_var h a name v) = length h.
Proof. unfold write_var. by rewrite length_insert. Qed.

Lemma write_var_other_name h a name v c y :
  y ≠ name → vars (write_var h a name v !!! c) !! y = vars (h !!! c) !! y.
Proof.
  intros Hy. unfold write_var. destruct (decide (a = c)) as [<-|Hne];
    [|by rewrite list_lookup_total_insert_ne].
  destruct (decide (a < length h)%nat).
  - rewrite list_lookup_total_insert_eq by done. simpl. by rewrite lookup_insert_ne.
  - by rewrite list_insert_ge by lia.
Qed.

Lemma write_var_parent h a name v c :
  parent (write_var h a name v !!! c) = parent (h !!! c).
Proof. by apply (field_update parent). Qed.

Lemma write_var_funcs h a name v c :
  funcs (write_var h a name v !!! c) = funcs (h !!! c).
Proof. by apply (field_update funcs). Qed.

Lemma write_var_classes h a name v c :
  classes (write_var h a name v !!! c) = classes (h !!! c).
Proof. by apply (field_update classes). Qed.

Lemma write_var_superuser h a name v c :
  superuser (write_var h a name v !!! c) = superuser (h !!! c).
Proof. by apply (field_update superuser). Qed.

Lemma write_var_self h a name v :
  (a < length h)%nat → vars (write_var h a name v !!! a) !! name = Some v.
Proof.
  intros Hlt. unfold write_var. rewrite list_lookup_total_insert_eq by done.
  simpl. apply lookup_insert_eq.
Qed.

Lemma set_from_writes depth h self name v h' :
  set_from depth h self name v = inl h' →
  ∃ a, vars (h !!! a) !! name ≠ None ∧ h' = write_var h a name v.
Proof. apply set_from_updates. Qed.

Lemma set_from_then_get depth h self name v h' :
  set_from depth h self name v = inl h' → get_from depth h' self name = inl v.
Proof.
  revert self. induction depth as [|d IH]; intros self; simpl; [done|].
  destruct (vars (h !!! self) !! name) as [w|] eqn:Hw.
  - intros [= <-].
    fold (write_var h self name v).
    rewrite write_var_self; [done|]. eapply bound_is_live. by rewrite Hw.
  - destruct (parent (h !!! self)) as [p|] eqn:Hp; [|done].
    intros Hset. pose proof (IH _ Hset) as Hget.
    apply set_from_writes in Hset as (a & Ha & ->).
    assert (Hne : a ≠ self) by congruence.
    unfold write_var at 1 2. rewrite list_lookup_total_insert_ne by done.
    by rewrite Hw, Hp.
Qed.

(** X2. After a successful [set(name, v)], [get(name)] from the same
    environment returns [v]; what any environment reads for any other
    name, and every function lookup, is as before. *)
Theorem Env_set_then_get (h h' : list Env) (self : nat) (name : string) (v : value) :
  Env_set h self name v = inl h' →
  Env_get h' self name = inl v ∧
  (∀ b y, y ≠ name → Env_get h' b y = Env_get h b y) ∧
  (∀ b f, Env_get_func h' b f = Env_get_func h b f).
Proof.
  unfold Env_set. intros Hset.
  pose proof (set_from_then_get _ _ _ _ _ _ Hset) as Hget.
  apply set_from_writes in Hset as (a & Ha & ->).
  unfold Env_get, Env_get_func. rewrite write_var_length. split; [done|]. split.
  - intros b y Hy. apply get_from_ext.
    + intros c. by apply write_var_other_name.
    + intros c. apply write_var_parent.
  - intros b f. apply get_func_from_ext.
    + intros c. by rewrite write_var_funcs.
    + intros c. apply write_var_parent.
Qed.

(** X3. [declare(name, v)] on a live environment makes [get(name)] there
    return [v] whatever the parents bind; a second [declare] of the same
    name replaces the first; no environment reads another name
    differently, and function lookups are unchanged. *)
Theorem Env_declare_then_get (h : list Env) (self : nat) (name : string) (v w : value) :
  (self < length h)%nat →
  Env_get (Env_declare h self name v) self name = inl v ∧
  Env_declare (Env_declare h self name v) self name w = Env_declare h self name w ∧
  (∀ b y, y ≠ name → Env_get (Env_declare h self name v) b y = Env_get h b y) ∧
  (∀ b f, Env_get_func (Env_declare h self name v) b f = Env_get_func h b f).
Proof.
  intros Hlt. change (Env_declare h self name v) with (write_var h self name v).
  unfold Env_get, Env_get_func. rewrite write_var_length.
  split; [|split; [|split]].
  - destruct (length h) as [|n] eqn:Hn; [lia|]. simpl.
    rewrite write_var_self by lia. done.
  - unfold Env_declare, write_var.
    rewrite list_lookup_total_insert_eq by done. simpl.
    rewrite list_insert_insert_eq. by rewrite insert_insert_eq.
  - intros b y Hy. apply get_from_ext.
    + intros c. by apply write_var_other_name.
    + intros c. apply write_var_parent.
  - intros b f. apply get_func_from_ext.
    + intros c. by rewrite write_var_funcs.
    + intros c. apply write_var_parent.
Qed.

Lemma get_func_from_chain (h : list Env) (name : string) :
  wf_heap h →
  ∀ depth self chain, (self < depth)%nat → scope_chain h self chain →
    get_func_from depth h self name =
      match nearest_function h chain name with
      | Some f => inl f
      | None => inr (not_defined "Function" name)
      end.
Proof.
  intros Hwf depth. induction depth as [|d IH]; intros self chain Hlt Hc; [lia|].
  simpl. inversion Hc as [a Ha|a p l Ha Hl]; subst; simpl;
    destruct (funcs (h !!! self) !! name) as [f|]; try done; rewrite Ha; [done|].
  apply IH; [|done]. specialize (Hwf _ _ Ha). lia.
Qed.

Lemma get_class_from_chain (h : list Env) (name : string) :
  wf_heap h →
  ∀ depth self chain, (self < depth)%nat → scope_chain h self chain →
    get_class_from depth h self name =
      match nearest_class h chain name with
      | Some c => inl c
      | None => inr (not_defined "Class" name)
      end.
Proof.
  intros Hwf depth. induction depth as [|d IH]; intros self chain Hlt Hc; [lia|].
  simpl. inversion Hc as [a Ha|a p l Ha Hl]; subst; simpl;
    destruct (classes (h !!! self) !! name) as [f|]; try done; rewrite Ha; [done|].
  apply IH; [|done]. specialize (Hwf _ _ Ha). lia.
Qed.

(** X4. [get_func(name)] follows the same chain as [get]: it returns the
    definition of the nearest scope that defines the function and raises
    the "not defined" [NameError] for functions exactly when no scope
    of the chain defines it; the variables of the scopes play no part. *)
Theorem Env_get_func_nearest_scope (h : list Env) (self : nat) (name : string) :
  wf_heap h → (self < length h)%nat →
  ∃ chain,
    scope_chain h self chain ∧
    (∀ f, Env_get_func h self name = inl f ↔ nearest_function h chain name = Some f) ∧
    (∀ e, Env_get_func h self name = inr e ↔
          e = not_defined "Function" name ∧
          ∀ a, a ∈ chain → funcs (h !!! a) !! name = None).
Proof.
  intros Hwf Hlt. destruct (scope_chain_exists h Hwf self) as [chain Hc].
  exists chain. split; [done|].
  unfold Env_get_func. rewrite (get_func_from_chain h name Hwf _ _ chain Hlt Hc).
  assert (HN : nearest_function h chain name = None ↔
               ∀ a, a ∈ chain → funcs (h !!! a) !! name = None).
  { clear. induction chain as [|a rest IH]; simpl.
    - split; [intros _ a Ha; by apply elem_of_nil in Ha | done].
    - destruct (funcs (h !!! a) !! name) as [v|] eqn:Hv.
      + split; [done|]. intros Hall.
        specialize (Hall a (list_elem_of_here _ _)). congruence.
      + rewrite IH. split.
        * intros Hall b Hb. apply elem_of_cons in Hb as [->|Hb]; auto.
        * intros Hall b Hb. apply Hall. by apply list_elem_of_further. }
  destruct (nearest_function h chain name) as [f|]; split.
  - intros g. split; congruence.
  - intros e. split; [done|]. intros [_ Hall]. apply HN in Hall. done.
  - intros g. split; done.
  - intros e. split.
    + intros [= <-]. split; [done|]. by apply HN.
    + by intros [-> _].
Qed.

(** X5. [define_func] then [get_func] gives back the parameters and the
    body; defining a function again replaces it; variable lookups and the
    lookups of other functions are unchanged, from every environment. *)
Theorem Env_define_func_then_get_func
  (h : list Env) (self : nat) (name : string)
  (args args' : list string) (body body' : list Node) :
  (self < length h)%nat →
  Env_get_func (Env_define_func h self name args body) self name = inl (args, body) ∧
  Env_define_func (Env_define_func h self name args body) self name args' body' =
    Env_define_func h self name args' body' ∧
  (∀ b g, g ≠ name →
     Env_get_func (Env_define_func h self name args body) b g = Env_get_func h b g) ∧
  (∀ b y, Env_get (Env_define_func h self name args body) b y = Env_get h b y).
Proof.
  intros Hlt. unfold Env_get_func, Env_get, Env_define_func.
  rewrite length_insert. split; [|split; [|split]].
  - destruct (length h) as [|n] eqn:Hn; [lia|]. simpl.
    rewrite list_lookup_total_insert_eq by lia. simpl. by rewrite lookup_insert_eq.
  - rewrite list_lookup_total_insert_eq by done. simpl.
    rewrite list_insert_insert_eq. by rewrite insert_insert_eq.
  - intros b g Hg. apply get_func_from_ext.
    + intros c. destruct (decide (self = c)) as [<-|Hne];
        [|by rewrite list_lookup_total_insert_ne].
      rewrite list_lookup_total_insert_eq by done. simpl. by rewrite lookup_insert_ne.
    + intros c. by apply (field_update parent).
  - intros b y. apply get_from_ext.
    + intros c. by rewrite (field_update vars).
    + intros c. by apply (field_update parent).
Qed.

(** X6. Classes have the same contract: [define_class] then [get_class]
    gives the class back, and [get_class] returns the class of the
    nearest scope that defines the name, raising the "not defined"
    [NameError] for classes exactly when no scope of the chain does. *)
Theorem Env_get_class_nearest_scope
  (h : list Env) (self : nat) (name : string) (cls : value) :
  wf_heap h → (self < length h)%nat →
  Env_get_class (Env_define_class h self name cls) self name = inl cls ∧
  ∃ chain,
    scope_chain h self chain ∧
    (∀ c, Env_get_class h self name = inl c ↔ nearest_class h chain name = Some c) ∧
    (∀ e, Env_get_class h self name = inr e ↔
          e = not_defined "Class" name ∧
          ∀ a, a ∈ chain → classes (h !!! a) !! name = None).
Proof.
  intros Hwf Hlt. split.
  { unfold Env_get_class, Env_define_class. rewrite length_insert.
    destruct (length h) as [|n] eqn:Hn; [lia|]. simpl.
    rewrite list_lookup_total_insert_eq by lia. simpl. by rewrite lookup_insert_eq. }
  destruct (scope_chain_exists h Hwf self) as [chain Hc].
  exists chain. split; [done|].
  unfold Env_get_class. rewrite (get_class_from_chain h name Hwf _ _ chain Hlt Hc).
  assert (HN : nearest_class h chain name = None ↔
               ∀ a, a ∈ chain → classes (h !!! a) !! name = None).
  { clear. induction chain as [|a rest IH]; simpl.
    - split; [intros _ a Ha; by apply elem_of_nil in Ha | done].
    - destruct (classes (h !!! a) !! name) as [v|] eqn:Hv.
      + split; [done|]. intros Hall.
        specialize (Hall a (list_elem_of_here _ _)). congruence.
      + rewrite IH. split.
        * intros Hall b Hb. apply elem_of_cons in Hb as [->|Hb]; auto.
        * intros Hall b Hb. apply Hall. by apply list_elem_of_further. }
  destruct (nearest_class h chain name) as [f|]; split.
  - intros g. split; congruence.
  - intros e. split; [done|]. intros [_ Hall]. apply HN in Hall. done.
  - intros g. split; done.
  - intros e. split.
    + intros [= <-]. split; [done|]. by apply HN.
    + by intros [-> _].
Qed.

(** ** Invariants of evaluation *)

(** A relation between states that every primitive step respects is
    respected by evaluation. *)
Section Invariant.
Context `{Host}.
Variable R : State → State → Prop.
Hypothesis R_refl : ∀ st, R st st.
Hypothesis R_trans : ∀ st1 st2 st3, R st1 st2 → R st2 st3 → R st1 st3.
Hypothesis R_write : ∀ st a name v,
  R st (with_heap st (write_var (st_heap st) a name v)).
Hypothesis R_define : ∀ st a name args body,
  R st (with_heap st (Env_define_func (st_heap st) a name args body)).
Hypothesis R_new : ∀ st p,
  R st (with_heap st (st_heap st ++ [Env_init p])).
Hypothesis R_print : ∀ st items,
  R st (mkState (st_heap st) (st_out st ++ [items])).

Definition respects {A} (m : M A) : Prop := ∀ st, R st (m st).1.

Lemma respects_ret {A} (a : A) : respects (ret a).
Proof. intros st. apply R_refl. Qed.

Lemma respects_lift {A} (r : A + exn) : respects (lift r).
Proof. intros st. destruct r; apply R_refl. Qed.

Lemma respects_bind {A B} (m : M A) (k : A → M B) :
  respects m → (∀ a, respects (k a)) → respects (bind m k).
Proof.
  intros Hm Hk st. specialize (Hm st). unfold bind.
  destruct (m st) as [st1 [a|e|]]; simpl in *; [|done..].
  eapply R_trans; [done|]. apply Hk.
Qed.

Lemma respects_get env name : respects (m_get env name).
Proof. intros st. unfold m_get. destruct (Env_get _ _ _); apply R_refl. Qed.

Lemma respects_declare env name v : respects (m_declare env name v).
Proof. intros st. apply R_write. Qed.

Lemma respects_set env name v : respects (m_set env name v).
Proof.
  intros st. unfold m_set, Env_set.
  destruct (set_from _ _ _ _ _) as [h'|e] eqn:Hset; simpl; [|apply R_refl].
  apply set_from_writes in Hset as (a & _ & ->). apply R_write.
Qed.

Lemma respects_define_func env name args body :
  respects (m_define_func env name args body).
Proof. intros st. apply R_define. Qed.

Lemma respects_print items : respects (m_print items).
Proof. intros st. apply R_print. Qed.

Lemma respects_new_env p : respects (m_new_env p).
Proof. intros st. apply R_new. Qed.

Section Loops.
Variable ev : Node → nat → M value.
Hypothesis Hev : ∀ node env, respects (ev node env).

Lemma respects_eval_elements elements env : respects (eval_elements ev elements env).
Proof.
  induction elements as [|el rest IH]; simpl; [apply respects_ret|].
  apply respects_bind; [apply Hev|]. intros v.
  apply respects_bind; [apply IH|]. intros vs. apply respects_ret.
Qed.

Lemma respects_eval_items items env d : respects (eval_items ev items env d).
Proof.
  revert d. induction items as [|[k v] rest IH]; intros d; simpl;
    [apply respects_ret|].
  apply respects_bind; [apply Hev|]. intros kv.
  apply respects_bind; [apply Hev|]. intros vv.
  apply respects_bind; [apply respects_lift|]. intros d'. apply IH.
Qed.

Lemma respects_exec_body body env r : respects (exec_body ev body env r).
Proof.
  revert r. induction body as [|stmt rest IH]; intros r; simpl;
    [apply respects_ret|].
  apply respects_bind; [apply Hev|]. intros v. apply IH.
Qed.

Lemma respects_bind_args pairs local_env env :
  respects (bind_args ev pairs local_env env).
Proof.
  induction pairs as [|[n a] rest IH]; simpl; [apply respects_ret|].
  apply respects_bind; [apply Hev|]. intros v.
  apply respects_bind; [apply respects_declare|]. intros _. apply IH.
Qed.

Lemma respects_eval_node node env : respects (eval_node ev node env).
Proof.
  destruct node; simpl;
    try (repeat first
           [ apply respects_ret | apply respects_lift | apply respects_get
           | apply respects_declare | apply respects_set
           | apply respects_define_func | apply respects_print
           | apply respects_eval_elements | apply respects_eval_items
           | apply respects_exec_body | apply Hev
           | apply respects_bind; [|intros ?]
           | match goal with
             | |- respects (if ?b then _ else _) => destruct b
             end ]; fail).
  intros st. simpl.
  destruct (Env_get_func (st_heap st) env name) as [[func_args func_body]|e].
  - revert st. change (respects
      (let* local_env := m_new_env (Some env) in
       bind_args ev (zip func_args args) local_env env ;;
       exec_body ev func_body local_env VNone)).
    apply respects_bind; [apply respects_new_env|]. intros local_env.
    apply respects_bind; [apply respects_bind_args|]. intros _.
    apply respects_exec_body.
  - destruct e; try apply R_refl. apply (respects_lift (host_import name)).
Qed.
End Loops.

Lemma respects_eval fuel : ∀ node env, respects (eval fuel node env).
Proof.
  induction fuel as [|k IH]; intros node env; simpl.
  - intros st. apply R_refl.
  - by apply respects_eval_node.
Qed.

(** The runner adds one primitive step, the switch to superuser mode. *)
Hypothesis R_superuser : ∀ st a,
  R st (with_heap st (<[a := set_superuser (st_heap st !!! a) true]> (st_heap st))).

Lemma respects_run_line line env : respects (run_line line env).
Proof.
  unfold run_line. destruct (is_magic line).
  - apply respects_bind; [intros st; apply R_superuser|].
    intros _. apply respects_print.
  - apply respects_bind; [apply respects_lift|]. intros node.
    apply respects_bind.
    + destruct node as [n|]; [|apply respects_ret].
      apply respects_bind; [apply respects_eval|]. intros _. apply respects_ret.
    + intros _ st. unfold superuser_command.
      destruct (superuser _); [|apply R_refl].
      destruct (PyStr.startswith _ "reveal_vars"); [apply R_print|].
      destruct (PyStr.startswith _ "set_var"); [|apply R_refl].
      destruct (PyStr.fields _) as [|w [|var [|val [|]]]]; try apply R_refl.
      destruct (PyStr.int val) as [n|]; [|apply R_refl].
      revert st. change (respects (m_set env var (VInt n) ;;
        m_print [PText ("[SUPERUSER] " +:+ var +:+ " set to " +:+ val)])).
      apply respects_bind; [apply respects_set|]. intros _. apply respects_print.
Qed.

Lemma respects_run_lines lines env : respects (run_lines lines env).
Proof.
  induction lines as [|line rest IH]; simpl; [apply respects_ret|].
  apply respects_bind; [apply respects_run_line|]. intros _. apply IH.
Qed.

Lemma respects_run source env : respects (run source env).
Proof.
  unfold run. apply respects_bind.
  - destruct env; [apply respects_ret|apply respects_new_env].
  - intros e. apply respects_bind; [apply respects_run_lines|].
    intros _. apply respects_ret.
Qed.

End Invariant.

Lemma nothing_lost_refl st : nothing_lost st st.
Proof. by intros a. Qed.

Lemma nothing_lost_trans st1 st2 st3 :
  nothing_lost st1 st2 → nothing_lost st2 st3 → nothing_lost st1 st3.
Proof.
  intros H12 H23 a. destruct (H12 a) as (V1 & F1 & C1).
  destruct (H23 a) as (V2 & F2 & C2). repeat split; [auto..|congruence].
Qed.

Lemma nothing_lost_update st a e :
  (∀ x, is_Some (vars (st_heap st !!! a) !! x) → is_Some (vars e !! x)) →
  (∀ f, is_Some (funcs (st_heap st !!! a) !! f) → is_Some (funcs e !! f)) →
  classes e = classes (st_heap st !!! a) →
  nothing_lost st (with_heap st (<[a := e]> (st_heap st))).
Proof.
  intros Hv Hf Hc b. simpl. destruct (decide (a = b)) as [<-|Hne];
    [|by rewrite list_lookup_total_insert_ne].
  destruct (decide (a < length (st_heap st))%nat).
  - by rewrite list_lookup_total_insert_eq.
  - by rewrite list_insert_ge by lia.
Qed.

Lemma nothing_lost_write st a name v :
  nothing_lost st (with_heap st (write_var (st_heap st) a name v)).
Proof.
  apply nothing_lost_update; simpl; try done.
  intros x Hx. destruct (decide (name = x)) as [<-|Hne].
  - rewrite lookup_insert_eq. eauto.
  - by rewrite lookup_insert_ne.
Qed.

Lemma nothing_lost_define st a name args body :
  nothing_lost st (with_heap st (Env_define_func (st_heap st) a name args body)).
Proof.
  apply nothing_lost_update; simpl; try done.
  intros x Hx. destruct (decide (name = x)) as [<-|Hne].
  - rewrite lookup_insert_eq. eauto.
  - by rewrite lookup_insert_ne.
Qed.

Lemma nothing_lost_new st p :
  nothing_lost st (with_heap st (st_heap st ++ [Env_init p])).
Proof.
  intros a. simpl. destruct (decide (a < length (st_heap st))%nat) as [Hlt|Hge].
  - by rewrite lookup_total_app_l.
  - rewrite (lookup_total_dangling (st_heap st)) by lia. simpl.
    repeat split; try (intros x [? Hx]; by rewrite lookup_empty in Hx).
    destruct (decide (a = length (st_heap st))) as [->|Hne].
    + rewrite lookup_total_app_r by done. by rewrite Nat.sub_diag.
    + rewrite lookup_total_dangling; [done|]. rewrite length_app. simpl. lia.
Qed.

(** X7. Nothing is ever unbound: whatever node is evaluated, in whatever
    scope and however the evaluation ends, every variable and every
    function bound in an environment before is still bound there after,
    and the classes of every environment are what they were; the same
    holds of a whole [run], superuser commands included. *)
Theorem nothing_is_ever_unbound `{Host} :
  (∀ fuel node env st, nothing_lost st (eval fuel node env st).1) ∧
  (∀ source env st, nothing_lost st (run source env st).1).
Proof.
  split.
  - intros fuel node env st.
    apply (respects_eval nothing_lost nothing_lost_refl nothing_lost_trans
             nothing_lost_write nothing_lost_define nothing_lost_new
             ltac:(by intros ? ? ?)).
  - intros source env st.
    apply (respects_run nothing_lost nothing_lost_refl nothing_lost_trans
             nothing_lost_write nothing_lost_define nothing_lost_new
             ltac:(by intros ? ? ?)).
    intros st' a. by apply nothing_lost_update.
Qed.

(** X8. Evaluation in a live scope, and a run on a live environment,
    keep the shape of the store: no environment disappears, no
    environment changes parent, a store in which parents precede their
    children stays so, and the lines already printed stay, in order, at
    the head of the output. *)
Theorem store_shape_is_kept `{Host} (env : nat) (st : State) :
  valid env st →
  (∀ fuel node,
     let st' := (eval fuel node env st).1 in
     (length (st_heap st) ≤ length (st_heap st'))%nat ∧
     (∀ a, (a < length (st_heap st))%nat →
           parent (st_heap st' !!! a) = parent (st_heap st !!! a)) ∧
     (wf_heap (st_heap st) → wf_heap (st_heap st')) ∧
     st_out st `prefix_of` st_out st') ∧
  (∀ source, wf_heap (st_heap st) → wf_heap (st_heap (run source (Some env) st).1)).
Proof.
  intros Hv. split.
  - intros fuel node st'. subst st'.
    destruct (eval_evolves fuel node env st Hv) as [L P S W O].
    repeat split; auto.
  - intros source Hwf. by apply run_wf.
Qed.

(** ** Statements and expressions *)

Lemma set_from_as_get_from depth h self name v :
  match get_from depth h self name with
  | inl _ => ∃ h', set_from depth h self name v = inl h'
  | inr e => set_from depth h self name v = inr e
  end.
Proof.
  revert self. induction depth as [|d IH]; intros self; simpl; [done|].
  destruct (vars (h !!! self) !! name); [eauto|].
  destruct (parent (h !!! self)) as [p|]; [apply IH|done].
Qed.

Section Statements.
Context `{Host}.

(** X9. [let x = e] followed by a read of [x] in the same scope gives
    the value of [e]: the binding is made in that scope itself, whatever
    the parents bind, and the [let] has no value. *)
Theorem let_then_read
  (fuel : nat) (name : string) (expr : Node) (env : nat)
  (st st1 : State) (v : value) :
  valid env st →
  eval fuel expr env st = (st1, Ret v) →
  eval (S fuel) (Let name expr) env st =
    (with_heap st1 (write_var (st_heap st1) env name v), Ret VNone) ∧
  eval 1 (Var name) env (with_heap st1 (write_var (st_heap st1) env name v)) =
    (with_heap st1 (write_var (st_heap st1) env name v), Ret v).
Proof.
  intros Hv He. split.
  - simpl. unfold bind. by rewrite He.
  - pose proof (eval_evolves fuel expr env st Hv) as Hevo. rewrite He in Hevo.
    pose proof (valid_evolves _ _ _ Hv Hevo) as Hv1. unfold valid in Hv1.
    simpl in Hv1. simpl. unfold m_get, Env_get. simpl. rewrite write_var_length.
    destruct (length (st_heap st1)) as [|n] eqn:Hn; [lia|]. simpl.
    rewrite write_var_self by lia. done.
Qed.

(** X10. [x = e] succeeds exactly when [x] can be read in the scope
    once [e] is evaluated: then reading [x] afterwards gives the value of
    [e]; otherwise the assignment raises the error the read would raise
    (the "not defined" [NameError]) and the state is the one the
    evaluation of [e] left.  It never creates [x]. *)
Theorem assign_then_read
  (fuel : nat) (name : string) (expr : Node) (env : nat)
  (st st1 : State) (v : value) :
  eval fuel expr env st = (st1, Ret v) →
  match Env_get (st_heap st1) env name with
  | inl _ =>
      ∃ st2, eval (S fuel) (Assign name expr) env st = (st2, Ret VNone) ∧
             eval 1 (Var name) env st2 = (st2, Ret v) ∧
             st_out st2 = st_out st1
  | inr e => eval (S fuel) (Assign name expr) env st = (st1, Raise e)
  end.
Proof.
  intros He. unfold Env_get.
  pose proof (set_from_as_get_from (length (st_heap st1)) (st_heap st1) env name v)
    as Hagree.
  destruct (get_from _ _ _ _) as [w|e].
  - destruct Hagree as [h' Hset]. exists (with_heap st1 h').
    split; [|split; [|done]].
    + simpl. unfold bind. rewrite He. unfold m_set, Env_set. by rewrite Hset.
    + simpl. unfold m_get. simpl.
      pose proof (set_from_then_get _ _ _ _ _ _ Hset) as Hget.
      apply set_from_writes in Hset as (a & _ & ->).
      unfold Env_get. rewrite write_var_length. by rewrite Hget.
  - simpl. unfold bind. rewrite He. unfold m_set, Env_set. by rewrite Hagree.
Qed.

Lemma while_returns_none k cond body env st st' v :
  eval k (While cond body) env st = (st', Ret v) → v = VNone.
Proof. intros Hw. by destruct (while_runs_complete _ _ _ _ _ _ _ Hw). Qed.

(** X11. A statement has no value: whenever the evaluation of a [Let],
    [Assign], [Print], [FuncDef], [If] or [While] node ends normally, its
    value is [None] (so a function whose last statement is one of these
    returns [None]). *)
Theorem statements_return_none
  (fuel : nat) (node : Node) (env : nat) (st st' : State) (v : value) :
  is_statement node = true →
  eval fuel node env st = (st', Ret v) →
  v = VNone.
Proof.
  intros Hs. destruct fuel as [|k]; [done|].
  destruct node; try done; simpl; unfold bind.
  - destruct (eval k node env st) as [s1 [w|e|]]; [|done..]. by intros [= _ <-].
  - destruct (eval k node env st) as [s1 [w|e|]]; [|done..].
    destruct (m_set env name w s1) as [s2 [[]|e|]]; [|done..]. by intros [= _ <-].
  - destruct (eval k node env st) as [s1 [w|e|]]; [|done..]. by intros [= _ <-].
  - by intros [= _ <-].
  - destruct (eval k node env st) as [s1 [c|e|]]; [|done..].
    destruct (truthy c).
    + destruct (exec_body _ true_body env VNone s1) as [s2 [w|e|]]; [|done..].
      by intros [= _ <-].
    + destruct (has_body false_body); [|by intros [= _ <-]].
      destruct (exec_body _ _ env VNone s1) as [s2 [w|e|]]; [|done..].
      by intros [= _ <-].
  - destruct (eval k node env st) as [s1 [c|e|]]; [|done..].
    destruct (truthy c); [|by intros [= _ <-]].
    destruct (exec_body _ body env VNone s1) as [s2 [w|e|]]; [|done..].
    apply while_returns_none.
Qed.

(** X12. A loop is its own unrolling: [While c body] and
    [If c (body; While c body)] are evaluated alike, with the same state
    and the same value or error, for every fuel. *)
Theorem while_unrolls_once
  (k : nat) (cond : Node) (body : list Node) (env : nat) (st : State) :
  eval (S k) (While cond body) env st =
  eval (S k) (If cond (body ++ [While cond body]) None) env st.
Proof.
  simpl. unfold bind at 1 3.
  destruct (eval k cond env st) as [s1 [c|e|]]; [|done..].
  destruct (truthy c); [|done].
  unfold bind at 2. rewrite exec_body_last. unfold bind.
  destruct (exec_body (eval k) body env VNone s1) as [s2 [w|e|]]; [|done..].
  destruct (eval k (While cond body) env s2) as [s3 [u|e|]] eqn:Hw; [|done..].
  by rewrite (while_returns_none _ _ _ _ _ _ _ Hw).
Qed.

Lemma literal_elements k elements env st vs :
  (∀ el v, In el elements → literal_value el = Some v →
           ∀ st', eval k el env st' = (st', Ret v)) →
  (fix go (l : list Node) : option (list value) :=
     match l with
     | [] => Some []
     | x :: l' =>
         match literal_value x, go l' with
         | Some v, Some vs => Some (v :: vs)
         | _, _ => None
         end
     end) elements = Some vs →
  eval_elements (eval k) elements env st = (st, Ret vs).
Proof.
  revert vs. induction elements as [|el rest IH]; intros vs Hev; simpl.
  - by intros [= <-].
  - destruct (literal_value el) as [v|] eqn:Hv; [|done].
    destruct ((fix go (l : list Node) : option (list value) := _) rest)
      as [vs'|] eqn:Hrest; [|done].
    intros [= <-]. unfold bind.
    rewrite (Hev el v (or_introl eq_refl) Hv).
    rewrite (IH vs' (λ el' v' Hin, Hev el' v' (or_intror Hin)) eq_refl). done.
Qed.

(** X13. A literal evaluates to the Python value it stands for, in any
    scope and any state, and leaves the state as it is; a fuel of the
    height of the node is enough.  This covers numbers, strings,
    booleans, [none] and lists of literals at any nesting. *)
Theorem literals_evaluate_to_themselves
  (fuel : nat) (node : Node) (v : value) (env : nat) (st : State) :
  literal_value node = Some v →
  (height node ≤ fuel)%nat →
  eval fuel node env st = (st, Ret v).
Proof.
  revert node v st. induction fuel as [|k IH]; intros node v st Hlit Hh.
  { destruct node; simpl in Hh; lia. }
  destruct node; simpl in Hlit; try done; try (by injection Hlit as <-).
  destruct ((fix go (l : list Node) : option (list value) := _) elements)
    as [vs|] eqn:Hgo; [|done].
  injection Hlit as <-. simpl. unfold bind.
  rewrite (literal_elements k elements env st vs); [done| |done].
  intros el w Hin Hw st'. apply IH; [done|].
  simpl in Hh. pose proof (list_max_In _ _ (in_map height _ _ Hin)). lia.
Qed.

Lemma not_known_operator (op : string) :
  op ∉ known_operators →
  ∀ l r, binop op l r = inr (Exception ("Unknown operator " +:+ op)).
Proof.
  intros Hop l r. unfold binop.
  repeat match goal with
         | |- context [String.eqb op ?s] =>
             destruct (String.eqb_spec op s) as [->|_];
             [exfalso; apply Hop; unfold known_operators;
              repeat first [apply list_elem_of_here | apply list_elem_of_further]|]
         end.
  done.
Qed.

(** X14. An operator that is not one of the thirteen is only refused
    after both operands were evaluated: the error is the
    [Unknown operator] exception and the state keeps the effects of both
    operands. *)
Theorem unknown_operator_raises_after_operands
  (fuel : nat) (left_ right_ : Node) (op : string) (env : nat)
  (st st1 st2 : State) (l r : value) :
  op ∉ known_operators →
  eval fuel left_ env st = (st1, Ret l) →
  eval fuel right_ env st1 = (st2, Ret r) →
  eval (S fuel) (BinOp left_ op right_) env st =
    (st2, Raise (Exception ("Unknown operator " +:+ op))).
Proof.
  intros Hop Hl Hr. simpl. unfold bind. rewrite Hl, Hr.
  by rewrite not_known_operator.
Qed.

(** X15. After [FuncDef] in a live scope, a call of that name from the
    same scope runs the parameters and the body just given, whatever a
    parent scope or an earlier definition gave the name; the definition
    itself evaluates nothing of the body, prints nothing and has no
    value. *)
Theorem define_then_call
  (fuel : nat) (name : string) (params : list string) (body : list Node)
  (args : list Node) (env : nat) (st : State) :
  valid env st →
  ∃ st',
    eval 1 (FuncDef name params body) env st = (st', Ret VNone) ∧
    st_heap st' = Env_define_func (st_heap st) env name params body ∧
    st_out st' = st_out st ∧
    eval (S fuel) (FuncCall name args) env st' =
      (let* local_env := m_new_env (Some env) in
       bind_args (eval fuel) (zip params args) local_env env ;;
       exec_body (eval fuel) body local_env VNone) st'.
Proof.
  intros Hv. eexists. split; [reflexivity|]. split; [done|]. split; [done|].
  simpl. unfold Env_get_func, Env_define_func. rewrite length_insert.
  unfold valid in Hv. destruct (length (st_heap st)) as [|n] eqn:Hn; [lia|].
  simpl. rewrite list_lookup_total_insert_eq by lia. simpl.
  by rewrite lookup_insert_eq.
Qed.

(** X16. A call of a name that no scope of the chain defines does not
    fail with the "not defined" error of [get_func]: the error is caught
    and the value or the exception of the call is the one the import of
    a host module of that name gives.  None of the arguments is
    evaluated (the call is the call with no argument at all), and the
    interpreter creates no environment and changes none. *)
Theorem call_of_undefined_function_imports
  (fuel : nat) (name : string) (args : list Node) (env : nat)
  (st : State) (chain : list nat) :
  wf_heap (st_heap st) → valid env st →
  scope_chain (st_heap st) env chain →
  (∀ a, a ∈ chain → funcs (st_heap st !!! a) !! name = None) →
  eval (S fuel) (FuncCall name args) env st = eval 1 (FuncCall name []) env st ∧
  (eval (S fuel) (FuncCall name args) env st).2 =
    match host_import name with
    | inl module => Ret module
    | inr e => Raise e
    end ∧
  st_heap (eval (S fuel) (FuncCall name args) env st).1 = st_heap st.
Proof.
  intros Hwf Hv Hc Hnone.
  assert (Hn : nearest_function (st_heap st) chain name = None).
  { clear Hc. induction chain as [|a rest IH]; simpl; [done|].
    rewrite (Hnone a (list_elem_of_here _ _)). apply IH.
    intros b Hb. apply Hnone. by apply list_elem_of_further. }
  assert (Hcall : ∀ k l, eval (S k) (FuncCall name l) env st =
                         lift (host_import name) st).
  { intros k l. simpl. unfold Env_get_func.
    rewrite (get_func_from_chain _ name Hwf _ _ chain Hv Hc). by rewrite Hn. }
  rewrite !Hcall. split; [done|]. by destruct (host_import name).
Qed.

End Statements.

(** ** The parser and the runner, continued *)

Lemma parse_expr_at_shape (depth : nat) (expr : string) :
  is_parsed_expr (parse_expr_at depth expr) = true.
Proof.
  revert expr. induction depth as [|d IH]; intros expr;
    rewrite parse_expr_at_unfold;
    repeat (destruct (String.eqb _ _); [done|]);
    (destruct (_ && _); [done|]);
    (destruct (_ && _); [|by destruct (PyStr.int _)]); [done|].
  simpl. apply forallb_forall. intros n Hn.
  apply in_map_iff in Hn as (x & <- & _). apply IH.
Qed.

(** X17. The parser builds very little: [parse_expr] only ever gives a
    literal, a variable or a list of such nodes (the bound on nesting
    used here is never reached), and [parse_line] only ever gives a [Let]
    or a [Print] of such an expression.  No text gives an operator, an
    assignment, a function, a call, a branch or a loop. *)
Theorem parser_builds_let_and_print_only :
  (∀ expr, is_parsed_expr (parse_expr expr) = true) ∧
  (∀ expr depth, (String.length expr ≤ depth)%nat →
     parse_expr_at depth expr = parse_expr expr) ∧
  (∀ line node, parse_line line = inl (Some node) →
     ∃ e, is_parsed_expr e = true ∧ ((∃ name, node = Let name e) ∨ node = Print e)).
Proof.
  split; [|split].
  - intros expr. apply parse_expr_at_shape.
  - intros expr depth Hd. by apply parse_expr_depth.
  - intros line node. unfold parse_line.
    destruct (PyStr.startswith (PyStr.strip line) "let ").
    + destruct (PyStr.split1 "=" _) as [|name [|expr [|]]]; try done.
      intros [= <-]. eexists. split; [apply parse_expr_at_shape|]. left. eauto.
    + destruct (PyStr.startswith (PyStr.strip line) "shout "); [|done].
      intros [= <-]. eexists. split; [apply parse_expr_at_shape|]. by right.
Qed.

Section RunnerMore.
Context `{Host}.

Lemma m_set_length env name v st :
  length (st_heap (m_set env name v st).1) = length (st_heap st).
Proof.
  unfold m_set, Env_set.
  destruct (set_from _ _ _ _ _) as [h'|e] eqn:Hset; simpl; [|done].
  apply set_from_writes in Hset as (a & _ & ->). apply write_var_length.
Qed.

Lemma superuser_command_length line_strip env st :
  length (st_heap (superuser_command line_strip env st).1) = length (st_heap st).
Proof.
  unfold superuser_command.
  destruct (superuser _); [|done].
  destruct (PyStr.startswith line_strip "reveal_vars"); [done|].
  destruct (PyStr.startswith line_strip "set_var"); [|done].
  destruct (PyStr.fields line_strip) as [|w [|var [|val [|]]]]; try done.
  destruct (PyStr.int val) as [n|]; [|done].
  unfold bind. pose proof (m_set_length env var (VInt n) st) as Hl.
  by destruct (m_set env var (VInt n) st) as [s1 [[]|e|]].
Qed.

Lemma parsed_node_length line node env st :
  parse_line line = inl (Some node) →
  length (st_heap (eval (S (height node)) node env st).1) = length (st_heap st).
Proof.
  unfold parse_line.
  destruct (PyStr.startswith (PyStr.strip line) "let ").
  - destruct (PyStr.split1 "=" _) as [|name [|expr [|]]]; try done.
    intros [= <-].
    change (eval (S (height (Let (PyStr.strip name) (parse_expr (PyStr.strip expr))))))
      with (eval_node (eval (S (height (parse_expr (PyStr.strip expr)))))).
    cbn [eval_node]. unfold bind.
    pose proof (effect_free_pure (S (height (parse_expr (PyStr.strip expr))))
                  (parse_expr (PyStr.strip expr)) env
                  (parse_expr_effect_free _ _) st) as Hp.
    destruct (eval _ (parse_expr (PyStr.strip expr)) env st) as [s1 [v|e|]];
      simpl in *; subst; try done.
    apply write_var_length.
  - destruct (PyStr.startswith (PyStr.strip line) "shout "); [|done].
    intros [= <-].
    set (e := parse_expr (PyStr.drop_prefix 6 (PyStr.strip line))).
    change (eval (S (height (Print e)))) with (eval_node (eval (S (height e)))).
    cbn [eval_node]. unfold bind.
    pose proof (effect_free_pure (S (height e)) e env
                  (parse_expr_effect_free _ _) st) as Hp.
    by destruct (eval _ e env st) as [s1 [v|x|]]; simpl in *; subst.
Qed.

Lemma bind_length {A B} (m : M A) (k : A → M B) st :
  length (st_heap (m st).1) = length (st_heap st) →
  (∀ a st', length (st_heap (k a st').1) = length (st_heap st')) →
  length (st_heap (bind m k st).1) = length (st_heap st).
Proof.
  intros Hm Hk. unfold bind.
  destruct (m st) as [s1 [a|e|]]; simpl in *; try done. by rewrite Hk.
Qed.

Lemma run_line_length line env st :
  length (st_heap (run_line line env st).1) = length (st_heap st).
Proof.
  unfold run_line. destruct (is_magic line).
  - simpl. by rewrite length_insert.
  - destruct (parse_line line) as [[node|]|e] eqn:Hp; [| |done].
    + unfold bind at 1. simpl.
      apply bind_length; [|intros; apply superuser_command_length].
      apply bind_length; [|done]. by apply (parsed_node_length line).
    + unfold bind at 1. simpl.
      apply bind_length; [done|intros; apply superuser_command_length].
Qed.

Lemma run_lines_length lines env st :
  length (st_heap (run_lines lines env st).1) = length (st_heap st).
Proof.
  revert st. induction lines as [|line rest IH]; intros st; simpl; [done|].
  unfold bind. pose proof (run_line_length line env st) as Hl.
  destruct (run_line line env st) as [s1 [[]|e|]]; simpl in *; try done.
  by rewrite IH.
Qed.

(** X18. [run] always ends, whatever the text: it returns the
    environment it was given, or the one it created when it was given
    none, or it raises.  It creates no other environment: the store has
    the size it had, plus one when no environment was given. *)
Theorem run_ends_and_keeps_the_store_size
  (source : string) (env : option nat) (st : State) :
  (run source env st).2 ≠ OutOfFuel ∧
  (∀ a, (run source env st).2 = Ret a → a = default (length (st_heap st)) env) ∧
  length (st_heap (run source env st).1) =
    (length (st_heap st) + match env with Some _ => 0 | None => 1 end)%nat.
Proof.
  split; [apply run_answers|].
  unfold run, bind. destruct env as [e|]; simpl.
  - pose proof (run_lines_length (PyStr.splitlines source) e st) as Hl.
    destruct (run_lines _ e st) as [s1 [[]|x|]]; simpl in *;
      (split; [by intros a [= <-] || done|lia]).
  - pose proof (run_lines_length (PyStr.splitlines source) (length (st_heap st))
                  (with_heap st (st_heap st ++ [Env_init None]))) as Hl.
    simpl in Hl. rewrite length_app in Hl. simpl in Hl.
    destruct (run_lines _ _ _) as [s1 [[]|x|]]; simpl in *;
      (split; [by intros a [= <-] || done|lia]).
Qed.

(** X19. In superuser mode, a line whose stripped text begins with
    [reveal_vars] (whatever follows) prints one line, holding the
    variables of the environment itself and not those of its parents,
    and changes no environment. *)
Theorem reveal_vars_prints_the_local_scope
  (line : string) (env : nat) (st : State) :
  superuser (st_heap st !!! env) = true →
  PyStr.startswith (PyStr.strip line) "reveal_vars" = true →
  run_line line env st =
    (mkState (st_heap st)
       (st_out st ++ [[PText "[SUPERUSER] Variables:";
                       PVars (vars (st_heap st !!! env))]]),
     Ret tt).
Proof.
  intros Hs Hc. unfold run_line.
  assert (Hcmd : is_superuser_command line = true).
  { unfold is_superuser_command. by rewrite Hc. }
  rewrite (superuser_command_not_magic line Hcmd).
  rewrite (superuser_command_not_parsed line Hcmd).
  simpl. unfold bind at 1. simpl. unfold bind at 1, ret. simpl.
  unfold superuser_command. by rewrite Hs, Hc.
Qed.

(** X20. In superuser mode, a well-formed [set_var x n] line succeeds
    exactly when [x] can be read from the environment: it then rewrites
    the nearest binding of [x], so that reading [x] gives the integer
    [n], and prints one line; when [x] is bound nowhere it raises the
    "not defined" [NameError], changes nothing and prints nothing. *)
Theorem set_var_forces_an_existing_variable
  (line var : string) (n : Z) (env : nat) (st : State) :
  superuser (st_heap st !!! env) = true →
  PyStr.startswith (PyStr.strip line) "set_var" = true →
  set_var_arguments line = Some (var, n) →
  match Env_get (st_heap st) env var with
  | inl _ =>
      ∃ st', run_line line env st = (st', Ret tt) ∧
             Env_get (st_heap st') env var = inl (VInt n) ∧
             (∃ text, st_out st' = st_out st ++ [[PText text]]) ∧
             (∀ b y, y ≠ var → Env_get (st_heap st') b y = Env_get (st_heap st) b y)
  | inr e => run_line line env st = (st, Raise e)
  end.
Proof.
  intros Hs Hc Hargs. rewrite (run_line_set_var line env st Hs Hc).
  unfold set_var_arguments in Hargs.
  destruct (PyStr.fields (PyStr.strip line)) as [|w [|var' [|val [|]]]]; try done.
  destruct (PyStr.int val) as [n'|]; [|done]. injection Hargs as -> ->.
  unfold Env_get.
  pose proof (set_from_as_get_from (length (st_heap st)) (st_heap st) env var (VInt n))
    as Hagree.
  destruct (get_from _ _ _ _) as [w'|e].
  - destruct Hagree as [h' Hset].
    exists (mkState h' (st_out st ++
              [[PText ("[SUPERUSER] " +:+ var +:+ " set to " +:+ val)]])).
    split; [|split; [|split]].
    + unfold bind, m_set, Env_set. by rewrite Hset.
    + simpl. pose proof (set_from_then_get _ _ _ _ _ _ Hset) as Hget.
      apply set_from_writes in Hset as (a & _ & ->).
      by rewrite write_var_length.
    + simpl. eauto.
    + intros b y Hy. simpl.
      apply set_from_writes in Hset as (a & _ & ->).
      rewrite write_var_length. apply get_from_ext.
      * intros c. by apply write_var_other_name.
      * intros c. apply write_var_parent.
  - unfold bind, m_set, Env_set. by rewrite Hagree.
Qed.

End RunnerMore.

(** ** Lines, white space and sessions *)

Lemma chars_str (l : list ascii) : PyStr.chars (PyStr.str l) = l.
Proof. apply list_ascii_of_string_of_list_ascii. Qed.

Lemma str_chars (s : string) : PyStr.str (PyStr.chars s) = s.
Proof. apply string_of_list_ascii_of_string. Qed.

(** A text with no line boundary is one line, or none when it is empty. *)
Lemma splitlines_chars_one_line (l cur : list ascii) :
  Forall (λ c, PyStr.islinebreak c = false) l →
  PyStr.splitlines_chars cur l =
    match rev cur ++ l with
    | [] => []
    | x => [x]
    end.
Proof.
  revert cur. induction l as [|c l IH]; intros cur Hl; simpl.
  - rewrite app_nil_r. destruct cur as [|c cur]; [done|]. simpl.
    by destruct (rev cur ++ [c]) eqn:Hr; [destruct (rev cur)|].
  - inversion Hl as [|? ? Hc Hl']; subst. rewrite Hc.
    rewrite (IH (c :: cur) Hl'). simpl. rewrite <- app_assoc. simpl.
    by destruct (rev cur).
Qed.

(** The lines [splitlines] gives hold no line boundary. *)
Lemma splitlines_chars_no_break (n : nat) :
  ∀ l cur x, (length l ≤ n)%nat →
    Forall (λ c, PyStr.islinebreak c = false) cur →
    In x (PyStr.splitlines_chars cur l) →
    Forall (λ c, PyStr.islinebreak c = false) x.
Proof.
  induction n as [|n IH]; intros l cur x Hlen Hcur.
  - destruct l; [|simpl in Hlen; lia]. simpl.
    destruct cur as [|c cur]; [done|]. intros [<-|[]].
    by apply List.Forall_rev.
  - destruct l as [|c l]; simpl.
    + destruct cur as [|c cur]; [done|]. intros [<-|[]].
      by apply List.Forall_rev.
    + simpl in Hlen. destruct (PyStr.islinebreak c) eqn:Hc.
      * intros [<-|Hin].
        { by apply List.Forall_rev. }
        destruct l as [|c' l']; [done|]. simpl in Hlen.
        destruct (_ && _); (eapply IH; [|constructor|exact Hin]); simpl; lia.
      * apply IH; [lia|]. by constructor.
Qed.

Lemma splitlines_of_a_line (source line : string) :
  In line (PyStr.splitlines source) →
  PyStr.splitlines line = match line with EmptyString => [] | _ => [line] end.
Proof.
  unfold PyStr.splitlines. rewrite in_map_iff. intros (x & <- & Hx).
  pose proof (splitlines_chars_no_break _ _ [] x (Nat.le_refl _) (List.Forall_nil _) Hx)
    as Hnb.
  rewrite chars_str, (splitlines_chars_one_line x [] Hnb). simpl.
  destruct x; reflexivity.
Qed.

(** White space is only stripped once. *)
Lemma lstrip_chars_head (l : list ascii) :
  match PyStr.lstrip_chars l with
  | c :: _ => PyStr.isspace c = false
  | [] => True
  end.
Proof.
  induction l as [|c l IH]; simpl; [done|].
  by destruct (PyStr.isspace c) eqn:Hc; [|rewrite Hc].
Qed.

Lemma lstrip_chars_fixed (l : list ascii) :
  match l with c :: _ => PyStr.isspace c = false | [] => True end →
  PyStr.lstrip_chars l = l.
Proof. destruct l as [|c l]; simpl; [done|]. by intros ->. Qed.

Lemma lstrip_chars_snoc (l : list ascii) (c : ascii) :
  PyStr.isspace c = false →
  PyStr.lstrip_chars (l ++ [c]) = PyStr.lstrip_chars l ++ [c].
Proof.
  intros Hc. induction l as [|d l IH]; simpl; [by rewrite Hc|].
  by destruct (PyStr.isspace d).
Qed.

Lemma rstrip_chars_head (l : list ascii) :
  match l with c :: _ => PyStr.isspace c = false | [] => True end →
  match PyStr.rstrip_chars l with
  | c :: _ => PyStr.isspace c = false
  | [] => True
  end.
Proof.
  destruct l as [|c l]; [done|]. intros Hc. unfold PyStr.rstrip_chars. simpl.
  rewrite lstrip_chars_snoc by done. rewrite rev_app_distr. simpl. done.
Qed.

Lemma rstrip_chars_idemp (l : list ascii) :
  PyStr.rstrip_chars (PyStr.rstrip_chars l) = PyStr.rstrip_chars l.
Proof.
  unfold PyStr.rstrip_chars. rewrite rev_involutive.
  f_equal. apply lstrip_chars_fixed, lstrip_chars_head.
Qed.

Lemma strip_idemp (s : string) : PyStr.strip (PyStr.strip s) = PyStr.strip s.
Proof.
  unfold PyStr.strip. rewrite chars_str. f_equal.
  rewrite (lstrip_chars_fixed (PyStr.rstrip_chars _)).
  - apply rstrip_chars_idemp.
  - apply rstrip_chars_head, lstrip_chars_head.
Qed.

Lemma parse_expr_at_strip (depth : nat) (expr : string) :
  parse_expr_at depth (PyStr.strip expr) = parse_expr_at depth expr.
Proof. rewrite !parse_expr_at_unfold. by rewrite strip_idemp. Qed.

Section Sessions.
Context `{Host}.

Lemma run_line_empty env st : run_line EmptyString env st = (st, Ret tt).
Proof.
  unfold run_line. simpl. unfold bind. simpl. unfold superuser_command.
  by destruct (superuser _).
Qed.

Lemma run_one_line source line env st :
  In line (PyStr.splitlines source) →
  (run line (Some env) st).1 = (run_line line env st).1 ∧
  ((run_line line env st).2 = Ret tt → (run line (Some env) st).2 = Ret env).
Proof.
  intros Hin. unfold run.
  rewrite (splitlines_of_a_line source line Hin).
  destruct line as [|c line].
  - by rewrite run_line_empty.
  - simpl. unfold bind, ret. simpl.
    by destruct (run_line _ env st) as [s1 [[]|e|]].
Qed.

(** X21. Running a text in one call, when the call does not raise, is
    running its lines one call at a time on the same environment, as the
    interactive loop does: the final states are the same. *)
Theorem run_is_the_session_of_its_lines
  (source : string) (env a : nat) (st st' : State) :
  run source (Some env) st = (st', Ret a) →
  session (PyStr.splitlines source) env st = st'.
Proof.
  unfold run at 1. unfold bind at 1. simpl.
  assert (Hlines : ∀ lines, (∀ l, In l lines → In l (PyStr.splitlines source)) →
            ∀ s s', run_lines lines env s = (s', Ret tt) →
                    session lines env s = s').
  { induction lines as [|line rest IH]; intros Hsub s s'; simpl.
    - by intros [= <-].
    - unfold bind.
      destruct (run_one_line source line env s (Hsub line (or_introl eq_refl)))
        as [Hst _].
      rewrite Hst.
      destruct (run_line line env s) as [s1 [[]|e|]]; try done. simpl.
      apply IH. intros l Hl. apply Hsub. by right. }
  unfold bind.
  destruct (run_lines (PyStr.splitlines source) env st) as [s1 [[]|e|]] eqn:Hr;
    try done.
  intros [= <- _]. by apply Hlines.
Qed.

(** X22. White space around a line never matters: the runner does with
    the stripped line exactly what it does with the line, the parser
    gives the same node for both, and [parse_expr] the same node for an
    expression and for the expression stripped. *)
Theorem surrounding_white_space_is_ignored (line : string) :
  (∀ env st, run_line (PyStr.strip line) env st = run_line line env st) ∧
  parse_line (PyStr.strip line) = parse_line line ∧
  is_magic (PyStr.strip line) = is_magic line ∧
  parse_expr (PyStr.strip line) = parse_expr line.
Proof.
  assert (Hp : parse_line (PyStr.strip line) = parse_line line).
  { unfold parse_line. by rewrite strip_idemp. }
  assert (Hm : is_magic (PyStr.strip line) = is_magic line).
  { unfold is_magic. by rewrite strip_idemp. }
  split; [|split; [done|split; [done|]]].
  - intros env st. unfold run_line. by rewrite Hm, Hp, strip_idemp.
  - unfold parse_expr. rewrite <- (parse_expr_at_strip _ line).
    apply parse_expr_depth; [done|apply strip_length].
Qed.

End Sessions.

(** ** The interactive loop *)

Section ReplFacts.
Context `{Host}.
Variable exn_text : exn → string.

Lemma repl_loop_exit turns pre code post env st :
  Forall (λ c, is_exit c = false) pre → is_exit code = true →
  (length pre < turns)%nat →
  (repl_loop exn_text turns (pre ++ code :: post) env st).2 = Ret tt ∧
  repl_loop exn_text turns (pre ++ code :: post) env st =
    repl_loop exn_text turns (pre ++ [code]) env st.
Proof.
  intros Hpre Hcode. revert turns env st.
  induction Hpre as [|c pre Hc Hpre IH]; intros turns env st Hlen;
    (destruct turns as [|k]; [simpl in Hlen; lia|]); simpl in *.
  - unfold bind, m_prompt, m_print. simpl. by rewrite Hcode.
  - unfold bind, m_prompt, m_print. simpl. rewrite Hc.
    pose proof (run_answers c (Some env)
                  (mkState (st_heap st) (st_out st ++ [[PText ">> "]]))) as Hr.
    destruct (run c (Some env) _) as [s1 [a|e|]]; simpl in *; [| |done].
    + apply IH. lia.
    + apply IH. lia.
Qed.

Lemma repl_loop_no_exit turns inputs env st :
  Forall (λ c, is_exit c = false) inputs →
  (repl_loop exn_text turns inputs env st).2 = OutOfFuel.
Proof.
  revert inputs env st. induction turns as [|k IH]; intros inputs env st Hin;
    [done|]. simpl. unfold bind, m_prompt, m_print. simpl.
  destruct Hin as [|c rest Hc Hrest]; simpl.
  - by apply IH.
  - rewrite Hc. destruct (run c (Some env) _) as [s1 [a|e|]]; simpl; [| |done].
    + by apply IH.
    + by apply IH.
Qed.

Lemma repl_loop_never_raises turns inputs env st :
  (repl_loop exn_text turns inputs env st).2 = Ret tt ∨
  (repl_loop exn_text turns inputs env st).2 = OutOfFuel.
Proof.
  revert inputs env st. induction turns as [|k IH]; intros inputs env st;
    [by right|]. simpl. unfold bind, m_prompt, m_print. simpl.
  destruct inputs as [|c rest]; simpl; [apply IH|].
  destruct (is_exit c); [by left|].
  pose proof (run_answers c (Some env)
                (mkState (st_heap st) (st_out st ++ [[PText ">> "]]))) as Hr.
  destruct (run c (Some env) _) as [s1 [a|e'|]]; simpl; [apply IH|apply IH|done].
Qed.

(** X23. The interactive loop ends at the first input that is [exit]
    once stripped and lower-cased, whatever the inputs before it did
    (returned or raised): it ends without an exception, and what comes
    after that input is never read. *)
Theorem repl_ends_at_the_first_exit
  (turns : nat) (pre : list string) (code : string) (post : list string)
  (st : State) :
  Forall (λ c, is_exit c = false) pre → is_exit code = true →
  (length pre < turns)%nat →
  (repl exn_text turns (pre ++ code :: post) st).2 = Ret tt ∧
  repl exn_text turns (pre ++ code :: post) st =
    repl exn_text turns (pre ++ [code]) st.
Proof.
  intros Hpre Hcode Hlen. unfold repl, bind, m_new_env, m_print. simpl.
  by apply repl_loop_exit.
Qed.

(** X24. With no [exit] among the inputs the interactive loop never
    ends, also when the inputs are used up: the end of the input is an
    error like any other, printed and followed by the next prompt.  No
    number of turns is enough. *)
Theorem repl_never_ends_without_exit
  (turns : nat) (inputs : list string) (st : State) :
  Forall (λ c, is_exit c = false) inputs →
  (repl exn_text turns inputs st).2 = OutOfFuel.
Proof.
  intros Hin. unfold repl, bind, m_new_env, m_print. simpl.
  by apply repl_loop_no_exit.
Qed.

(** X25. No error of a line ends the interactive loop: whatever the
    inputs, the loop never raises.  It ends by [exit], or it does not
    end. *)
Theorem repl_catches_every_error
  (turns : nat) (inputs : list string) (st : State) :
  (repl exn_text turns inputs st).2 = Ret tt ∨
  (repl exn_text turns inputs st).2 = OutOfFuel.
Proof.
  unfold repl, bind, m_new_env, m_print. simpl.
  apply repl_loop_never_raises.
Qed.

End ReplFacts.

(** ** The further properties at work on concrete programs *)

Lemma adder_scopes_wf : wf_heap adder_scopes.
Proof. intros [|[|a]] p; simpl; intros [= <-]. lia. Qed.

(** Assigning [x] in the child of [two_scopes] rewrites the root. *)
Lemma Env_set_nearest_scope_example :
  ∃ chain,
    scope_chain two_scopes 1%nat chain ∧
    (∀ h', Env_set two_scopes 1%nat "x" (VInt 9) = inl h' ↔
           ∃ a, nearest_scope two_scopes chain "x" = Some a ∧
                h' = write_var two_scopes a "x" (VInt 9)) ∧
    (∀ e, Env_set two_scopes 1%nat "x" (VInt 9) = inr e ↔
          e = not_defined "Variable" "x" ∧
          ∀ a, a ∈ chain → vars (two_scopes !!! a) !! "x" = None) ∧
    (∀ h' b y, Env_set two_scopes 1%nat "x" (VInt 9) = inl h' →
               is_Some (vars (h' !!! b) !! y) ↔ is_Some (vars (two_scopes !!! b) !! y)).
Proof.
  apply (Env_set_nearest_scope two_scopes 1%nat "x" (VInt 9)).
  - exact two_scopes_wf.
  - simpl. lia.
Defined.

Lemma Env_set_then_get_example :
  Env_set two_scopes 1%nat "x" (VInt 9) =
    inl (write_var two_scopes 0%nat "x" (VInt 9)) ∧
  Env_get (write_var two_scopes 0%nat "x" (VInt 9)) 1%nat "x" = inl (VInt 9) ∧
  (∀ b y, y ≠ "x" →
     Env_get (write_var two_scopes 0%nat "x" (VInt 9)) b y = Env_get two_scopes b y) ∧
  (∀ b f, Env_get_func (write_var two_scopes 0%nat "x" (VInt 9)) b f =
          Env_get_func two_scopes b f).
Proof.
  assert (Hset : Env_set two_scopes 1%nat "x" (VInt 9) =
                 inl (write_var two_scopes 0%nat "x" (VInt 9)))
    by (vm_compute; reflexivity).
  split; [exact Hset|].
  exact (Env_set_then_get two_scopes (write_var two_scopes 0%nat "x" (VInt 9))
           1%nat "x" (VInt 9) Hset).
Defined.

Lemma Env_declare_then_get_example :
  Env_get (Env_declare two_scopes 1%nat "x" (VInt 7)) 1%nat "x" = inl (VInt 7) ∧
  Env_declare (Env_declare two_scopes 1%nat "x" (VInt 7)) 1%nat "x" (VInt 8) =
    Env_declare two_scopes 1%nat "x" (VInt 8) ∧
  (∀ b y, y ≠ "x" →
     Env_get (Env_declare two_scopes 1%nat "x" (VInt 7)) b y = Env_get two_scopes b y) ∧
  (∀ b f, Env_get_func (Env_declare two_scopes 1%nat "x" (VInt 7)) b f =
          Env_get_func two_scopes b f).
Proof.
  apply (Env_declare_then_get two_scopes 1%nat "x" (VInt 7) (VInt 8)).
  simpl. lia.
Defined.

(** [f] is looked up from the child of [adder_scopes] and found in the
    root. *)
Lemma Env_get_func_nearest_scope_example :
  ∃ chain,
    scope_chain adder_scopes 1%nat chain ∧
    (∀ f, Env_get_func adder_scopes 1%nat "f" = inl f ↔
          nearest_function adder_scopes chain "f" = Some f) ∧
    (∀ e, Env_get_func adder_scopes 1%nat "f" = inr e ↔
          e = not_defined "Function" "f" ∧
          ∀ a, a ∈ chain → funcs (adder_scopes !!! a) !! "f" = None).
Proof.
  apply (Env_get_func_nearest_scope adder_scopes 1%nat "f").
  - exact adder_scopes_wf.
  - simpl. lia.
Defined.

Lemma Env_define_func_then_get_func_example :
  Env_get_func scopes_with_f 1%nat "f" = inl (["a"], [Var "a"]) ∧
  Env_define_func scopes_with_f 1%nat "f" [] [] =
    Env_define_func two_scopes 1%nat "f" [] [] ∧
  (∀ b g, g ≠ "f" → Env_get_func scopes_with_f b g = Env_get_func two_scopes b g) ∧
  (∀ b y, Env_get scopes_with_f b y = Env_get two_scopes b y).
Proof.
  apply (Env_define_func_then_get_func two_scopes 1%nat "f" ["a"] [] [Var "a"] []).
  simpl. lia.
Defined.

Lemma Env_get_class_nearest_scope_example :
  Env_get_class (Env_define_class two_scopes 1%nat "Point" (VStr "Point")) 1%nat "Point" =
    inl (VStr "Point") ∧
  ∃ chain,
    scope_chain two_scopes 1%nat chain ∧
    (∀ c, Env_get_class two_scopes 1%nat "Point" = inl c ↔
          nearest_class two_scopes chain "Point" = Some c) ∧
    (∀ e, Env_get_class two_scopes 1%nat "Point" = inr e ↔
          e = not_defined "Class" "Point" ∧
          ∀ a, a ∈ chain → classes (two_scopes !!! a) !! "Point" = None).
Proof.
  apply (Env_get_class_nearest_scope two_scopes 1%nat "Point" (VStr "Point")).
  - exact two_scopes_wf.
  - simpl. lia.
Defined.

Lemma store_shape_is_kept_example :
  (∀ fuel node,
     let st' := (eval (H:=bare_host) fuel node 0%nat adder_state).1 in
     (length (st_heap adder_state) ≤ length (st_heap st'))%nat ∧
     (∀ a, (a < length (st_heap adder_state))%nat →
           parent (st_heap st' !!! a) = parent (st_heap adder_state !!! a)) ∧
     (wf_heap (st_heap adder_state) → wf_heap (st_heap st')) ∧
     st_out adder_state `prefix_of` st_out st') ∧
  (∀ source, wf_heap (st_heap adder_state) →
     wf_heap (st_heap (run (H:=bare_host) source (Some 0%nat) adder_state).1)).
Proof.
  apply (store_shape_is_kept (H:=bare_host) 0%nat adder_state).
  unfold valid. simpl. lia.
Defined.

(** [let y = x + 1] where [x] is 1, then a read of [y]. *)
Lemma let_then_read_example :
  eval (H:=bare_host) 3 (Let "y" (BinOp (Var "x") "+" (Number 1))) 0%nat
    (root_state 1 false) = (root_with_y, Ret VNone) ∧
  eval (H:=bare_host) 1 (Var "y") 0%nat root_with_y = (root_with_y, Ret (VInt 2)).
Proof.
  apply (let_then_read (H:=bare_host) 2 "y" (BinOp (Var "x") "+" (Number 1)) 0%nat
           (root_state 1 false) (root_state 1 false) (VInt 2)).
  - unfold valid. simpl. lia.
  - vm_compute. reflexivity.
Defined.

(** [x = 5] where [x] is bound, then a read of [x]. *)
Lemma assign_then_read_example :
  ∃ st2,
    eval (H:=bare_host) 2 (Assign "x" (Number 5)) 0%nat (root_state 1 false) =
      (st2, Ret VNone) ∧
    eval (H:=bare_host) 1 (Var "x") 0%nat st2 = (st2, Ret (VInt 5)) ∧
    st_out st2 = st_out (root_state 1 false).
Proof.
  apply (assign_then_read (H:=bare_host) 1 "x" (Number 5) 0%nat
           (root_state 1 false) (root_state 1 false) (VInt 5)).
  reflexivity.
Defined.

(** [shout 3] prints and has no value. *)
Lemma statements_return_none_example :
  is_statement (Print (Number 3)) = true ∧
  ∃ v, eval (H:=bare_host) 2 (Print (Number 3)) 0%nat (root_state 1 false) =
         (mkState (st_heap (root_state 1 false)) [[PValue (VInt 3)]], Ret v) ∧
       v = VNone.
Proof.
  split; [reflexivity|].
  exists ((λ r, match r with Ret v => v | _ => VInt 0 end)
            (eval (H:=bare_host) 2 (Print (Number 3)) 0%nat (root_state 1 false)).2).
  split; [vm_compute; reflexivity|].
  apply (statements_return_none (H:=bare_host) 2 (Print (Number 3)) 0%nat
           (root_state 1 false)
           (mkState (st_heap (root_state 1 false)) [[PValue (VInt 3)]])).
  - reflexivity.
  - vm_compute. reflexivity.
Defined.

Lemma literals_evaluate_to_themselves_example :
  eval (H:=bare_host) 2 (Array [Number 1; String "a"; NoneNode]) 0%nat
    (root_state 1 false) =
  (root_state 1 false, Ret (VList [VInt 1; VStr "a"; VNone])).
Proof.
  apply (literals_evaluate_to_themselves (H:=bare_host) 2
           (Array [Number 1; String "a"; NoneNode])
           (VList [VInt 1; VStr "a"; VNone])).
  - reflexivity.
  - vm_compute. lia.
Defined.

(** [2 ** (let y = 2)]: both operands are evaluated, the binding is
    made, and only then the operator is refused. *)
Lemma unknown_operator_example :
  eval (H:=bare_host) 3 (BinOp (Number 2) "**" (Let "y" (Number 2))) 0%nat
    (root_state 1 false) =
  (root_with_y, Raise (Exception "Unknown operator **")).
Proof.
  apply (unknown_operator_raises_after_operands (H:=bare_host) 2
           (Number 2) (Let "y" (Number 2)) "**" 0%nat
           (root_state 1 false) (root_state 1 false) root_with_y
           (VInt 2) VNone).
  - intros Hin. unfold known_operators in Hin.
    repeat (apply elem_of_cons in Hin as [Hin|Hin]; [discriminate Hin|]).
    by apply elem_of_nil in Hin.
  - reflexivity.
  - vm_compute. reflexivity.
Defined.

Lemma define_then_call_example :
  ∃ st',
    eval (H:=bare_host) 1 (FuncDef "id" ["a"] [Var "a"]) 0%nat (root_state 1 false) =
      (st', Ret VNone) ∧
    st_heap st' =
      Env_define_func (st_heap (root_state 1 false)) 0%nat "id" ["a"] [Var "a"] ∧
    st_out st' = st_out (root_state 1 false) ∧
    eval (H:=bare_host) 3 (FuncCall "id" [Var "x"]) 0%nat st' =
      (let* local_env := m_new_env (Some 0%nat) in
       bind_args (eval (H:=bare_host) 2) (zip ["a"] [Var "x"]) local_env 0%nat ;;
       exec_body (eval (H:=bare_host) 2) [Var "a"] local_env VNone) st'.
Proof.
  apply (define_then_call (H:=bare_host) 2 "id" ["a"] [Var "a"] [Var "x"] 0%nat
           (root_state 1 false)).
  unfold valid. simpl. lia.
Defined.

(** [math(shout 1)] where no scope defines [math]: the value is the
    module, nothing is printed and no environment is added. *)
Lemma call_of_undefined_function_example :
  eval (H:=bare_host) 3 (FuncCall "math" [Print (Number 1)]) 1%nat
    (mkState two_scopes []) =
  eval (H:=bare_host) 1 (FuncCall "math" []) 1%nat (mkState two_scopes []) ∧
  (eval (H:=bare_host) 3 (FuncCall "math" [Print (Number 1)]) 1%nat
     (mkState two_scopes [])).2 = Ret (VModule "math") ∧
  st_heap (eval (H:=bare_host) 3 (FuncCall "math" [Print (Number 1)]) 1%nat
             (mkState two_scopes [])).1 = two_scopes.
Proof.
  apply (call_of_undefined_function_imports (H:=bare_host) 2 "math"
           [Print (Number 1)] 1%nat (mkState two_scopes []) [1%nat; 0%nat]).
  - exact two_scopes_wf.
  - unfold valid. simpl. lia.
  - apply chain_parent with (p := 0%nat); [reflexivity|].
    apply chain_root. reflexivity.
  - intros a Ha.
    repeat (apply elem_of_cons in Ha as [->|Ha]; [reflexivity|]).
    by apply elem_of_nil in Ha.
Defined.

Lemma reveal_vars_example :
  run_line (H:=bare_host) "  reveal_vars please" 0%nat (root_state 1 true) =
  (mkState (st_heap (root_state 1 true))
     [[PText "[SUPERUSER] Variables:"; PVars {[ "x" := VInt 1 ]}]],
   Ret tt).
Proof.
  apply (reveal_vars_prints_the_local_scope (H:=bare_host)
           "  reveal_vars please" 0%nat (root_state 1 true)).
  - reflexivity.
  - reflexivity.
Defined.

Lemma set_var_example :
  ∃ st', run_line (H:=bare_host) "set_var x 5" 0%nat (root_state 1 true) = (st', Ret tt) ∧
         Env_get (st_heap st') 0%nat "x" = inl (VInt 5) ∧
         (∃ text, st_out st' = st_out (root_state 1 true) ++ [[PText text]]) ∧
         (∀ b y, y ≠ "x" →
            Env_get (st_heap st') b y = Env_get (st_heap (root_state 1 true)) b y).
Proof.
  apply (set_var_forces_an_existing_variable (H:=bare_host)
           "set_var x 5" "x" 5 0%nat (root_state 1 true)).
  - reflexivity.
  - reflexivity.
  - reflexivity.
Defined.

(** Four lines run in one call and one call at a time. *)
Lemma run_is_the_session_example :
  session (H:=bare_host) (PyStr.splitlines ignored_commands_source) 0%nat
    (root_state 0 false) =
  (run (H:=bare_host) ignored_commands_source (Some 0%nat) (root_state 0 false)).1.
Proof.
  apply (run_is_the_session_of_its_lines (H:=bare_host) ignored_commands_source
           0%nat 0%nat (root_state 0 false)).
  vm_compute. reflexivity.
Defined.

(** A binding, an error, then [ EXIT ]: the loop ends there and never
    reads the line after it. *)
Lemma repl_exit_example :
  (repl (H:=bare_host) bare_exn_text 3
     (["let x = 1"; "shout y"] ++ " EXIT " :: ["shout x"]) (mkState [] [])).2 = Ret tt ∧
  repl (H:=bare_host) bare_exn_text 3
    (["let x = 1"; "shout y"] ++ " EXIT " :: ["shout x"]) (mkState [] []) =
  repl (H:=bare_host) bare_exn_text 3
    (["let x = 1"; "shout y"] ++ [" EXIT "]) (mkState [] []).
Proof.
  apply (repl_ends_at_the_first_exit (H:=bare_host) bare_exn_text 3
           ["let x = 1"; "shout y"] " EXIT " ["shout x"] (mkState [] [])).
  - repeat constructor.
  - reflexivity.
  - simpl. lia.
Defined.

(** One line and then the end of the input: five turns are not enough. *)
Lemma repl_without_exit_example :
  (repl (H:=bare_host) bare_exn_text 5 ["shout 1"] (mkState [] [])).2 = OutOfFuel.
Proof.
  apply (repl_never_ends_without_exit (H:=bare_host) bare_exn_text 5
           ["shout 1"] (mkState [] [])).
  repeat constructor.
Defined.

(** On the host of the examples [7 / 2] is 3.5 and [-1 / 3] the double
    nearest to a third, as in Python. *)
Example true_division_result :
  binop (H:=bare_host) "/" (VInt 7) (VInt 2) = inl (VFloat 4615063718147915776) ∧
  binop (H:=bare_host) "/" (VInt (-1)) (VInt 3) = inl (VFloat 13823048456275842389) ∧
  binop (H:=bare_host) "/" (VInt 1) (VInt 0) = inr ZeroDivisionError.
Proof. vm_compute. repeat split. Qed.
